(** * groupUniqArray aggregate functions and the copy-on-write pointer

    A shallow embedding of
    - [dbms/include/DB/AggregateFunctions/AggregateFunctionGroupUniqArray.h]
      (the fixed-width aggregator [AggregateFunctionGroupUniqArray<T>] and the
      generic one [AggreagteFunctionGroupUniqArrayGeneric<is_plain_column>]);
    - the [COWPtr] / [COWPtrHelper] header.

    The collaborators the two headers only include (read and write helpers,
    [HashSet], [Arena], [IColumn], [ColumnArray]) are modelled from their
    described contracts; every such definition says so. *)

From Stdlib Require Import ZArith Lia List.
From Stdlib.Strings Require Import Byte.
From stdpp Require Import base option list gmap.

Local Open Scope Z_scope.

(** ** Outcomes of a call

    A call either returns, or throws, or runs into behaviour the C++ source
    leaves undefined (no check is written in the source for those). *)

Inductive Failure : Type :=
  | DecodingError          (* thrown by the read helpers: short read, bad varint *)
  | NullArenaDereference   (* [arena->...] or [*arena] used with [arena == nullptr] *)
  | RowOutOfRange.         (* [getData()[row_num]] past the end of the column *)

Inductive result (A : Type) : Type :=
  | Ok (a : A)
  | Fail (f : Failure).
Arguments Ok {A} a.
Arguments Fail {A} f.

#[global] Instance result_ret : MRet result := λ A a, Ok a.
#[global] Instance result_bind : MBind result := λ A B k m,
  match m with
  | Ok a => k a
  | Fail f => Fail f
  end.

Definition is_Ok {A} (r : result A) : bool :=
  match r with Ok _ => true | Fail _ => false end.

(** ** Bytes *)

Definition byte_of_Z (z : Z) : byte :=
  match Byte.of_N (Z.to_N (z mod 256)) with
  | Some b => b
  | None => x00
  end.

Definition Z_of_byte (b : byte) : Z := Z.of_N (Byte.to_N b).

#[global] Instance byte_eq_dec : EqDecision byte.
Proof.
  intros a b. destruct (N.eq_dec (Byte.to_N a) (Byte.to_N b)) as [E | E].
  - left. apply (f_equal Byte.of_N) in E. rewrite !Byte.of_to_N in E. congruence.
  - right. congruence.
Defined.

Definition UInt64_MAX1 : Z := 2 ^ 64.

(** [size_t] and [UInt64] arithmetic wraps around. *)
Definition wrap64 (z : Z) : Z := z mod UInt64_MAX1.

(** ** Read and write helpers ([DB/IO/WriteHelpers.h], [DB/IO/ReadHelpers.h]) *)

Module IO.

(** A [WriteBuffer] is the bytes written so far, a [ReadBuffer] the bytes
    still to be read. *)
Abbreviation WriteBuffer := (list byte).
Abbreviation ReadBuffer := (list byte).

(** Modelled from the spec: [writeVarUInt] (WriteHelpers.h is not part of
    the sources at hand).  "Standard little-endian base-128 varint": seven
    payload bits per byte, least significant group first, the high bit of a
    byte set when more groups follow.  A 64-bit value has at most ten
    groups. *)
Fixpoint writeVarUInt_loop (groups : nat) (x : Z) : list byte :=
  match groups with
  | O => []
  | S n =>
      let b := Z.land x 0x7F in
      if 0x7F <? x
      then byte_of_Z (Z.lor b 0x80) :: writeVarUInt_loop n (Z.shiftr x 7)
      else [byte_of_Z b]
  end.

Definition writeVarUInt (x : Z) (buf : WriteBuffer) : WriteBuffer :=
  buf ++ writeVarUInt_loop 10 (wrap64 x).

(** Modelled from the spec: [readVarUInt] (ReadHelpers.h is not part of the
    sources at hand).  The inverse of [writeVarUInt]; a buffer that ends
    before a byte without the continuation bit, or a varint of more than
    ten groups, is a decoding error. *)
Fixpoint readVarUInt_loop (groups : nat) (shift : Z) (acc : Z) (buf : ReadBuffer)
  : result (Z * ReadBuffer) :=
  match groups with
  | O => Fail DecodingError
  | S n =>
      match buf with
      | [] => Fail DecodingError
      | b :: rest =>
          let acc' := Z.lor acc (Z.shiftl (Z.land (Z_of_byte b) 0x7F) shift) in
          if Z.testbit (Z_of_byte b) 7
          then readVarUInt_loop n (shift + 7) acc' rest
          else Ok (acc', rest)
      end
  end.

(** The value read is a [UInt64]. *)
Definition readVarUInt (buf : ReadBuffer) : result (Z * ReadBuffer) :=
  '(x, rest) ← readVarUInt_loop 10 0 0 buf; Ok (wrap64 x, rest).

(** Modelled from the spec: [ReadBuffer::readStrict], "short read" is a
    decoding error. *)
Definition readStrict (n : nat) (buf : ReadBuffer) : result (list byte * ReadBuffer) :=
  if (length buf <? n)%nat then Fail DecodingError
  else Ok (take n buf, drop n buf).

(** Modelled from the spec: [writeIntBinary], "raw little-endian bytes of
    the numeric type", [w] = [sizeof(T)]. *)
Fixpoint le_bytes (w : nat) (x : Z) : list byte :=
  match w with
  | O => []
  | S n => byte_of_Z (Z.land x 0xFF) :: le_bytes n (Z.shiftr x 8)
  end.

Definition writeIntBinary (w : nat) (x : Z) (buf : WriteBuffer) : WriteBuffer :=
  buf ++ le_bytes w x.

Fixpoint le_value (bs : list byte) : Z :=
  match bs with
  | [] => 0
  | b :: rest => Z.lor (Z_of_byte b) (Z.shiftl (le_value rest) 8)
  end.

(** Modelled from the spec: reading one fixed-width element back. *)
Definition readIntBinary (w : nat) (buf : ReadBuffer) : result (Z * ReadBuffer) :=
  '(bs, rest) ← readStrict w buf; Ok (le_value bs, rest).

(** Modelled from the spec: [writeStringBinary], "a variable-length
    unsigned integer length followed by that many raw bytes". *)
Definition writeStringBinary (s : list byte) (buf : WriteBuffer) : WriteBuffer :=
  writeVarUInt (Z.of_nat (length s)) buf ++ s.

End IO.

(** ** Hash set ([DB/Common/HashTable/HashSet.h]) *)

(** The order in which a hash table is iterated is a function of the keys
    that were inserted into it, and of nothing the aggregators rely on: it is
    a parameter of the model. *)
Class IterationOrder (K : Type) := iteration_order : list K → list K.

(** Every cell is visited exactly once. *)
Class IterationOrderLaw (K : Type) `{IterationOrder K} :=
  iteration_order_perm : ∀ l : list K, iteration_order l ≡ₚ l.

Module HashSet.

(** Modelled from the spec: [HashSet<Key, Hash, Grower, Allocator>] and
    [HashSetWithSavedHash] (HashSet.h and HashTable.h are not part of the
    sources at hand).  "A set ...; uniqueness is by value equality."  The
    model keeps the cells in the order of their insertion; bucket layout,
    growth and the saved hash only decide where a cell is found, and are
    left to [iteration_order].  [eqb] is the key's [operator==]. *)
Record t (K : Type) : Type := Build { cells : list K }.
Arguments Build {K} cells.
Arguments cells {K} _.

Section ops.
Context {K : Type} (eqb : K → K → bool).

Definition empty : t K := Build [].

(** [size()], a [size_t]. *)
Definition size (s : t K) : Z := wrap64 (Z.of_nat (length (cells s))).

(** The cell holding a key equal to [x], if any. *)
Fixpoint find_cell (x : K) (l : list K) : option nat :=
  match l with
  | [] => None
  | c :: rest => if eqb c x then Some O else S <$> find_cell x rest
  end.

(** [emplace(x, it, inserted)]: [it] is the cell of the key, [inserted]
    tells whether the cell is new. *)
Definition emplace (x : K) (s : t K) : t K * nat * bool :=
  match find_cell x (cells s) with
  | Some it => (s, it, false)
  | None => (Build (cells s ++ [x]), length (cells s), true)
  end.

(** [insert(x)]. *)
Definition insert (x : K) (s : t K) : t K := (emplace x s).1.1.

(** [*it] *)
Definition at_it (it : nat) (s : t K) : option K := cells s !! it.

(** Assignment through an iterator, [*it = c]. *)
Definition set_it (it : nat) (c : K) (s : t K) : t K :=
  Build (<[it := c]> (cells s)).

(** [begin() .. end()] *)
Definition elements `{IterationOrder K} (s : t K) : list K :=
  iteration_order (cells s).

(** [merge(rhs)]: "union other's elements into state (insert each;
    duplicates no-op)". *)
Definition merge `{IterationOrder K} (rhs : t K) (s : t K) : t K :=
  foldl (λ acc x, insert x acc) s (elements rhs).

(** [read(buf)]: "read count, then read that many fixed-width elements,
    inserting each"; [read_cell] reads one element. *)
Fixpoint read_cells (read_cell : IO.ReadBuffer → result (K * IO.ReadBuffer))
    (n : nat) (s : t K) (buf : IO.ReadBuffer) : result (t K * IO.ReadBuffer) :=
  match n with
  | O => Ok (s, buf)
  | S n' =>
      '(x, buf') ← read_cell buf;
      read_cells read_cell n' (insert x s) buf'
  end.

Definition read (read_cell : IO.ReadBuffer → result (K * IO.ReadBuffer))
    (s : t K) (buf : IO.ReadBuffer) : result (t K * IO.ReadBuffer) :=
  '(new_size, buf') ← IO.readVarUInt buf;
  read_cells read_cell (Z.to_nat new_size) s buf'.

End ops.
End HashSet.

(** ** Memory, [StringRef] and [Arena] *)

(** Memory is a collection of separately allocated byte regions (an arena, a
    column's buffer); a [const char *] is a region and an offset into it. *)
Abbreviation Region := nat.

Record Ptr : Type := { region : Region; offset : nat }.

Abbreviation Memory := (gmap Region (list byte)).

Definition bytes_from (m : Memory) (p : Ptr) : list byte :=
  drop (offset p) (m !!! region p).

Definition load (m : Memory) (p : Ptr) (n : nat) : list byte :=
  take n (bytes_from m p).

(** [StringRef]: a pointer and a length, no ownership. *)
Record StringRef : Type := { data : Ptr; size : nat }.

Definition bytes_at (m : Memory) (s : StringRef) : list byte :=
  load m (data s) (size s).

(** [operator==] on [StringRef]: same length and same bytes. *)
Definition StringRef_eqb (m : Memory) (a b : StringRef) : bool :=
  bool_decide (size a = size b) && bool_decide (bytes_at m a = bytes_at m b).

Module Arena.

(** Modelled from the spec: [Arena] (Arena.h is not part of the sources at
    hand).  "An append-only byte pool.  [insert(bytes)] copies bytes in and
    returns a stable pointer...  [rollback(size)] reclaims space only if it
    was the most recent allocation (bump-pointer semantics)."  An arena is
    a region of memory that grows at its end. *)
Definition used (a : Region) (m : Memory) : nat := length (m !!! a).

(** [alloc(size)] followed by the copy of [bytes] into the new space. *)
Definition insert (a : Region) (bytes : list byte) (m : Memory) : Memory * Ptr :=
  (<[a := m !!! a ++ bytes]> m, {| region := a; offset := used a m |}).

Definition rollback (a : Region) (n : nat) (m : Memory) : Memory :=
  <[a := take (used a m - n) (m !!! a)]> m.

(** [*arena] and [arena->] for an [Arena * arena] that may be null. *)
Definition deref (arena : option Region) : result Region :=
  match arena with
  | Some a => Ok a
  | None => Fail NullArenaDereference
  end.

End Arena.

(** Modelled from the spec: [readStringBinaryInto(arena, buf)] (ReadHelpers.h
    is not part of the sources at hand): a length-prefixed byte string is
    read and copied into the arena. *)
Definition readStringBinaryInto (a : Region) (buf : IO.ReadBuffer) (m : Memory)
  : result (StringRef * IO.ReadBuffer * Memory) :=
  '(sz, buf1) ← IO.readVarUInt buf;
  '(bytes, buf2) ← IO.readStrict (Z.to_nat sz) buf1;
  let '(m', p) := Arena.insert a bytes m in
  Ok ({| data := p; size := Z.to_nat sz |}, buf2, m').

(** ** Columns *)

(** [ColumnArray]: cumulative offsets, one per array, and the flat nested
    column of the elements ([getOffsets()], [getData()]). *)
Record ColumnArray (V : Type) : Type :=
  { offsets : list Z; nested : list V }.
Arguments offsets {V} _.
Arguments nested {V} _.

(** [offsets_to.size() == 0 ? 0 : offsets_to.back()] *)
Definition back_or_zero (offsets_to : list Z) : Z :=
  if (length offsets_to =? 0)%nat then 0 else default 0 (last offsets_to).

(** Modelled from the spec: the part of [IColumn] the generic aggregator
    calls (IColumn.h is not part of the sources at hand): "get_raw_bytes(row)
    -> (ptr,len) (plain path), serialize_row_into_arena(row, arena) ->
    (ptr,len), append_raw_bytes(ptr,len), append_from_serialized(ptr)".  A
    column of values of type [V]:
    - [raw_bytes v], the bytes of [v] in the column's contiguous buffer;
    - [serialized_bytes v], what [serializeValueIntoArena] writes for [v];
    - [from_raw bs], the value [insertData(ptr, size)] appends;
    - [from_serialized bs], the value [deserializeAndInsertFromArena(ptr)]
      appends, reading from [ptr] on. *)
Class IColumn (V : Type) : Type := {
  raw_bytes : V → list byte;
  serialized_bytes : V → list byte;
  from_raw : list byte → V;
  from_serialized : list byte → V;
}.

(** The two encodings can be decoded: the contract between the writing and
    the reading half of a column. *)
Class IColumnLaws (V : Type) `{IColumn V} : Prop := {
  from_raw_bytes : ∀ v, from_raw (raw_bytes v) = v;
  from_serialized_bytes : ∀ v rest, from_serialized (serialized_bytes v ++ rest) = v;
}.

(** A column in memory: its rows and the region of its buffer. *)
Record Column (V : Type) : Type := { buffer : Region; rows : list V }.
Arguments buffer {V} _.
Arguments rows {V} _.

Section column.
Context {V : Type} `{IColumn V}.

Definition buffer_bytes (c : Column V) : list byte :=
  concat (raw_bytes <$> rows c).

(** The buffer of the column is in memory. *)
Definition column_stored (m : Memory) (c : Column V) : Prop :=
  m !! buffer c = Some (buffer_bytes c).

(** [getDataAt(row_num)]: a view into the column's buffer. *)
Definition getDataAt (c : Column V) (row_num : nat) : result StringRef :=
  match rows c !! row_num with
  | Some v =>
      Ok {| data := {| region := buffer c;
                       offset := length (concat (raw_bytes <$> take row_num (rows c))) |};
            size := length (raw_bytes v) |}
  | None => Fail RowOutOfRange
  end.

(** [serializeValueIntoArena(row_num, arena, begin)] with [begin = nullptr]. *)
Definition serializeValueIntoArena (c : Column V) (row_num : nat) (a : Region)
    (m : Memory) : result (StringRef * Memory) :=
  match rows c !! row_num with
  | Some v =>
      let '(m', p) := Arena.insert a (serialized_bytes v) m in
      Ok ({| data := p; size := length (serialized_bytes v) |}, m')
  | None => Fail RowOutOfRange
  end.

(** [insertData(pos, length)] *)
Definition insertData (m : Memory) (pos : Ptr) (len : nat) (data_to : list V) : list V :=
  data_to ++ [from_raw (load m pos len)].

(** [deserializeAndInsertFromArena(pos)] *)
Definition deserializeAndInsertFromArena (m : Memory) (pos : Ptr) (data_to : list V)
  : list V :=
  data_to ++ [from_serialized (bytes_from m pos)].

End column.

(** ** The numeric type [T] of the fixed-width aggregator *)

(** [operator==] of [T].  The header is "implemented for numeric types":
    a value of [T] is represented by the unsigned reading of its
    [sizeof(T)] bytes, and the keys of the set are compared with [T]'s own
    [==].  For the integer types that is identity of the values; for the
    floating-point types it is the IEEE 754 comparison, which is not. *)
Class OperatorEq (T : Type) := operator_eq : T → T → bool.

(** [==] of the integer types [UInt8] .. [UInt64], [Int8] .. [Int64]. *)
Definition integer_eq : OperatorEq Z := Z.eqb.

(** The bit patterns of [Float64]: sign in bit 63, exponent in bits 52..62,
    mantissa in bits 0..51.  A NaN has every exponent bit set and a mantissa
    other than zero; the two zeros have every bit but the sign clear. *)
Definition Float64_isnan (x : Z) : bool :=
  (Z.land x 0x7FF0000000000000 =? 0x7FF0000000000000)
  && negb (Z.land x 0x000FFFFFFFFFFFFF =? 0).

Definition Float64_iszero (x : Z) : bool :=
  Z.land x 0x7FFFFFFFFFFFFFFF =? 0.

(** [==] of [Float64]: a NaN is equal to nothing, itself included; the two
    zeros are equal; any other two values are equal when their bits are. *)
Definition float64_eq : OperatorEq Z := λ x y,
  if Float64_isnan x || Float64_isnan y then false
  else if Float64_iszero x && Float64_iszero y then true
  else x =? y.

(** ** [AggregateFunctionGroupUniqArray<T>]: the fixed-width aggregator *)

Module GroupUniqArray.
Section fixed_width.
(** [sizeofT] is [sizeof(T)]; a value of [T] is the unsigned reading of
    its [sizeofT] bytes, [T_eq] is its [operator==]. *)
Context (sizeofT : nat) {T_eq : OperatorEq Z} {order : IterationOrder Z}.

Definition T_range (x : Z) : Prop := 0 ≤ x < 2 ^ (8 * Z.of_nat sizeofT).

(** [AggregateFunctionGroupUniqArrayData<T>] *)
Record State : Type := { value : HashSet.t Z }.

(** A state as [create] leaves it. *)
Definition create : State := {| value := HashSet.empty |}.

(** [ColumnVector<T>::getData()] *)
Abbreviation ColumnVector := (list Z).

Definition addImpl (place : State) (column : ColumnVector) (row_num : nat)
  : result State :=
  match column !! row_num with
  | Some x => Ok {| value := HashSet.insert operator_eq x (value place) |}
  | None => Fail RowOutOfRange
  end.

Definition merge (place rhs : State) : State :=
  {| value := HashSet.merge operator_eq (value rhs) (value place) |}.

Definition serialize (place : State) (buf : IO.WriteBuffer) : IO.WriteBuffer :=
  let set := value place in
  let size := HashSet.size set in
  foldl (λ buf elem, IO.writeIntBinary sizeofT elem buf)
        (IO.writeVarUInt size buf) (HashSet.elements set).

Definition deserialize (place : State) (buf : IO.ReadBuffer)
  : result (State * IO.ReadBuffer) :=
  '(set, buf') ←
    HashSet.read operator_eq (IO.readIntBinary sizeofT) (value place) buf;
  Ok ({| value := set |}, buf').

Definition insertResultInto (place : State) (to : ColumnArray Z) : ColumnArray Z :=
  let offsets_to := offsets to in
  let set := value place in
  let size := HashSet.size set in
  let offsets_to' := offsets_to ++ [wrap64 (back_or_zero offsets_to + size)] in
  let data_to := nested to in
  let old_size := length data_to in
  let data_to' := resize (Z.to_nat (wrap64 (Z.of_nat old_size + size))) 0 data_to in
  let filled :=
    foldl (λ '(d, i) elem, (<[(old_size + i)%nat := elem]> d, S i))
          (data_to', O) (HashSet.elements set) in
  {| offsets := offsets_to'; nested := filled.1 |}.

(** The driver's loop over the rows of a block: [add] for each row in
    order. *)
Fixpoint add_rows (place : State) (column : ColumnVector) (row_nums : list nat)
  : result State :=
  match row_nums with
  | [] => Ok place
  | row_num :: rest =>
      place' ← addImpl place column row_num;
      add_rows place' column rest
  end.

Definition add_each (place : State) (column : ColumnVector) : result State :=
  add_rows place column (seq 0 (length column)).

(** The values a state finalizes to: what [insertResultInto] leaves in an
    empty array column. *)
Definition finalize (place : State) : list Z :=
  nested (insertResultInto place {| offsets := []; nested := [] |}).

End fixed_width.
End GroupUniqArray.

(** ** [AggreagteFunctionGroupUniqArrayGeneric<is_plain_column>] *)

Module GroupUniqArrayGeneric.
Section generic.
Context (is_plain_column : bool).
Context {V : Type} `{IColumn V} `{IterationOrder StringRef}.

(** [AggreagteFunctionGroupUniqArrayGenericData] *)
Record State : Type := { value : HashSet.t StringRef }.

Definition create : State := {| value := HashSet.empty |}.

Definition allocatesMemoryInArena : bool := true.

(** The two specialisations of [getSerialization]. *)
Definition getSerialization (column : Column V) (row_num : nat) (arena : Region)
    (m : Memory) : result (StringRef * Memory) :=
  if is_plain_column
  then str ← getDataAt column row_num; Ok (str, m)
  else serializeValueIntoArena column row_num arena m.

(** The two specialisations of [deserializeAndInsert]. *)
Definition deserializeAndInsert (m : Memory) (str : StringRef) (data_to : list V)
  : list V :=
  if is_plain_column
  then insertData m (data str) (size str) data_to
  else deserializeAndInsertFromArena m (data str) data_to.

(** [it->data = p] on a cell of the set. *)
Definition set_data (it : nat) (p : Ptr) (set : HashSet.t StringRef)
  : HashSet.t StringRef :=
  match HashSet.at_it it set with
  | Some c => HashSet.set_it it {| data := p; size := size c |} set
  | None => set
  end.

Definition serialize (place : State) (m : Memory) (buf : IO.WriteBuffer)
  : IO.WriteBuffer :=
  let set := value place in
  foldl (λ buf elem, IO.writeStringBinary (bytes_at m elem) buf)
        (IO.writeVarUInt (HashSet.size set) buf) (HashSet.elements set).

Fixpoint deserialize_loop (n : nat) (set : HashSet.t StringRef) (buf : IO.ReadBuffer)
    (arena : option Region) (m : Memory)
  : result (HashSet.t StringRef * IO.ReadBuffer * Memory) :=
  match n with
  | O => Ok (set, buf, m)
  | S n' =>
      a ← Arena.deref arena;
      '(str, buf', m') ← readStringBinaryInto a buf m;
      deserialize_loop n' (HashSet.insert (StringRef_eqb m') str set) buf' arena m'
  end.

Definition deserialize (place : State) (buf : IO.ReadBuffer) (arena : option Region)
    (m : Memory) : result (State * IO.ReadBuffer * Memory) :=
  '(size, buf') ← IO.readVarUInt buf;
  '(set, buf'', m') ← deserialize_loop (Z.to_nat size) (value place) buf' arena m;
  Ok ({| value := set |}, buf'', m').

Definition addImpl (place : State) (column : Column V) (row_num : nat)
    (arena : option Region) (m : Memory) : result (State * Memory) :=
  let set := value place in
  a ← Arena.deref arena;
  '(str_serialized, m1) ← getSerialization column row_num a m;
  let '(set', it, inserted) :=
    HashSet.emplace (StringRef_eqb m1) str_serialized set in
  if negb is_plain_column
  then
    if negb inserted
    then Ok ({| value := set' |}, Arena.rollback a (size str_serialized) m1)
    else Ok ({| value := set' |}, m1)
  else
    if inserted
    then
      let '(m2, p) :=
        Arena.insert a (load m1 (data str_serialized) (size str_serialized)) m1 in
      Ok ({| value := set_data it p set' |}, m2)
    else Ok ({| value := set' |}, m1).

Fixpoint merge_loop (rhs_elems : list StringRef) (cur_set : HashSet.t StringRef)
    (arena : option Region) (m : Memory) : result (HashSet.t StringRef * Memory) :=
  match rhs_elems with
  | [] => Ok (cur_set, m)
  | rhs_elem :: rest =>
      let '(set', it, inserted) :=
        HashSet.emplace (StringRef_eqb m) rhs_elem cur_set in
      if inserted
      then
        a ← Arena.deref arena;
        let c := default rhs_elem (HashSet.at_it it set') in
        let '(m', p) := Arena.insert a (load m (data c) (size c)) m in
        merge_loop rest (set_data it p set') arena m'
      else merge_loop rest set' arena m
  end.

Definition merge (place rhs : State) (arena : option Region) (m : Memory)
  : result (State * Memory) :=
  '(set, m') ← merge_loop (HashSet.elements (value rhs)) (value place) arena m;
  Ok ({| value := set |}, m').

Definition insertResultInto (place : State) (m : Memory) (to : ColumnArray V)
  : ColumnArray V :=
  let offsets_to := offsets to in
  let data_to := nested to in
  let set := value place in
  let offsets_to' :=
    offsets_to ++ [wrap64 (back_or_zero offsets_to + HashSet.size set)] in
  {| offsets := offsets_to';
     nested := foldl (λ data_to elem, deserializeAndInsert m elem data_to)
                     data_to (HashSet.elements set) |}.

(** The driver's loop over the rows of a block. *)
Fixpoint add_rows (place : State) (column : Column V) (row_nums : list nat)
    (arena : option Region) (m : Memory) : result (State * Memory) :=
  match row_nums with
  | [] => Ok (place, m)
  | row_num :: rest =>
      '(place', m') ← addImpl place column row_num arena m;
      add_rows place' column rest arena m'
  end.

Definition add_each (place : State) (column : Column V) (arena : option Region)
    (m : Memory) : result (State * Memory) :=
  add_rows place column (seq 0 (length (rows column))) arena m.

(** The values a state finalizes to. *)
Definition finalize (place : State) (m : Memory) : list V :=
  nested (insertResultInto place m {| offsets := []; nested := [] |}).

(** The keys of a state, as bytes, in the order of their insertion. *)
Definition keys (place : State) (m : Memory) : list (list byte) :=
  bytes_at m <$> HashSet.cells (value place).

End generic.
End GroupUniqArrayGeneric.

(** ** [COWPtr<Derived>] and [COWPtrHelper<Base, Derived>] *)

Module COWPtr.
Section cow.
(** [Derived]: the data members of the managed class. *)
Context {Derived : Type}.

(** An object on the heap: its members and the counter it inherits from
    [boost::intrusive_ref_counter<Derived>]. *)
Record Object : Type := { members : Derived; ref_counter : nat }.

Abbreviation Addr := nat.

(** [Ptr] and [MutablePtr] are [boost::intrusive_ptr]s: the address of
    the object; each live handle accounts for one unit of the counter. *)
Abbreviation Ptr := Addr.
Abbreviation MutablePtr := Addr.

Definition use_count (h : gmap Addr Object) (this : Addr) : nat :=
  match h !! this with
  | Some o => ref_counter o
  | None => O
  end.

(** [intrusive_ptr_add_ref], run when an [intrusive_ptr] is made from a
    raw pointer. *)
Definition add_ref (this : Addr) (h : gmap Addr Object) : gmap Addr Object :=
  alter (λ o, {| members := members o; ref_counter := S (ref_counter o) |}) this h.

(** [new Derived(...)]: a fresh address; a new counter starts at 0, also
    in the copy constructor of [intrusive_ref_counter]. *)
Definition new (v : Derived) (h : gmap Addr Object) : gmap Addr Object * Addr :=
  let a := fresh (dom h) in
  (<[a := {| members := v; ref_counter := O |}]> h, a).

(** [create(args...)]: [return new Derived(args...)], converted to
    [MutablePtr]. *)
Definition create (v : Derived) (h : gmap Addr Object)
  : gmap Addr Object * MutablePtr :=
  let '(h', a) := new v h in (add_ref a h', a).

(** [COWPtrHelper::clone]: a [new Derived] copy-constructed from this object;
    the copy constructor copies the members. *)
Definition clone (this : Addr) (h : gmap Addr Object)
  : option (gmap Addr Object * MutablePtr) :=
  o ← h !! this;
  let '(h', a) := new (members o) h in
  Some (add_ref a h', a).

(** [getPtr()] on a non-const object: [static_cast<MutablePtr>(derived())]. *)
Definition getPtr (this : Addr) (h : gmap Addr Object)
  : gmap Addr Object * MutablePtr :=
  (add_ref this h, this).

Definition assumeMutable (this : Addr) (h : gmap Addr Object)
  : gmap Addr Object * MutablePtr :=
  getPtr this h.

Definition mutate (this : Addr) (h : gmap Addr Object)
  : option (gmap Addr Object * MutablePtr) :=
  if (1 <? use_count h this)%nat
  then clone this h
  else Some (assumeMutable this h).

(** A write to the members through a mutable handle. *)
Definition write (p : MutablePtr) (v : Derived) (h : gmap Addr Object)
  : gmap Addr Object :=
  alter (λ o, {| members := v; ref_counter := ref_counter o |}) p h.

(** What a handle sees. *)
Definition read (p : Addr) (h : gmap Addr Object) : option Derived :=
  members <$> h !! p.

End cow.
Arguments Object Derived : clear implicits.
End COWPtr.

(** ** Handles of [COWPtr]: copies, moves and destruction *)

Module COWHandles.
Section handles.
Context {Derived : Type}.

(** [immutable_ptr(const boost::intrusive_ptr<const U> & other)]: the copy
    of an immutable handle is a handle to the same object and counts for one
    more reference. *)
Definition copy (p : nat) (h : gmap nat (COWPtr.Object Derived))
  : gmap nat (COWPtr.Object Derived) * nat :=
  (COWPtr.add_ref p h, p).

(** [immutable_ptr(boost::intrusive_ptr<U> && other)] and the move
    constructor of [mutable_ptr]: the reference changes hands, the counter
    is not touched. *)
Definition move (p : nat) (h : gmap nat (COWPtr.Object Derived))
  : gmap nat (COWPtr.Object Derived) * nat :=
  (h, p).

(** The destructor of a handle, [intrusive_ptr_release] of
    [boost::intrusive_ref_counter]: the counter is decremented and the
    object deleted when it reaches zero. *)
Definition release (p : nat) (h : gmap nat (COWPtr.Object Derived))
  : gmap nat (COWPtr.Object Derived) :=
  match h !! p with
  | Some o =>
      if (COWPtr.ref_counter o <=? 1)%nat
      then delete p h
      else <[p := {| COWPtr.members := COWPtr.members o;
                     COWPtr.ref_counter := pred (COWPtr.ref_counter o) |}]> h
  | None => h
  end.

(** Move assignment [x = std::move(src)]: what [x] referenced is released
    and [x] takes over the reference of [src]. *)
Definition move_assign (x : option nat) (src : nat) (h : gmap nat (COWPtr.Object Derived))
  : gmap nat (COWPtr.Object Derived) * nat :=
  (match x with Some old => release old h | None => h end, src).

(** The example of the header's comment, for two values [v1] and [v2]:
    [x = create(v1); y = x; mutate_x = x->mutate(); mutate_x->set(v2);
    x = std::move(mutate_x)].  The result is the heap and the handles [x]
    and [y]. *)
Definition usage_example (v1 v2 : Derived) (h : gmap nat (COWPtr.Object Derived))
  : option (gmap nat (COWPtr.Object Derived) * nat * nat) :=
  let '(h0, created) := COWPtr.create v1 h in
  let '(h1, x) := move created h0 in
  let '(h2, y) := copy x h1 in
  '(h3, mutate_x) ← COWPtr.mutate x h2;
  let h4 := COWPtr.write mutate_x v2 h3 in
  let '(h5, x') := move_assign (Some x) mutate_x h4 in
  Some (h5, x', y).

(** The number of handles in [handles] that reference [a]. *)
Definition references (a : nat) (handles : list nat) : nat :=
  length (filter (λ p, p = a) handles).

(** The counters agree with the live handles: every object is referenced
    by as many handles as its counter says, by at least one, and no handle
    references a deleted object. *)
Definition counted (h : gmap nat (COWPtr.Object Derived)) (handles : list nat) : Prop :=
  ∀ a, match h !! a with
       | Some o => COWPtr.ref_counter o = references a handles
                   ∧ (0 < COWPtr.ref_counter o)%nat
       | None => a ∉ handles
       end.

End handles.
End COWHandles.

(** ** Instances used to run the model *)

(** Two iteration orders: oldest cell first, and newest cell first. *)
Definition insertion_order (K : Type) : IterationOrder K := λ l, l.
Definition reverse_order (K : Type) : IterationOrder K := λ l, reverse l.

(** A column of byte strings.  The raw bytes of a row are the string itself;
    the serialization of a row is self-delimiting: every byte is preceded by
    [x01] and the row is closed by [x00]. *)
Fixpoint framed_decode (bs : list byte) : list byte :=
  match bs with
  | x01 :: b :: rest => b :: framed_decode rest
  | _ => []
  end.

Definition framed_column : IColumn (list byte) := {|
  raw_bytes := λ v, v;
  serialized_bytes := λ v, flat_map (λ b, [x01; b]) v ++ [x00];
  from_raw := λ bs, bs;
  from_serialized := framed_decode;
|}.


(** Example states of the two aggregators.  The generic ones live in a
    memory of three arenas (regions 1, 2 and 3) and hold one-byte keys. *)
Definition example_fixed_A : GroupUniqArray.State :=
  {| GroupUniqArray.value := HashSet.Build [1; 2; 3] |}.
Definition example_fixed_B : GroupUniqArray.State :=
  {| GroupUniqArray.value := HashSet.Build [3; 4] |}.

Definition example_memory : Memory :=
  {[ 1%nat := ["a"%byte; "b"%byte];
     2%nat := ["b"%byte; "c"%byte];
     3%nat := ["c"%byte; "d"%byte] ]}.

Definition example_key (r : Region) (off : nat) : StringRef :=
  {| data := {| region := r; offset := off |}; size := 1 |}.

Definition example_generic_A : GroupUniqArrayGeneric.State :=
  {| GroupUniqArrayGeneric.value :=
       HashSet.Build [example_key 1 0; example_key 1 1] |}.
Definition example_generic_B : GroupUniqArrayGeneric.State :=
  {| GroupUniqArrayGeneric.value :=
       HashSet.Build [example_key 2 0; example_key 2 1] |}.

(** ** Vocabulary of the statements *)

(** The distinct values of a sequence, each at its first occurrence. *)
Section distinct.
Context {A : Type} `{EqDecision A}.

Definition uniq_insert (x : A) (l : list A) : list A :=
  if decide (x ∈ l) then l else l ++ [x].

Definition uniq_inserts (l xs : list A) : list A :=
  foldl (λ acc x, uniq_insert x acc) l xs.

Definition distinct (xs : list A) : list A := uniq_inserts [] xs.
End distinct.

(** Two sequences with the same elements. *)
Definition same_elements {A : Type} (l1 l2 : list A) : Prop :=
  ∀ x, x ∈ l1 ↔ x ∈ l2.

(** A [StringRef] lies inside its region. *)
Definition valid (m : Memory) (s : StringRef) : Prop :=
  (offset (data s) + size s ≤ length (m !!! region (data s)))%nat.

(** Memory [m'] is [m] with bytes added at the end of some regions: what was
    allocated keeps its address and its contents. *)
Definition mem_le (m m' : Memory) : Prop :=
  ∀ r, ∃ added, m' !!! r = m !!! r ++ added.

(** A length-prefixed byte string. *)
Definition length_prefixed (s : list byte) : list byte :=
  IO.writeVarUInt (Z.of_nat (length s)) [] ++ s.

(** No two cells of a set hold equal keys, for the equality the set
    compares its keys with. *)
Fixpoint unequal_cells {K : Type} (eqb : K → K → bool) (l : list K) : Prop :=
  match l with
  | [] => True
  | x :: rest =>
      Forall (λ c, eqb x c = false ∧ eqb c x = false) rest
      ∧ unequal_cells eqb rest
  end.

(** [operator==] tells the values of [l] apart exactly as identity does.
    It does for every list of integers; for [Float64] it does as long as
    [l] holds no NaN and not both zeros. *)
Definition eq_is_identity_on `{OperatorEq Z} (l : list Z) : Prop :=
  ∀ a b, a ∈ l → b ∈ l → operator_eq a b = true ↔ a = b.

(** Invariants of the states of the fixed-width aggregator: no two cells
    hold equal values, every value a [T], fewer than 2^64 of them. *)
Definition fixed_wf (sizeofT : nat) `{OperatorEq Z}
    (place : GroupUniqArray.State) : Prop :=
  unequal_cells operator_eq (HashSet.cells (GroupUniqArray.value place))
  ∧ Forall (GroupUniqArray.T_range sizeofT) (HashSet.cells (GroupUniqArray.value place))
  ∧ Z.of_nat (length (HashSet.cells (GroupUniqArray.value place))) < UInt64_MAX1.

Section generic_vocabulary.
Context (is_plain_column : bool) {V : Type} `{IColumn V}.

(** The key of a value: its raw bytes on the plain path, its serialization
    otherwise. *)
Definition key_bytes (v : V) : list byte :=
  if is_plain_column then raw_bytes v else serialized_bytes v.

(** What the plain path needs of the column: its buffer is in memory and
    is not the arena. *)
Definition column_ready (m : Memory) (column : Column V) (a : Region) : Prop :=
  is_plain_column = true → column_stored m column ∧ buffer column ≠ a.

(** The value [deserializeAndInsert] appends for a key. *)
Definition decode_key (m : Memory) (k : StringRef) : V :=
  if is_plain_column
  then from_raw (load m (data k) (size k))
  else from_serialized (bytes_from m (data k)).

(** Invariants of the states of the generic aggregator in memory [m]: the
    keys lie in memory, no key twice (as bytes), sizes fit a [size_t]. *)
Definition generic_wf (m : Memory) (place : GroupUniqArrayGeneric.State) : Prop :=
  Forall (valid m) (HashSet.cells (GroupUniqArrayGeneric.value place))
  ∧ NoDup (GroupUniqArrayGeneric.keys place m)
  ∧ Forall (λ k, Z.of_nat (size k) < UInt64_MAX1)
           (HashSet.cells (GroupUniqArrayGeneric.value place))
  ∧ Z.of_nat (length (HashSet.cells (GroupUniqArrayGeneric.value place))) < UInt64_MAX1.

(** The state [place] holds, in memory [m], the keys of the distinct
    values [vs]. *)
Definition holds (m : Memory) (place : GroupUniqArrayGeneric.State) (vs : list V)
  : Prop :=
  Forall (valid m) (HashSet.cells (GroupUniqArrayGeneric.value place))
  ∧ GroupUniqArrayGeneric.keys place m = key_bytes <$> vs
  ∧ NoDup vs.
End generic_vocabulary.

(** The formats, in the words of their description.  A base-128 varint: the
    low seven bits of every byte are a digit, least significant digit first,
    and exactly the bytes before the last have their high bit set.
    Little-endian: the bytes are the base-256 digits, least significant
    first. *)
Definition base128_value (bs : list byte) : Z :=
  foldr (λ b acc, Z_of_byte b mod 128 + 128 * acc) 0 bs.

Definition base128_framed (bs : list byte) : Prop :=
  ∃ body last,
    bs = body ++ [last]
    ∧ Forall (λ b, 128 ≤ Z_of_byte b) body
    ∧ Z_of_byte last < 128.

Definition little_endian_value (bs : list byte) : Z :=
  foldr (λ b acc, Z_of_byte b + 256 * acc) 0 bs.

(** The cells of [set'] are those of [set], unchanged and in place, followed
    by cells whose keys lie in the region [a]. *)
Definition extends_in (a : Region) (set set' : HashSet.t StringRef) : Prop :=
  ∃ new_cells,
    HashSet.cells set' = HashSet.cells set ++ new_cells
    ∧ Forall (λ k, region (data k) = a) new_cells.

(** * Facts *)

(** ** Bytes and the read and write helpers *)

Lemma Z_of_byte_range (b : byte) : 0 ≤ Z_of_byte b < 256.
Proof.
  unfold Z_of_byte. pose proof (Byte.to_N_bounded b). lia.
Qed.

Lemma Z_of_byte_of_Z (z : Z) : Z_of_byte (byte_of_Z z) = z mod 256.
Proof.
  unfold Z_of_byte, byte_of_Z.
  pose proof (Z.mod_pos_bound z 256 ltac:(lia)) as Hr.
  destruct (Byte.of_N (Z.to_N (z mod 256))) as [b|] eqn:E.
  - apply Byte.to_of_N in E. rewrite E. lia.
  - apply Byte.of_N_None_iff in E. lia.
Qed.

Lemma byte_of_Z_of_byte (b : byte) : byte_of_Z (Z_of_byte b) = b.
Proof.
  unfold byte_of_Z. pose proof (Z_of_byte_range b) as Hr.
  rewrite Z.mod_small by lia. unfold Z_of_byte. rewrite N2Z.id.
  by rewrite Byte.of_to_N.
Qed.

Lemma wrap64_small (z : Z) : 0 ≤ z < UInt64_MAX1 → wrap64 z = z.
Proof. intros. unfold wrap64. by apply Z.mod_small. Qed.

Lemma wrap64_range (z : Z) : 0 ≤ wrap64 z < UInt64_MAX1.
Proof. unfold wrap64, UInt64_MAX1. apply Z.mod_pos_bound. lia. Qed.

Lemma land_0x7F (x : Z) : Z.land x 0x7F = x mod 128.
Proof. change 0x7F with (Z.ones 7). by rewrite Z.land_ones. Qed.

Lemma land_0xFF (x : Z) : Z.land x 0xFF = x mod 256.
Proof. change 0xFF with (Z.ones 8). by rewrite Z.land_ones. Qed.

Lemma lor_0x80 (x : Z) : 0 ≤ x < 128 → Z.lor x 0x80 = x + 128.
Proof.
  intros Hx.
  assert (Hland : Z.land x 0x80 = 0).
  { apply Z.bits_inj'. intros n Hn. rewrite Z.land_spec, Z.bits_0.
    change 0x80 with (2 ^ 7).
    destruct (decide (n = 7)) as [-> | Hne].
    - rewrite (Z.testbit_eqb x 7) by lia. change (2 ^ 7) with 128.
      rewrite Z.div_small by lia. reflexivity.
    - rewrite Z.pow2_bits_false by lia. apply andb_false_r. }
  rewrite <- Z.lxor_lor by done. symmetry. by apply Z.add_nocarry_lxor.
Qed.

Lemma shiftl_groups (x s : Z) :
  0 ≤ x → 0 ≤ s →
  Z.lor (Z.shiftl (x mod 128) s) (Z.shiftl (x / 128) (s + 7)) = Z.shiftl x s.
Proof.
  intros Hx Hs. rewrite <- land_0x7F. change 0x7F with (Z.ones 7).
  change 128 with (2 ^ 7). rewrite <- Z.shiftr_div_pow2 by lia.
  apply Z.bits_inj'. intros i Hi.
  rewrite Z.lor_spec, !Z.shiftl_spec by lia.
  destruct (decide (i < s)) as [Hlt | Hge].
  { rewrite !Z.testbit_neg_r by lia. done. }
  destruct (decide (i - s < 7)) as [Hlo | Hhi].
  - rewrite Z.land_spec, Z.ones_spec_low by lia.
    rewrite (Z.testbit_neg_r _ (i - (s + 7))) by lia.
    by rewrite andb_true_r, orb_false_r.
  - rewrite Z.land_spec, Z.ones_spec_high by lia.
    rewrite Z.shiftr_spec by lia. rewrite andb_false_r. simpl.
    f_equal. lia.
Qed.

Lemma testbit7_high (x : Z) : 0 ≤ x < 128 → Z.testbit (x + 128) 7 = true.
Proof.
  intros Hx. rewrite Z.testbit_eqb by lia. change (2 ^ 7) with 128.
  replace ((x + 128) / 128) with 1; [done |].
  apply Z.div_unique with x; lia.
Qed.

Lemma testbit7_low (x : Z) : 0 ≤ x < 128 → Z.testbit x 7 = false.
Proof.
  intros Hx. rewrite Z.testbit_eqb by lia. change (2 ^ 7) with 128.
  by rewrite Z.div_small by lia.
Qed.

(** One unfolding of the writing loop, in arithmetic. *)
Lemma writeVarUInt_loop_S (n : nat) (x : Z) :
  0 ≤ x →
  IO.writeVarUInt_loop (S n) x =
    if 127 <? x
    then byte_of_Z (x mod 128 + 128) :: IO.writeVarUInt_loop n (x / 128)
    else [byte_of_Z x].
Proof.
  intros Hx. simpl. rewrite land_0x7F.
  pose proof (Z.mod_pos_bound x 128 ltac:(lia)) as Hm.
  rewrite lor_0x80 by done.
  rewrite (Z.shiftr_div_pow2 x 7) by lia. change (2 ^ 7) with 128.
  destruct (127 <? x) eqn:E; [done |].
  apply Z.ltb_ge in E. by rewrite Z.mod_small by lia.
Qed.

Lemma readVarUInt_loop_cons (n : nat) (shift acc : Z) (b : byte) (rest : list byte) :
  IO.readVarUInt_loop (S n) shift acc (b :: rest) =
    let acc' := Z.lor acc (Z.shiftl (Z.land (Z_of_byte b) 0x7F) shift) in
    if Z.testbit (Z_of_byte b) 7
    then IO.readVarUInt_loop n (shift + 7) acc' rest
    else Ok (acc', rest).
Proof. reflexivity. Qed.

Lemma readVarUInt_loop_write (n : nat) :
  ∀ x shift acc rest,
    0 ≤ x < 128 ^ Z.of_nat (S n) → 0 ≤ shift →
    IO.readVarUInt_loop (S n) shift acc (IO.writeVarUInt_loop (S n) x ++ rest)
    = Ok (Z.lor acc (Z.shiftl x shift), rest).
Proof.
  induction n as [| n IH]; intros x shift acc rest Hx Hs;
    rewrite writeVarUInt_loop_S by lia;
    pose proof (Z.mod_pos_bound x 128 ltac:(lia)) as Hm;
    destruct (127 <? x) eqn:E.
  1: { apply Z.ltb_lt in E. change (128 ^ Z.of_nat 1) with 128 in Hx. lia. }
  2: { apply Z.ltb_lt in E. rewrite <- app_comm_cons, readVarUInt_loop_cons. cbv zeta.
       rewrite Z_of_byte_of_Z, (Z.mod_small (x mod 128 + 128)) by lia.
       rewrite testbit7_high by done.
       rewrite land_0x7F.
       replace ((x mod 128 + 128) mod 128) with (x mod 128)
         by (apply (Z.mod_unique _ _ 1); lia).
       rewrite IH; [| | lia].
       - by rewrite <- Z.lor_assoc, shiftl_groups by lia.
       - rewrite (Nat2Z.inj_succ (S n)), Z.pow_succ_r in Hx by lia.
         split; [apply Z.div_pos; lia |].
         apply Z.div_lt_upper_bound; lia. }
  all: apply Z.ltb_ge in E; rewrite <- app_comm_cons, readVarUInt_loop_cons; cbv zeta;
    rewrite Z_of_byte_of_Z, (Z.mod_small x 256) by lia;
    rewrite testbit7_low by lia;
    by rewrite land_0x7F, Z.mod_small by lia.
Qed.

Lemma UInt64_ten_groups : UInt64_MAX1 ≤ 128 ^ Z.of_nat 10.
Proof. by vm_compute. Qed.

Lemma readVarUInt_writeVarUInt (x : Z) (rest : IO.ReadBuffer) :
  0 ≤ x < UInt64_MAX1 →
  IO.readVarUInt (IO.writeVarUInt x [] ++ rest) = Ok (x, rest).
Proof.
  intros Hx. unfold IO.readVarUInt, IO.writeVarUInt. rewrite app_nil_l.
  rewrite (wrap64_small x) by done.
  rewrite (readVarUInt_loop_write 9 x 0 0 rest).
  - cbn [mbind result_bind]. rewrite Z.shiftl_0_r, Z.lor_0_l. by rewrite wrap64_small.
  - split; [apply Hx |]. eapply Z.lt_le_trans; [apply Hx | apply UInt64_ten_groups].
  - done.
Qed.

Lemma writeVarUInt_loop_nonempty (n : nat) (x : Z) :
  (0 < length (IO.writeVarUInt_loop (S n) x))%nat.
Proof. simpl. destruct (127 <? x); simpl; lia. Qed.

(** A varint cut short is not read. *)
Lemma readVarUInt_loop_truncated (n : nat) :
  ∀ x shift acc (k : nat),
    0 ≤ x → (k < length (IO.writeVarUInt_loop n x))%nat →
    IO.readVarUInt_loop n shift acc (take k (IO.writeVarUInt_loop n x))
    = Fail DecodingError.
Proof.
  induction n as [| n IH]; intros x shift acc k Hx Hk; [simpl in Hk; lia |].
  rewrite writeVarUInt_loop_S in * by done.
  pose proof (Z.mod_pos_bound x 128 ltac:(lia)) as Hm.
  destruct (127 <? x) eqn:E; destruct k as [| k]; try done.
  - rewrite firstn_cons, readVarUInt_loop_cons. cbv zeta.
    rewrite Z_of_byte_of_Z, (Z.mod_small (x mod 128 + 128)) by lia.
    rewrite testbit7_high by done.
    apply IH; [apply Z.div_pos; lia | simpl in Hk; lia].
  - simpl in Hk. lia.
Qed.

(** From here on the two varint loops are handled through the lemmas above. *)
Arguments IO.writeVarUInt_loop : simpl never.
Arguments IO.readVarUInt_loop : simpl never.

Lemma writeVarUInt_app (x : Z) (buf : IO.WriteBuffer) :
  IO.writeVarUInt x buf = buf ++ IO.writeVarUInt x [].
Proof. reflexivity. Qed.

Lemma readVarUInt_truncated (x : Z) (k : nat) :
  (k < length (IO.writeVarUInt x []))%nat →
  IO.readVarUInt (take k (IO.writeVarUInt x [])) = Fail DecodingError.
Proof.
  unfold IO.readVarUInt, IO.writeVarUInt. rewrite app_nil_l. intros Hk.
  rewrite readVarUInt_loop_truncated; [reflexivity | apply wrap64_range | exact Hk].
Qed.

Lemma readStrict_app (bs rest : list byte) :
  IO.readStrict (length bs) (bs ++ rest) = Ok (bs, rest).
Proof.
  unfold IO.readStrict. rewrite length_app.
  destruct (length bs + length rest <? length bs)%nat eqn:E.
  - apply Nat.ltb_lt in E. lia.
  - by rewrite take_app_length, drop_app_length.
Qed.

Lemma readStrict_short (n : nat) (buf : list byte) :
  (length buf < n)%nat → IO.readStrict n buf = Fail DecodingError.
Proof.
  intros Hn. unfold IO.readStrict.
  destruct (length buf <? n)%nat eqn:E; [done |].
  apply Nat.ltb_ge in E. lia.
Qed.

Lemma length_le_bytes (w : nat) (x : Z) : length (IO.le_bytes w x) = w.
Proof. revert x. induction w as [| w IH]; intros x; simpl; [done | by rewrite IH]. Qed.

Lemma lor_shiftl8 (a b : Z) :
  0 ≤ a < 256 → 0 ≤ b → Z.lor a (Z.shiftl b 8) = a + 256 * b.
Proof.
  intros Ha Hb.
  assert (Hland : Z.land a (Z.shiftl b 8) = 0).
  { apply Z.bits_inj'. intros i Hi. rewrite Z.land_spec, Z.bits_0.
    destruct (decide (i < 8)) as [Hlt | Hge].
    - rewrite Z.shiftl_spec_low by lia. apply andb_false_r.
    - rewrite (Z.testbit_eqb a i) by lia.
      rewrite Z.div_small; [done |]. split; [lia |].
      apply Z.lt_le_trans with (2 ^ 8); [change (2 ^ 8) with 256; lia |].
      apply Z.pow_le_mono_r; lia. }
  rewrite <- Z.lxor_lor by done. rewrite <- Z.add_nocarry_lxor by done.
  rewrite Z.shiftl_mul_pow2 by lia. change (2 ^ 8) with 256. lia.
Qed.

Lemma le_value_nonneg (bs : list byte) : 0 ≤ IO.le_value bs.
Proof.
  induction bs as [| b bs IH]; simpl; [done |].
  pose proof (Z_of_byte_range b). rewrite lor_shiftl8 by lia. lia.
Qed.

Lemma le_value_le_bytes (w : nat) (x : Z) :
  IO.le_value (IO.le_bytes w x) = x mod 2 ^ (8 * Z.of_nat w).
Proof.
  revert x. induction w as [| w IH]; intros x.
  { simpl. by rewrite Z.mod_1_r. }
  cbn [IO.le_bytes IO.le_value].
  rewrite land_0xFF, Z_of_byte_of_Z, Z.mod_mod by lia.
  pose proof (Z.mod_pos_bound x 256 ltac:(lia)) as Hm.
  rewrite lor_shiftl8 by (try apply le_value_nonneg; lia).
  rewrite IH, Z.shiftr_div_pow2 by lia. change (2 ^ 8) with 256.
  replace (8 * Z.of_nat (S w)) with (8 + 8 * Z.of_nat w) by lia.
  rewrite Z.pow_add_r by lia. change (2 ^ 8) with 256.
  rewrite Z.rem_mul_r; [done | lia |]. apply Z.pow_pos_nonneg; lia.
Qed.

Lemma readIntBinary_le_bytes (w : nat) (x : Z) (rest : IO.ReadBuffer) :
  IO.readIntBinary w (IO.le_bytes w x ++ rest) = Ok (x mod 2 ^ (8 * Z.of_nat w), rest).
Proof.
  unfold IO.readIntBinary.
  rewrite <- (length_le_bytes w x) at 1. rewrite readStrict_app.
  cbn [mbind result_bind]. by rewrite le_value_le_bytes.
Qed.

(** ** Duplicate-free lists *)

Section distinct_facts.
Context {A : Type} `{EqDecision A}.
Implicit Types (x y : A) (l xs : list A).

Lemma elem_of_uniq_insert x y l : y ∈ uniq_insert x l ↔ y = x ∨ y ∈ l.
Proof.
  unfold uniq_insert. destruct (decide (x ∈ l)) as [Hin | Hnin].
  - split; [by right | intros [-> | ?]; done].
  - rewrite elem_of_app, list_elem_of_singleton. tauto.
Qed.

Lemma NoDup_uniq_insert x l : NoDup l → NoDup (uniq_insert x l).
Proof.
  intros Hl. unfold uniq_insert. destruct (decide (x ∈ l)) as [Hin | Hnin]; [done |].
  apply NoDup_app. split_and!; [done | | apply NoDup_singleton].
  intros y Hy ->%list_elem_of_singleton. done.
Qed.

Lemma elem_of_uniq_inserts xs : ∀ l y, y ∈ uniq_inserts l xs ↔ y ∈ l ∨ y ∈ xs.
Proof.
  induction xs as [| x xs IH]; intros l y; simpl.
  - rewrite elem_of_nil. tauto.
  - unfold uniq_inserts in *. simpl. rewrite IH, elem_of_uniq_insert, elem_of_cons.
    tauto.
Qed.

Lemma NoDup_uniq_inserts xs : ∀ l, NoDup l → NoDup (uniq_inserts l xs).
Proof.
  induction xs as [| x xs IH]; intros l Hl; [done |].
  apply IH. by apply NoDup_uniq_insert.
Qed.

Lemma uniq_inserts_app l xs ys :
  uniq_inserts l (xs ++ ys) = uniq_inserts (uniq_inserts l xs) ys.
Proof. unfold uniq_inserts. by rewrite foldl_app. Qed.

(** Inserting values that are new and pairwise distinct appends them. *)
Lemma uniq_inserts_fresh xs : ∀ l, NoDup (l ++ xs) → uniq_inserts l xs = l ++ xs.
Proof.
  induction xs as [| x xs IH]; intros l Hnd; simpl.
  - by rewrite app_nil_r.
  - unfold uniq_inserts in *. simpl. unfold uniq_insert at 2.
    apply NoDup_app in Hnd as Hnd'. destruct Hnd' as (_ & Hdisj & _).
    destruct (decide (x ∈ l)) as [Hin | Hnin].
    + exfalso. apply (Hdisj x Hin). by left.
    + rewrite IH; rewrite <- app_assoc; done.
Qed.

Lemma distinct_NoDup xs : NoDup xs → distinct xs = xs.
Proof. intros Hnd. unfold distinct. by rewrite uniq_inserts_fresh. Qed.

Lemma NoDup_distinct xs : NoDup (distinct xs).
Proof. apply NoDup_uniq_inserts, NoDup_nil_2. Qed.

Lemma elem_of_distinct xs y : y ∈ distinct xs ↔ y ∈ xs.
Proof. unfold distinct. rewrite elem_of_uniq_inserts, elem_of_nil. tauto. Qed.

Lemma length_uniq_insert_le x l : (length l ≤ length (uniq_insert x l))%nat.
Proof.
  unfold uniq_insert. destruct (decide (x ∈ l)); [done |]. rewrite length_app. lia.
Qed.

Lemma length_uniq_inserts xs : ∀ l,
  (length (uniq_inserts l xs) ≤ length l + length xs)%nat.
Proof.
  induction xs as [| x xs IH]; intros l; simpl; [lia |].
  unfold uniq_inserts in *. simpl. etrans; [apply IH |].
  unfold uniq_insert. destruct (decide (x ∈ l)); rewrite ?length_app; simpl; lia.
Qed.

(** Duplicate-free sequences with the same elements are rearrangements of
    each other. *)
Lemma same_elements_Permutation l1 l2 :
  NoDup l1 → NoDup l2 → same_elements l1 l2 → l1 ≡ₚ l2.
Proof. intros H1 H2 Hs. by apply NoDup_Permutation. Qed.

End distinct_facts.

Lemma uniq_inserts_fmap {A B : Type} `{EqDecision A} `{EqDecision B} (f : A → B)
    (xs : list A) :
  Inj (=) (=) f →
  ∀ l, uniq_inserts (f <$> l) (f <$> xs) = f <$> uniq_inserts l xs.
Proof.
  intros Hinj. induction xs as [| x xs IH]; intros l; [done |].
  unfold uniq_inserts in *. simpl. rewrite <- IH. f_equal.
  unfold uniq_insert.
  destruct (decide (x ∈ l)) as [Hin | Hnin];
    destruct (decide (f x ∈ f <$> l)) as [Hin' | Hnin']; try done.
  - exfalso. apply Hnin'. by apply list_elem_of_fmap_2.
  - exfalso. apply Hnin. apply list_elem_of_fmap in Hin' as (y & Hy & Hyl).
    by apply Hinj in Hy as ->.
  - by rewrite fmap_app.
Qed.

(** ** The hash set *)

Section hash_set_facts.
(** [eqb] compares the keys through what they denote, [key]; [P] holds of
    the keys for which it does. *)
Context {K B : Type} `{EqDecision B}.
Context (eqb : K → K → bool) (key : K → B) (P : K → Prop).
Hypothesis eqb_key : ∀ a b, P a → P b → eqb a b = true ↔ key a = key b.

Lemma find_cell_Some (x : K) (l : list K) (it : nat) :
  HashSet.find_cell eqb x l = Some it →
  ∃ c, l !! it = Some c ∧ eqb c x = true.
Proof.
  revert it. induction l as [| c l IH]; intros it; simpl; [done |].
  destruct (eqb c x) eqn:E.
  - intros [= <-]. by exists c.
  - destruct (HashSet.find_cell eqb x l) as [j|]; simpl; [| done].
    intros [= <-]. by apply IH.
Qed.

Lemma find_cell_None (x : K) (l : list K) :
  Forall P l → P x →
  HashSet.find_cell eqb x l = None ↔ key x ∉ key <$> l.
Proof.
  intros Hl Hx. induction Hl as [| c l Hc Hl IH]; simpl.
  - split; [intros _; apply not_elem_of_nil | done].
  - rewrite not_elem_of_cons. destruct (eqb c x) eqn:E.
    + apply eqb_key in E; [| done..]. split; [done | intros [Hne _]; congruence].
    + assert (key x ≠ key c).
      { intros Heq. symmetry in Heq. apply eqb_key in Heq; [congruence | done..]. }
      destruct (HashSet.find_cell eqb x l); simpl; split; try done; try tauto.
      intros [_ Hn]. by apply IH in Hn.
Qed.

Lemma find_cell_is_Some (x : K) (l : list K) :
  Forall P l → P x →
  is_Some (HashSet.find_cell eqb x l) ↔ key x ∈ key <$> l.
Proof.
  intros Hl Hx. pose proof (find_cell_None x l Hl Hx) as Hn.
  destruct (HashSet.find_cell eqb x l) as [i|].
  - split; [intros _ | by eauto].
    destruct (decide (key x ∈ key <$> l)) as [? | Hnin]; [done |].
    apply Hn in Hnin. done.
  - split; [by intros [? ?] | intros Hin]. exfalso. by apply Hn.
Qed.

(** The keys after [emplace]. *)
Lemma emplace_keys (x : K) (s : HashSet.t K) :
  Forall P (HashSet.cells s) → P x →
  key <$> HashSet.cells (HashSet.emplace eqb x s).1.1
  = uniq_insert (key x) (key <$> HashSet.cells s).
Proof.
  intros Hs Hx. unfold HashSet.emplace, uniq_insert.
  pose proof (find_cell_None x _ Hs Hx) as Hn.
  destruct (HashSet.find_cell eqb x (HashSet.cells s)) as [i|]; simpl.
  - destruct (decide (key x ∈ key <$> HashSet.cells s)) as [? | Hnin]; [done |].
    by apply Hn in Hnin.
  - rewrite decide_False by by apply Hn. by rewrite fmap_app.
Qed.

Lemma emplace_inserted (x : K) (s : HashSet.t K) :
  Forall P (HashSet.cells s) → P x →
  (HashSet.emplace eqb x s).2 = true ↔ key x ∉ key <$> HashSet.cells s.
Proof.
  intros Hs Hx. unfold HashSet.emplace.
  pose proof (find_cell_None x _ Hs Hx) as Hn.
  destruct (HashSet.find_cell eqb x (HashSet.cells s)) as [i|]; simpl.
  - split; [done | intros Hnin; by apply Hn in Hnin].
  - split; [intros _; by apply Hn | done].
Qed.

Lemma insert_keys (x : K) (s : HashSet.t K) :
  Forall P (HashSet.cells s) → P x →
  key <$> HashSet.cells (HashSet.insert eqb x s)
  = uniq_insert (key x) (key <$> HashSet.cells s).
Proof. apply emplace_keys. Qed.

Lemma insert_Forall (x : K) (s : HashSet.t K) (Q : K → Prop) :
  Forall Q (HashSet.cells s) → Q x →
  Forall Q (HashSet.cells (HashSet.insert eqb x s)).
Proof.
  intros Hs Hx. unfold HashSet.insert, HashSet.emplace.
  destruct (HashSet.find_cell eqb x (HashSet.cells s)); simpl; [done |].
  apply Forall_app. split; [done | by apply Forall_singleton].
Qed.

End hash_set_facts.

(** ** Sets whose cells are pairwise unequal *)

Section unequal_cells_facts.
Context {K : Type} (eqb : K → K → bool).

Lemma unequal_cells_perm (l l' : list K) :
  l ≡ₚ l' → unequal_cells eqb l → unequal_cells eqb l'.
Proof.
  induction 1 as [| x l l' Hperm IH | x y l | l l' l'' _ IH1 _ IH2]; simpl.
  - done.
  - intros [Hx Hl]. split; [by rewrite <- Hperm | by apply IH].
  - intros (Hy & Hx & Hl).
    apply Forall_cons in Hy as [[Hyx Hxy] Hy].
    split; [apply Forall_cons; tauto | done].
  - auto.
Qed.

Lemma unequal_cells_before (l1 l2 : list K) (x : K) :
  unequal_cells eqb (l1 ++ x :: l2) → Forall (λ c, eqb c x = false) l1.
Proof.
  induction l1 as [| c l1 IH]; simpl; [by constructor |].
  intros [Hc Hl]. constructor; [| by apply IH].
  rewrite Forall_forall in Hc. apply (Hc x), elem_of_app. right. constructor.
Qed.

Lemma find_cell_unequal (x : K) (l : list K) :
  Forall (λ c, eqb c x = false) l → HashSet.find_cell eqb x l = None.
Proof.
  induction 1 as [| c l Hc _ IH]; simpl; [done |]. by rewrite Hc, IH.
Qed.

(** Keys unequal to every cell and to each other are all inserted, in
    order. *)
Lemma cells_inserts_unequal (xs : list K) : ∀ s : HashSet.t K,
  unequal_cells eqb (HashSet.cells s ++ xs) →
  HashSet.cells (foldl (λ acc x, HashSet.insert eqb x acc) s xs)
  = HashSet.cells s ++ xs.
Proof.
  induction xs as [| x xs IH]; intros s Hun; simpl.
  - by rewrite app_nil_r.
  - assert (Hins : HashSet.cells (HashSet.insert eqb x s) = HashSet.cells s ++ [x]).
    { unfold HashSet.insert, HashSet.emplace.
      by rewrite (find_cell_unequal x _ (unequal_cells_before _ _ _ Hun)). }
    rewrite IH; rewrite Hins, <- app_assoc; done.
Qed.

End unequal_cells_facts.

(** ** The set of the fixed-width aggregator where [==] is identity *)

Lemma integer_eq_is_identity (l : list Z) :
  eq_is_identity_on (H := integer_eq) l.
Proof. intros a b _ _. apply Z.eqb_eq. Qed.

(** [==] of [Float64] is identity on values that hold no NaN and at most
    one of the two zeros. *)
Lemma float64_eq_is_identity (l : list Z) :
  Forall (λ x, Float64_isnan x = false) l →
  (∀ a b, a ∈ l → b ∈ l →
          Float64_iszero a = true → Float64_iszero b = true → a = b) →
  eq_is_identity_on (H := float64_eq) l.
Proof.
  intros Hnan Hzero a b Ha Hb. rewrite Forall_forall in Hnan.
  unfold operator_eq, float64_eq. rewrite (Hnan a Ha), (Hnan b Hb). simpl.
  destruct (Float64_iszero a) eqn:Ea, (Float64_iszero b) eqn:Eb; simpl;
    try apply Z.eqb_eq.
  split; [intros _; by apply Hzero | done].
Qed.

Lemma unequal_cells_integer (l : list Z) :
  NoDup l → unequal_cells integer_eq l.
Proof.
  induction 1 as [| x l Hx _ IH]; simpl; [done |]. split; [| done].
  apply Forall_forall. intros c Hc. unfold integer_eq.
  split; apply Z.eqb_neq; intros ->; done.
Qed.

Section identity_facts.
(** [U] holds the values met; on them [==] is identity. *)
Context `{OperatorEq Z} (U : list Z).
Hypothesis eq_identity : eq_is_identity_on U.

Lemma eq_identity_key (a b : Z) :
  a ∈ U → b ∈ U → operator_eq a b = true ↔ id a = id b.
Proof. apply eq_identity. Qed.

Lemma cells_insert_identity (x : Z) (s : HashSet.t Z) :
  HashSet.cells s ⊆ U → x ∈ U →
  HashSet.cells (HashSet.insert operator_eq x s) = uniq_insert x (HashSet.cells s).
Proof.
  intros Hs Hx.
  pose proof (insert_keys operator_eq id (.∈ U) eq_identity_key x s) as Hk.
  rewrite !list_fmap_id in Hk. apply Hk; [| done].
  apply Forall_forall. intros c Hc. by apply Hs.
Qed.

Lemma uniq_insert_subseteq (x : Z) (l : list Z) :
  l ⊆ U → x ∈ U → uniq_insert x l ⊆ U.
Proof.
  intros Hl Hx. unfold uniq_insert. destruct (decide (x ∈ l)); [done |].
  intros y Hy. apply elem_of_app in Hy as [Hy | Hy]; [by apply Hl |].
  apply list_elem_of_singleton in Hy. by subst.
Qed.

Lemma cells_inserts_identity (xs : list Z) : ∀ s : HashSet.t Z,
  HashSet.cells s ⊆ U → xs ⊆ U →
  HashSet.cells (foldl (λ acc x, HashSet.insert operator_eq x acc) s xs)
  = uniq_inserts (HashSet.cells s) xs.
Proof.
  induction xs as [| x xs IH]; intros s Hs Hxs; [done |].
  simpl. rewrite IH.
  - rewrite cells_insert_identity; [done | done | set_solver].
  - rewrite cells_insert_identity; [| done | set_solver].
    apply uniq_insert_subseteq; set_solver.
  - set_solver.
Qed.

End identity_facts.

Section iteration_facts.
Context {K : Type} `{IterationOrderLaw K}.

Lemma elements_perm (s : HashSet.t K) : HashSet.elements s ≡ₚ HashSet.cells s.
Proof. apply iteration_order_perm. Qed.

Lemma length_elements (s : HashSet.t K) :
  length (HashSet.elements s) = length (HashSet.cells s).
Proof. by rewrite elements_perm. Qed.

Lemma elem_of_elements_cells (s : HashSet.t K) (x : K) :
  x ∈ HashSet.elements s ↔ x ∈ HashSet.cells s.
Proof. by rewrite elements_perm. Qed.
End iteration_facts.

(** ** The fixed-width aggregator *)

Section fixed_width_facts.
Context (sizeofT : nat) {T_eq : OperatorEq Z} `{IterationOrderLaw Z}.
Implicit Types (place rhs : GroupUniqArray.State) (column : list Z).

Lemma size_cells (s : HashSet.t Z) :
  Z.of_nat (length (HashSet.cells s)) < UInt64_MAX1 →
  HashSet.size s = Z.of_nat (length (HashSet.cells s)).
Proof. intros Hlt. unfold HashSet.size. apply wrap64_small. lia. Qed.

Lemma add_rows_from (suf : list Z) : ∀ pre place column,
  column = pre ++ suf →
  GroupUniqArray.add_rows place column (seq (length pre) (length suf))
  = Ok {| GroupUniqArray.value :=
            foldl (λ acc x, HashSet.insert operator_eq x acc)
                  (GroupUniqArray.value place) suf |}.
Proof.
  induction suf as [| x suf IH]; intros pre place column Hcol; simpl.
  - by destruct place.
  - unfold GroupUniqArray.addImpl.
    rewrite Hcol at 1. rewrite list_lookup_middle by done. cbn [mbind result_bind].
    specialize (IH (pre ++ [x])). rewrite length_app, Nat.add_1_r in IH.
    rewrite IH; [done | by rewrite <- app_assoc].
Qed.

(** [add] for every row succeeds and inserts the values of the column in
    order. *)
Lemma add_each_inserts place column :
  GroupUniqArray.add_each place column
  = Ok {| GroupUniqArray.value :=
            foldl (λ acc x, HashSet.insert operator_eq x acc)
                  (GroupUniqArray.value place) column |}.
Proof. apply (add_rows_from column [] place column eq_refl). Qed.

(** Where [==] is identity on the values met, the cells after the adds are
    the distinct values. *)
Lemma add_each_cells (U : list Z) place column :
  eq_is_identity_on U →
  HashSet.cells (GroupUniqArray.value place) ⊆ U → column ⊆ U →
  ∃ place',
    GroupUniqArray.add_each place column = Ok place' ∧
    HashSet.cells (GroupUniqArray.value place')
    = uniq_inserts (HashSet.cells (GroupUniqArray.value place)) column.
Proof.
  intros HU Hplace Hcolumn. eexists. split.
  - apply add_each_inserts.
  - simpl. by apply (cells_inserts_identity U).
Qed.

Lemma merge_cells (U : list Z) place rhs :
  eq_is_identity_on U →
  HashSet.cells (GroupUniqArray.value place) ⊆ U →
  HashSet.cells (GroupUniqArray.value rhs) ⊆ U →
  HashSet.cells (GroupUniqArray.value (GroupUniqArray.merge place rhs))
  = uniq_inserts (HashSet.cells (GroupUniqArray.value place))
                 (HashSet.elements (GroupUniqArray.value rhs)).
Proof.
  intros HU Hplace Hrhs. unfold GroupUniqArray.merge, HashSet.merge. simpl.
  apply (cells_inserts_identity U); [done | done |].
  intros x Hx. apply Hrhs. by apply elem_of_elements_cells.
Qed.

(** The loop of [insertResultInto] fills the slots the [resize] added. *)
Lemma fill_slots (old_size : nat) (xs : list Z) : ∀ pre suf i,
  length pre = (old_size + i)%nat → length suf = length xs →
  (foldl (λ '(d, i) elem, (<[(old_size + i)%nat := elem]> d, S i))
         (pre ++ suf, i) xs).1 = pre ++ xs.
Proof.
  induction xs as [| x xs IH]; intros pre suf i Hpre Hsuf.
  - destruct suf; [done | simpl in Hsuf; lia].
  - destruct suf as [| z suf]; simpl in Hsuf; [lia |].
    cbn [foldl]. rewrite <- Hpre.
    rewrite <- (Nat.add_0_r (length pre)), insert_app_r. cbn [insert list_insert].
    rewrite (cons_middle x pre suf), app_assoc.
    rewrite (IH (pre ++ [x]) suf (S i)).
    + by rewrite <- app_assoc.
    + rewrite length_app. simpl. lia.
    + lia.
Qed.

Lemma insertResultInto_closed place (to : ColumnArray Z) :
  Z.of_nat (length (nested to))
    + Z.of_nat (length (HashSet.cells (GroupUniqArray.value place))) < UInt64_MAX1 →
  GroupUniqArray.insertResultInto place to
  = {| offsets := offsets to
                  ++ [wrap64 (back_or_zero (offsets to)
                              + Z.of_nat (length (HashSet.cells (GroupUniqArray.value place))))];
       nested := nested to ++ HashSet.elements (GroupUniqArray.value place) |}.
Proof.
  intros Hlt. unfold GroupUniqArray.insertResultInto.
  rewrite size_cells by lia. f_equal.
  rewrite wrap64_small by lia. rewrite <- Nat2Z.inj_add, Nat2Z.id.
  rewrite resize_ge by lia.
  replace (length (nested to) + length (HashSet.cells (GroupUniqArray.value place))
           - length (nested to))%nat
    with (length (HashSet.elements (GroupUniqArray.value place)))
    by (rewrite length_elements; lia).
  apply fill_slots; [lia | apply length_replicate].
Qed.

Lemma finalize_elements place :
  Z.of_nat (length (HashSet.cells (GroupUniqArray.value place))) < UInt64_MAX1 →
  GroupUniqArray.finalize place = HashSet.elements (GroupUniqArray.value place).
Proof.
  intros Hlt. unfold GroupUniqArray.finalize.
  rewrite insertResultInto_closed by (simpl; lia). done.
Qed.

Lemma serialize_loop_closed (xs : list Z) : ∀ buf,
  foldl (λ buf elem, IO.writeIntBinary sizeofT elem buf) buf xs
  = buf ++ concat (IO.le_bytes sizeofT <$> xs).
Proof.
  induction xs as [| x xs IH]; intros buf; simpl.
  - by rewrite app_nil_r.
  - rewrite IH. unfold IO.writeIntBinary. by rewrite <- app_assoc.
Qed.

Lemma serialize_closed place buf :
  GroupUniqArray.serialize sizeofT place buf
  = buf ++ IO.writeVarUInt (HashSet.size (GroupUniqArray.value place)) []
        ++ concat (IO.le_bytes sizeofT <$> HashSet.elements (GroupUniqArray.value place)).
Proof.
  unfold GroupUniqArray.serialize. rewrite serialize_loop_closed.
  by rewrite writeVarUInt_app, <- app_assoc.
Qed.

Lemma read_cells_le_bytes (xs : list Z) : ∀ (s : HashSet.t Z) rest,
  HashSet.read_cells operator_eq (IO.readIntBinary sizeofT) (length xs) s
    (concat (IO.le_bytes sizeofT <$> xs) ++ rest)
  = Ok (foldl (λ acc x, HashSet.insert operator_eq x acc) s
              ((λ x, x mod 2 ^ (8 * Z.of_nat sizeofT)) <$> xs), rest).
Proof.
  induction xs as [| x xs IH]; intros s rest; [done |].
  cbn [length HashSet.read_cells fmap list_fmap concat].
  rewrite <- app_assoc, readIntBinary_le_bytes. cbn [mbind result_bind].
  by rewrite IH.
Qed.

(** Too few bytes for the announced number of elements. *)
Lemma read_cells_short (n : nat) : ∀ (s : HashSet.t Z) buf,
  (length buf < n * sizeofT)%nat →
  HashSet.read_cells operator_eq (IO.readIntBinary sizeofT) n s buf = Fail DecodingError.
Proof.
  induction n as [| n IH]; intros s buf Hlen; [simpl in Hlen; lia |].
  cbn [HashSet.read_cells]. unfold IO.readIntBinary, IO.readStrict.
  destruct (length buf <? sizeofT)%nat eqn:E; [done |].
  apply Nat.ltb_ge in E. cbn [mbind result_bind].
  apply IH. rewrite length_drop. simpl in Hlen. lia.
Qed.

End fixed_width_facts.

(** ** Memory *)

Lemma mem_le_refl (m : Memory) : mem_le m m.
Proof. intros r. exists []. by rewrite app_nil_r. Qed.

Lemma mem_le_trans (m1 m2 m3 : Memory) : mem_le m1 m2 → mem_le m2 m3 → mem_le m1 m3.
Proof.
  intros H12 H23 r. destruct (H12 r) as [a1 E1], (H23 r) as [a2 E2].
  exists (a1 ++ a2). by rewrite E2, E1, app_assoc.
Qed.

Lemma mem_le_same (m m' : Memory) : (∀ r, m' !!! r = m !!! r) → mem_le m m'.
Proof. intros Hsame r. exists []. by rewrite app_nil_r. Qed.

Lemma length_bytes_at (m : Memory) (s : StringRef) :
  valid m s → length (bytes_at m s) = size s.
Proof.
  unfold valid, bytes_at, load, bytes_from. intros Hv.
  rewrite length_take, length_drop. lia.
Qed.

Lemma bytes_at_same (m m' : Memory) (s : StringRef) :
  (∀ r, m' !!! r = m !!! r) → bytes_at m' s = bytes_at m s.
Proof. intros Hsame. unfold bytes_at, load, bytes_from. by rewrite Hsame. Qed.

Lemma valid_mem_le (m m' : Memory) (s : StringRef) :
  mem_le m m' → valid m s → valid m' s.
Proof.
  intros Hle Hv. unfold valid in *. destruct (Hle (region (data s))) as [added ->].
  rewrite length_app. lia.
Qed.

Lemma bytes_at_mem_le (m m' : Memory) (s : StringRef) :
  mem_le m m' → valid m s → bytes_at m' s = bytes_at m s.
Proof.
  intros Hle Hv. unfold valid, bytes_at, load, bytes_from in *.
  destruct (Hle (region (data s))) as [added ->].
  rewrite drop_app_le by lia. rewrite take_app_le; [done |].
  rewrite length_drop. lia.
Qed.

(** From a valid key on, memory reads as the key followed by more bytes. *)
Lemma bytes_from_valid (m : Memory) (s : StringRef) :
  valid m s → ∃ more, bytes_from m (data s) = bytes_at m s ++ more.
Proof.
  intros _. exists (drop (size s) (bytes_from m (data s))).
  unfold bytes_at, load. by rewrite take_drop.
Qed.

Lemma Forall_valid_mem_le (m m' : Memory) (l : list StringRef) :
  mem_le m m' → Forall (valid m) l → Forall (valid m') l.
Proof.
  intros Hle Hl. eapply Forall_impl; [exact Hl |]. intros s. by apply valid_mem_le.
Qed.

Lemma fmap_bytes_at_mem_le (m m' : Memory) (l : list StringRef) :
  mem_le m m' → Forall (valid m) l → bytes_at m' <$> l = bytes_at m <$> l.
Proof.
  intros Hle Hl. apply Forall_fmap_ext_1. eapply Forall_impl; [exact Hl |].
  intros s Hs. by apply bytes_at_mem_le.
Qed.

Lemma StringRef_eqb_key (m : Memory) (a b : StringRef) :
  valid m a → valid m b →
  StringRef_eqb m a b = true ↔ bytes_at m a = bytes_at m b.
Proof.
  intros Ha Hb. unfold StringRef_eqb.
  rewrite andb_true_iff, !bool_decide_eq_true. split; [by intros [_ ?] |].
  intros Heq. split; [| done].
  by rewrite <- (length_bytes_at m a), <- (length_bytes_at m b), Heq.
Qed.

Section arena_facts.
Context (a : Region) (bs : list byte) (m : Memory).

Lemma arena_insert_lookup_total (r : Region) :
  (Arena.insert a bs m).1 !!! r = m !!! r ++ (if decide (r = a) then bs else []).
Proof.
  unfold Arena.insert. simpl. destruct (decide (r = a)) as [-> | Hne].
  - by rewrite lookup_total_insert_eq.
  - by rewrite lookup_total_insert_ne, app_nil_r.
Qed.

Lemma arena_insert_lookup_ne (r : Region) :
  r ≠ a → (Arena.insert a bs m).1 !! r = m !! r.
Proof. intros Hne. unfold Arena.insert. simpl. by rewrite lookup_insert_ne. Qed.

Lemma arena_insert_mem_le : mem_le m (Arena.insert a bs m).1.
Proof. intros r. eexists. apply arena_insert_lookup_total. Qed.

Lemma arena_insert_ptr :
  (Arena.insert a bs m).2 = {| region := a; offset := length (m !!! a) |}.
Proof. reflexivity. Qed.

(** The bytes just inserted are where the returned pointer points. *)
Lemma arena_insert_valid (n : nat) :
  n = length bs →
  valid (Arena.insert a bs m).1 {| data := (Arena.insert a bs m).2; size := n |}.
Proof.
  intros ->. unfold valid. simpl. rewrite lookup_total_insert_eq, length_app.
  unfold Arena.used. lia.
Qed.

Lemma arena_insert_bytes_at (n : nat) :
  n = length bs →
  bytes_at (Arena.insert a bs m).1 {| data := (Arena.insert a bs m).2; size := n |}
  = bs.
Proof.
  intros ->. unfold bytes_at, load, bytes_from. simpl.
  rewrite lookup_total_insert_eq. unfold Arena.used.
  by rewrite drop_app_length, firstn_all.
Qed.

(** [rollback] of the most recent allocation gives the space back. *)
Lemma arena_rollback_insert (r : Region) :
  Arena.rollback a (length bs) (Arena.insert a bs m).1 !!! r = m !!! r.
Proof.
  unfold Arena.rollback, Arena.insert, Arena.used. simpl.
  destruct (decide (r = a)) as [-> | Hne].
  - rewrite lookup_total_insert_eq, lookup_total_insert_eq, length_app.
    replace (length (m !!! a) + length bs - length bs)%nat with (length (m !!! a)) by lia.
    by rewrite take_app_length.
  - by rewrite !lookup_total_insert_ne.
Qed.

Lemma arena_rollback_insert_ne (r : Region) :
  r ≠ a → Arena.rollback a (length bs) (Arena.insert a bs m).1 !! r = m !! r.
Proof.
  intros Hne. unfold Arena.rollback, Arena.insert. simpl.
  by rewrite !lookup_insert_ne.
Qed.

End arena_facts.

(** From here on the arena is handled through the lemmas above. *)
Arguments Arena.insert : simpl never.
Arguments Arena.rollback : simpl never.

Section emplace_cases.
Context {K B : Type} `{EqDecision B}.
Context (eqb : K → K → bool) (key : K → B) (P : K → Prop).
Hypothesis eqb_key : ∀ a b, P a → P b → eqb a b = true ↔ key a = key b.

Lemma emplace_cases (x : K) (s : HashSet.t K) :
  Forall P (HashSet.cells s) → P x →
  ((key x ∈ key <$> HashSet.cells s)
   ∧ ∃ it, HashSet.emplace eqb x s = (s, it, false))
  ∨ ((key x ∉ key <$> HashSet.cells s)
     ∧ HashSet.emplace eqb x s
       = (HashSet.Build (HashSet.cells s ++ [x]), length (HashSet.cells s), true)).
Proof.
  intros Hs Hx. unfold HashSet.emplace.
  pose proof (find_cell_None eqb key P eqb_key x _ Hs Hx) as Hn.
  pose proof (find_cell_is_Some eqb key P eqb_key x _ Hs Hx) as Hy.
  destruct (HashSet.find_cell eqb x (HashSet.cells s)) as [it|].
  - left. split; [apply Hy; eauto | by exists it].
  - right. split; [by apply Hn | done].
Qed.
End emplace_cases.

Lemma set_data_last (cells : list StringRef) (str : StringRef) (p : Ptr) :
  GroupUniqArrayGeneric.set_data (length cells) p (HashSet.Build (cells ++ [str]))
  = HashSet.Build (cells ++ [{| data := p; size := size str |}]).
Proof.
  unfold GroupUniqArrayGeneric.set_data, HashSet.at_it, HashSet.set_it. simpl.
  rewrite list_lookup_middle by done. f_equal.
  rewrite <- (Nat.add_0_r (length cells)), insert_app_r. done.
Qed.

(** ** The generic aggregator: [add] *)

Section generic_add_facts.
Context {V : Type} `{IColumn V}.
Implicit Types (place : GroupUniqArrayGeneric.State) (column : Column V).

(** [getDataAt] views the raw bytes of the row. *)
Lemma getDataAt_spec (m : Memory) column (row_num : nat) (v : V) :
  column_stored m column → rows column !! row_num = Some v →
  ∃ str, getDataAt column row_num = Ok str
         ∧ region (data str) = buffer column
         ∧ valid m str ∧ bytes_at m str = raw_bytes v.
Proof.
  intros Hst Hrow. unfold getDataAt. rewrite Hrow. eexists. split; [done |].
  apply lookup_total_correct in Hst.
  unfold valid, bytes_at, load, bytes_from. simpl. rewrite Hst.
  unfold buffer_bytes. rewrite <- (take_drop_middle _ _ _ Hrow) at 2 4.
  rewrite fmap_app, fmap_cons, concat_app, concat_cons.
  split_and!; [done | rewrite !length_app; lia |].
  by rewrite drop_app_length, take_app_length.
Qed.

Lemma addImpl_nonplain_spec place column (row_num : nat) (a : Region) (m : Memory)
    (v : V) :
  Forall (valid m) (HashSet.cells (GroupUniqArrayGeneric.value place)) →
  rows column !! row_num = Some v →
  ∃ place' m',
    GroupUniqArrayGeneric.addImpl false place column row_num (Some a) m
      = Ok (place', m')
    ∧ mem_le m m'
    ∧ (∀ r, r ≠ a → m' !! r = m !! r)
    ∧ Forall (valid m') (HashSet.cells (GroupUniqArrayGeneric.value place'))
    ∧ GroupUniqArrayGeneric.keys place' m'
      = uniq_insert (serialized_bytes v) (GroupUniqArrayGeneric.keys place m)
    ∧ m' !!! a
      = m !!! a ++ (if decide (serialized_bytes v ∈ GroupUniqArrayGeneric.keys place m)
                    then [] else serialized_bytes v).
Proof.
  intros Hval Hrow.
  unfold GroupUniqArrayGeneric.addImpl, GroupUniqArrayGeneric.getSerialization,
    serializeValueIntoArena. rewrite Hrow. cbn [Arena.deref mbind result_bind negb].
  pose proof (arena_insert_mem_le a (serialized_bytes v) m) as Hle.
  pose proof (arena_insert_valid a (serialized_bytes v) m _ eq_refl) as Hstr.
  pose proof (arena_insert_bytes_at a (serialized_bytes v) m _ eq_refl) as Hb.
  pose proof (arena_insert_lookup_total a (serialized_bytes v) m a) as Hgrow.
  pose proof (arena_insert_lookup_ne a (serialized_bytes v) m) as Hne.
  pose proof (arena_rollback_insert a (serialized_bytes v) m) as Hroll.
  pose proof (arena_rollback_insert_ne a (serialized_bytes v) m) as Hrollne.
  destruct (Arena.insert a (serialized_bytes v) m) as [m1 p]. simpl in *.
  set (str := {| data := p; size := length (serialized_bytes v) |}) in *.
  pose proof (Forall_valid_mem_le _ _ _ Hle Hval) as Hval1.
  pose proof (fmap_bytes_at_mem_le _ _ _ Hle Hval) as Hkeys1.
  unfold GroupUniqArrayGeneric.keys, uniq_insert.
  destruct (emplace_cases (StringRef_eqb m1) (bytes_at m1) (valid m1)
              (StringRef_eqb_key m1) str _ Hval1 Hstr) as [(Hin & it & ->) | (Hnin & ->)];
    rewrite Hb, Hkeys1 in *; cbn [negb].
  - rewrite decide_True by done.
    eexists _, _. split; [done |]. simpl.
    split_and!;
      [by apply mem_le_same | done | | | by rewrite Hroll, decide_True, app_nil_r by done].
    + eapply Forall_valid_mem_le; [by apply mem_le_same | done].
    + apply Forall_fmap_ext_1. apply Forall_forall. intros s _.
      by apply bytes_at_same.
  - rewrite decide_False by done.
    eexists _, _. split; [done |]. simpl.
    split_and!;
      [done | done | | | by rewrite Hgrow, decide_True, decide_False by done].
    + apply Forall_app. split; [done | by apply Forall_singleton].
    + by rewrite fmap_app, Hkeys1; simpl; rewrite Hb.
Qed.

Lemma addImpl_plain_spec place column (row_num : nat) (a : Region) (m : Memory)
    (v : V) :
  Forall (valid m) (HashSet.cells (GroupUniqArrayGeneric.value place)) →
  column_stored m column → buffer column ≠ a →
  rows column !! row_num = Some v →
  ∃ place' m',
    GroupUniqArrayGeneric.addImpl true place column row_num (Some a) m
      = Ok (place', m')
    ∧ mem_le m m'
    ∧ (∀ r, r ≠ a → m' !! r = m !! r)
    ∧ Forall (valid m') (HashSet.cells (GroupUniqArrayGeneric.value place'))
    ∧ GroupUniqArrayGeneric.keys place' m'
      = uniq_insert (raw_bytes v) (GroupUniqArrayGeneric.keys place m)
    ∧ m' !!! a
      = m !!! a ++ (if decide (raw_bytes v ∈ GroupUniqArrayGeneric.keys place m)
                    then [] else raw_bytes v).
Proof.
  intros Hval Hst Hbuf Hrow.
  destruct (getDataAt_spec m column row_num v Hst Hrow)
    as (str & Hget & Hreg & Hstr & Hb).
  unfold GroupUniqArrayGeneric.addImpl, GroupUniqArrayGeneric.getSerialization.
  rewrite Hget. cbn [Arena.deref mbind result_bind negb].
  unfold GroupUniqArrayGeneric.keys, uniq_insert.
  destruct (emplace_cases (StringRef_eqb m) (bytes_at m) (valid m)
              (StringRef_eqb_key m) str _ Hval Hstr) as [(Hin & it & ->) | (Hnin & ->)];
    rewrite Hb in *.
  - rewrite decide_True by done.
    eexists _, _. split; [done |]. simpl.
    split_and!;
      [apply mem_le_refl | done | done | done | by rewrite decide_True, app_nil_r by done].
  - rewrite decide_False by done.
    change (load m (data str) (size str)) with (bytes_at m str). rewrite Hb.
    pose proof (arena_insert_mem_le a (raw_bytes v) m) as Hle.
    pose proof (arena_insert_valid a (raw_bytes v) m (size str)) as Hnew.
    pose proof (arena_insert_bytes_at a (raw_bytes v) m (size str)) as Hnb.
    pose proof (arena_insert_lookup_total a (raw_bytes v) m a) as Hgrow.
    pose proof (arena_insert_lookup_ne a (raw_bytes v) m) as Hne.
    destruct (Arena.insert a (raw_bytes v) m) as [m2 p]. simpl in *.
    rewrite set_data_last.
    assert (Hsz : size str = length (raw_bytes v))
      by (by rewrite <- Hb, length_bytes_at).
    eexists _, _. split; [done |]. simpl.
    split_and!;
      [done | done | | | by rewrite Hgrow, decide_True, decide_False by done].
    + apply Forall_app. split; [by eapply Forall_valid_mem_le |].
      apply Forall_singleton. by apply Hnew.
    + rewrite fmap_app, (fmap_bytes_at_mem_le m m2) by done. simpl.
      by rewrite Hnb.
Qed.

End generic_add_facts.

Section generic_add_each_facts.
Context (is_plain_column : bool) {V : Type} `{IColumn V}.
Implicit Types (place : GroupUniqArrayGeneric.State) (column : Column V).

Lemma addImpl_spec place column (row_num : nat) (a : Region) (m : Memory) (v : V) :
  Forall (valid m) (HashSet.cells (GroupUniqArrayGeneric.value place)) →
  column_ready is_plain_column m column a →
  rows column !! row_num = Some v →
  ∃ place' m',
    GroupUniqArrayGeneric.addImpl is_plain_column place column row_num (Some a) m
      = Ok (place', m')
    ∧ mem_le m m'
    ∧ (∀ r, r ≠ a → m' !! r = m !! r)
    ∧ Forall (valid m') (HashSet.cells (GroupUniqArrayGeneric.value place'))
    ∧ GroupUniqArrayGeneric.keys place' m'
      = uniq_insert (key_bytes is_plain_column v) (GroupUniqArrayGeneric.keys place m)
    ∧ m' !!! a
      = m !!! a
        ++ (if decide (key_bytes is_plain_column v ∈ GroupUniqArrayGeneric.keys place m)
            then [] else key_bytes is_plain_column v).
Proof.
  intros Hval Hready Hrow. unfold column_ready, key_bytes in *.
  destruct is_plain_column.
  - destruct Hready as [Hst Hbuf]; [done |]. by apply addImpl_plain_spec.
  - by apply addImpl_nonplain_spec.
Qed.

Lemma add_rows_spec (a : Region) (suf : list V) : ∀ pre place column m,
  rows column = pre ++ suf →
  Forall (valid m) (HashSet.cells (GroupUniqArrayGeneric.value place)) →
  column_ready is_plain_column m column a →
  ∃ place' m' new_keys,
    GroupUniqArrayGeneric.add_rows is_plain_column place column
      (seq (length pre) (length suf)) (Some a) m = Ok (place', m')
    ∧ mem_le m m'
    ∧ (∀ r, r ≠ a → m' !! r = m !! r)
    ∧ Forall (valid m') (HashSet.cells (GroupUniqArrayGeneric.value place'))
    ∧ GroupUniqArrayGeneric.keys place' m'
      = uniq_inserts (GroupUniqArrayGeneric.keys place m)
                     (key_bytes is_plain_column <$> suf)
    ∧ GroupUniqArrayGeneric.keys place' m'
      = GroupUniqArrayGeneric.keys place m ++ new_keys
    ∧ m' !!! a = m !!! a ++ concat new_keys.
Proof.
  induction suf as [| v suf IH]; intros pre place column m Hcol Hval Hready.
  { exists place, m, []. simpl. rewrite !app_nil_r.
    split_and!; try done. apply mem_le_refl. }
  assert (Hrow : rows column !! length pre = Some v)
    by (rewrite Hcol; by apply list_lookup_middle).
  destruct (addImpl_spec place column _ a m v Hval Hready Hrow)
    as (place1 & m1 & Hadd & Hle1 & Hne1 & Hval1 & Hkeys1 & Harena1).
  destruct (IH (pre ++ [v]) place1 column m1) as
    (place2 & m2 & new2 & Hrows & Hle2 & Hne2 & Hval2 & Hkeys2 & Hnew2 & Harena2).
  { by rewrite <- app_assoc. }
  { done. }
  { intros Hp. destruct (Hready Hp) as [Hst Hbuf]. split; [| done].
    unfold column_stored in *. by rewrite Hne1. }
  rewrite length_app, Nat.add_1_r in Hrows.
  exists place2, m2.
  exists ((if decide (key_bytes is_plain_column v ∈ GroupUniqArrayGeneric.keys place m)
           then [] else [key_bytes is_plain_column v]) ++ new2).
  cbn [length seq GroupUniqArrayGeneric.add_rows]. rewrite Hadd.
  cbn [mbind result_bind]. rewrite Hrows.
  split_and!; [done | by eapply mem_le_trans | | done | | |].
  - intros r Hr. by rewrite Hne2, Hne1.
  - by rewrite Hkeys2, Hkeys1.
  - rewrite Hnew2, Hkeys1. unfold uniq_insert.
    destruct (decide (key_bytes is_plain_column v ∈ GroupUniqArrayGeneric.keys place m));
      [done | by rewrite <- app_assoc].
  - rewrite Harena2, Harena1, concat_app.
    destruct (decide (key_bytes is_plain_column v ∈ GroupUniqArrayGeneric.keys place m));
      simpl; by rewrite <- ?app_assoc, ?app_nil_r.
Qed.

Lemma add_each_spec (a : Region) place column (m : Memory) :
  Forall (valid m) (HashSet.cells (GroupUniqArrayGeneric.value place)) →
  column_ready is_plain_column m column a →
  ∃ place' m' new_keys,
    GroupUniqArrayGeneric.add_each is_plain_column place column (Some a) m
      = Ok (place', m')
    ∧ mem_le m m'
    ∧ (∀ r, r ≠ a → m' !! r = m !! r)
    ∧ Forall (valid m') (HashSet.cells (GroupUniqArrayGeneric.value place'))
    ∧ GroupUniqArrayGeneric.keys place' m'
      = uniq_inserts (GroupUniqArrayGeneric.keys place m)
                     (key_bytes is_plain_column <$> rows column)
    ∧ GroupUniqArrayGeneric.keys place' m'
      = GroupUniqArrayGeneric.keys place m ++ new_keys
    ∧ m' !!! a = m !!! a ++ concat new_keys.
Proof.
  intros Hval Hready.
  apply (add_rows_spec a (rows column) [] place column m eq_refl Hval Hready).
Qed.

Context `{!IColumnLaws V}.

Lemma key_bytes_inj : Inj (=) (=) (key_bytes is_plain_column).
Proof.
  intros v1 v2 Heq. unfold key_bytes in Heq. destruct is_plain_column.
  - by rewrite <- (from_raw_bytes v1), <- (from_raw_bytes v2), Heq.
  - by rewrite <- (from_serialized_bytes v1 []), <- (from_serialized_bytes v2 []), Heq.
Qed.

End generic_add_each_facts.

(** ** The generic aggregator: [merge], [serialize], [deserialize],
    [insertResultInto] *)

Section generic_set_facts.
Implicit Types (set cur : HashSet.t StringRef).

Lemma merge_loop_spec (a : Region) (rhs_elems : list StringRef) : ∀ cur m,
  Forall (valid m) (HashSet.cells cur) →
  Forall (valid m) rhs_elems →
  ∃ set' m' new_keys,
    GroupUniqArrayGeneric.merge_loop rhs_elems cur (Some a) m = Ok (set', m')
    ∧ mem_le m m'
    ∧ (∀ r, r ≠ a → m' !! r = m !! r)
    ∧ Forall (valid m') (HashSet.cells set')
    ∧ bytes_at m' <$> HashSet.cells set'
      = uniq_inserts (bytes_at m <$> HashSet.cells cur) (bytes_at m <$> rhs_elems)
    ∧ bytes_at m' <$> HashSet.cells set' = (bytes_at m <$> HashSet.cells cur) ++ new_keys
    ∧ m' !!! a = m !!! a ++ concat new_keys.
Proof.
  induction rhs_elems as [| elem rest IH]; intros cur m Hcur Hrhs.
  { exists cur, m, []. simpl. rewrite !app_nil_r.
    split_and!; try done. apply mem_le_refl. }
  apply Forall_cons in Hrhs as [Helem Hrest].
  cbn [GroupUniqArrayGeneric.merge_loop fmap list_fmap].
  destruct (emplace_cases (StringRef_eqb m) (bytes_at m) (valid m)
              (StringRef_eqb_key m) elem cur Hcur Helem) as [(Hin & it & ->) | (Hnin & ->)].
  - destruct (IH cur m Hcur Hrest)
      as (set' & m' & new & Hrun & Hle & Hne & Hval & Hkeys & Hnew & Harena).
    exists set', m', new. rewrite Hrun.
    split_and!; try done. rewrite Hkeys. unfold uniq_inserts. simpl.
    unfold uniq_insert. by rewrite decide_True.
  - cbn [Arena.deref mbind result_bind]. unfold HashSet.at_it. cbn [HashSet.cells].
    rewrite list_lookup_middle by done. cbn [default from_option]. unfold id.
    change (load m (data elem) (size elem)) with (bytes_at m elem).
    pose proof (arena_insert_mem_le a (bytes_at m elem) m) as Hle1.
    pose proof (arena_insert_valid a (bytes_at m elem) m (size elem)) as Hv1.
    pose proof (arena_insert_bytes_at a (bytes_at m elem) m (size elem)) as Hb1.
    pose proof (arena_insert_lookup_total a (bytes_at m elem) m a) as Hgrow.
    pose proof (arena_insert_lookup_ne a (bytes_at m elem) m) as Hne1.
    destruct (Arena.insert a (bytes_at m elem) m) as [m1 p]. cbn [fst snd] in *.
    rewrite decide_True in Hgrow by done.
    pose proof (length_bytes_at m elem Helem) as Hlen.
    rewrite set_data_last.
    set (cur1 := HashSet.Build (HashSet.cells cur ++ [{| data := p; size := size elem |}])).
    assert (Hcur1 : Forall (valid m1) (HashSet.cells cur1)).
    { apply Forall_app. split; [by eapply Forall_valid_mem_le |].
      apply Forall_singleton. by apply Hv1. }
    destruct (IH cur1 m1 Hcur1 (Forall_valid_mem_le _ _ _ Hle1 Hrest))
      as (set' & m' & new & Hrun & Hle & Hne & Hval & Hkeys & Hnew & Harena).
    assert (Hk1 : bytes_at m1 <$> HashSet.cells cur1
                  = (bytes_at m <$> HashSet.cells cur) ++ [bytes_at m elem]).
    { unfold cur1. cbn [HashSet.cells]. rewrite fmap_app.
      rewrite (fmap_bytes_at_mem_le m m1) by done. simpl. by rewrite Hb1. }
    exists set', m', (bytes_at m elem :: new). rewrite Hrun.
    split_and!; [done | by eapply mem_le_trans | | done | | |].
    + intros r Hr. by rewrite Hne, Hne1.
    + rewrite Hkeys, Hk1, (fmap_bytes_at_mem_le m m1) by done.
      unfold uniq_inserts. simpl. f_equal. unfold uniq_insert. by rewrite decide_False.
    + by rewrite Hnew, Hk1, <- app_assoc.
    + rewrite Harena, Hgrow. simpl. by rewrite <- app_assoc.
Qed.

Lemma readStringBinaryInto_spec (a : Region) (k rest : list byte) (m : Memory) :
  Z.of_nat (length k) < UInt64_MAX1 →
  ∃ str m',
    readStringBinaryInto a (length_prefixed k ++ rest) m = Ok (str, rest, m')
    ∧ mem_le m m'
    ∧ (∀ r, r ≠ a → m' !! r = m !! r)
    ∧ valid m' str ∧ bytes_at m' str = k.
Proof.
  intros Hlen. unfold readStringBinaryInto, length_prefixed.
  rewrite <- app_assoc, readVarUInt_writeVarUInt by lia.
  cbn [mbind result_bind]. rewrite Nat2Z.id, readStrict_app.
  cbn [mbind result_bind].
  pose proof (arena_insert_mem_le a k m) as Hle1.
  pose proof (arena_insert_valid a k m _ eq_refl) as Hv1.
  pose proof (arena_insert_bytes_at a k m _ eq_refl) as Hb1.
  pose proof (arena_insert_lookup_ne a k m) as Hne1.
  destruct (Arena.insert a k m) as [m1 p]. cbn [fst snd] in *.
  by eexists _, _.
Qed.

Lemma deserialize_loop_spec (a : Region) (ks : list (list byte)) : ∀ set m rest,
  Forall (valid m) (HashSet.cells set) →
  Forall (λ k, Z.of_nat (length k) < UInt64_MAX1) ks →
  ∃ set' m',
    GroupUniqArrayGeneric.deserialize_loop (length ks) set
      (concat (length_prefixed <$> ks) ++ rest) (Some a) m = Ok (set', rest, m')
    ∧ mem_le m m'
    ∧ (∀ r, r ≠ a → m' !! r = m !! r)
    ∧ Forall (valid m') (HashSet.cells set')
    ∧ bytes_at m' <$> HashSet.cells set'
      = uniq_inserts (bytes_at m <$> HashSet.cells set) ks.
Proof.
  induction ks as [| k ks IH]; intros set m rest Hset Hks.
  { exists set, m. simpl. split_and!; try done. apply mem_le_refl. }
  apply Forall_cons in Hks as [Hk Hks].
  cbn [length GroupUniqArrayGeneric.deserialize_loop fmap list_fmap concat
       Arena.deref mbind result_bind].
  rewrite <- app_assoc.
  destruct (readStringBinaryInto_spec a k (concat (length_prefixed <$> ks) ++ rest) m Hk)
    as (str & m1 & -> & Hle1 & Hne1 & Hstr & Hb).
  cbn [mbind result_bind].
  pose proof (Forall_valid_mem_le _ _ _ Hle1 Hset) as Hset1.
  destruct (IH (HashSet.insert (StringRef_eqb m1) str set) m1 rest)
    as (set' & m' & Hrun & Hle & Hne & Hval & Hkeys); [| done |].
  { by apply insert_Forall. }
  exists set', m'. rewrite Hrun.
  split_and!; [done | by eapply mem_le_trans | | done |].
  - intros r Hr. by rewrite Hne, Hne1.
  - rewrite Hkeys.
    rewrite (insert_keys (StringRef_eqb m1) (bytes_at m1) (valid m1)
               (StringRef_eqb_key m1)) by done.
    by rewrite Hb, (fmap_bytes_at_mem_le m m1) by done.
Qed.

End generic_set_facts.

Section generic_output_facts.
Context (is_plain_column : bool) {V : Type} `{IColumn V} `{IterationOrder StringRef}.
Implicit Types (place : GroupUniqArrayGeneric.State).

Lemma writeStringBinary_app (s : list byte) (buf : IO.WriteBuffer) :
  IO.writeStringBinary s buf = buf ++ length_prefixed s.
Proof.
  unfold IO.writeStringBinary, length_prefixed.
  by rewrite writeVarUInt_app, <- app_assoc.
Qed.

Lemma generic_serialize_loop (m : Memory) (xs : list StringRef) : ∀ buf,
  foldl (λ buf elem, IO.writeStringBinary (bytes_at m elem) buf) buf xs
  = buf ++ concat (length_prefixed <$> (bytes_at m <$> xs)).
Proof.
  induction xs as [| x xs IH]; intros buf; simpl.
  - by rewrite app_nil_r.
  - by rewrite IH, writeStringBinary_app, <- app_assoc.
Qed.

Lemma generic_serialize_closed place (m : Memory) (buf : IO.WriteBuffer) :
  GroupUniqArrayGeneric.serialize place m buf
  = buf ++ IO.writeVarUInt (HashSet.size (GroupUniqArrayGeneric.value place)) []
        ++ concat (length_prefixed
                     <$> (bytes_at m <$> HashSet.elements (GroupUniqArrayGeneric.value place))).
Proof.
  unfold GroupUniqArrayGeneric.serialize.
  by rewrite generic_serialize_loop, writeVarUInt_app, <- app_assoc.
Qed.

Lemma generic_insert_loop (m : Memory) (xs : list StringRef) : ∀ data_to : list V,
  foldl (λ data_to elem,
           GroupUniqArrayGeneric.deserializeAndInsert is_plain_column m elem data_to)
        data_to xs
  = data_to ++ (decode_key is_plain_column m <$> xs).
Proof.
  induction xs as [| x xs IH]; intros data_to; simpl.
  - by rewrite app_nil_r.
  - rewrite IH. unfold GroupUniqArrayGeneric.deserializeAndInsert, decode_key,
      insertData, deserializeAndInsertFromArena.
    destruct is_plain_column; by rewrite <- app_assoc.
Qed.

Lemma generic_insertResultInto_closed place (m : Memory) (to : ColumnArray V) :
  GroupUniqArrayGeneric.insertResultInto is_plain_column place m to
  = {| offsets := offsets to
                  ++ [wrap64 (back_or_zero (offsets to)
                              + HashSet.size (GroupUniqArrayGeneric.value place))];
       nested := nested to
                 ++ (decode_key is_plain_column m
                       <$> HashSet.elements (GroupUniqArrayGeneric.value place)) |}.
Proof.
  unfold GroupUniqArrayGeneric.insertResultInto. by rewrite generic_insert_loop.
Qed.

Lemma generic_finalize_elements place (m : Memory) :
  GroupUniqArrayGeneric.finalize is_plain_column place m
  = decode_key is_plain_column m <$> HashSet.elements (GroupUniqArrayGeneric.value place).
Proof.
  unfold GroupUniqArrayGeneric.finalize. by rewrite generic_insertResultInto_closed.
Qed.

Context `{!IColumnLaws V} `{!IterationOrderLaw StringRef}.

(** A key that holds the bytes of [v] decodes to [v], whatever follows it
    in memory. *)
Lemma decode_key_bytes (m : Memory) (k : StringRef) (v : V) :
  valid m k → bytes_at m k = key_bytes is_plain_column v →
  decode_key is_plain_column m k = v.
Proof.
  intros Hk Hb. unfold decode_key, key_bytes in *. destruct is_plain_column.
  - change (load m (data k) (size k)) with (bytes_at m k).
    by rewrite Hb, from_raw_bytes.
  - destruct (bytes_from_valid m k Hk) as [more ->].
    by rewrite Hb, from_serialized_bytes.
Qed.

Lemma decode_keys_bytes (m : Memory) (ks : list StringRef) : ∀ vs : list V,
  Forall (valid m) ks → bytes_at m <$> ks = key_bytes is_plain_column <$> vs →
  decode_key is_plain_column m <$> ks = vs.
Proof.
  induction ks as [| k ks IH]; intros [| v vs] Hks Hb; try done.
  apply Forall_cons in Hks as [Hk Hks]. simpl in Hb. injection Hb as Hb1 Hb2.
  simpl. f_equal; [by apply decode_key_bytes | by apply IH].
Qed.

(** A state that holds the values [vs] finalizes to a rearrangement of
    [vs]. *)
Lemma holds_finalize (m : Memory) place (vs : list V) :
  holds is_plain_column m place vs →
  GroupUniqArrayGeneric.finalize is_plain_column place m ≡ₚ vs.
Proof.
  intros (Hval & Hkeys & Hnd). rewrite generic_finalize_elements.
  rewrite elements_perm.
  by rewrite (decode_keys_bytes m _ vs).
Qed.

Lemma holds_mem_le (m m' : Memory) place (vs : list V) :
  mem_le m m' → holds is_plain_column m place vs → holds is_plain_column m' place vs.
Proof.
  intros Hle (Hval & Hkeys & Hnd). split_and!; [by eapply Forall_valid_mem_le | | done].
  unfold GroupUniqArrayGeneric.keys in *. by rewrite (fmap_bytes_at_mem_le m m').
Qed.

Lemma holds_create (m : Memory) : holds is_plain_column m GroupUniqArrayGeneric.create [].
Proof. split_and!; [apply Forall_nil_2 | done | apply NoDup_nil_2]. Qed.

End generic_output_facts.

(** ** The instances satisfy their laws *)

Lemma insertion_order_law (K : Type) : @IterationOrderLaw K (insertion_order K).
Proof. intros l. done. Qed.

Lemma reverse_order_law (K : Type) : @IterationOrderLaw K (reverse_order K).
Proof. intros l. apply reverse_Permutation. Qed.

Lemma framed_decode_encode (v rest : list byte) :
  framed_decode ((flat_map (λ b, [x01; b]) v ++ [x00]) ++ rest) = v.
Proof. induction v as [| b v IH]; simpl; [done | by rewrite IH]. Qed.

Lemma framed_column_laws : @IColumnLaws (list byte) framed_column.
Proof.
  split; [done |]. intros v rest. apply framed_decode_encode.
Qed.

(** * The fixed-width aggregator: set semantics *)

Section fixed_width_claims.
Context {T_eq : OperatorEq Z} `{IterationOrderLaw Z} (U : list Z).
Hypothesis eq_identity : eq_is_identity_on U.

End fixed_width_claims.




(** * [merge] is the union *)

Section fixed_merge_facts.
Context {T_eq : OperatorEq Z} `{IterationOrderLaw Z} (U : list Z).
Hypothesis eq_identity : eq_is_identity_on U.
Implicit Types (A B C : GroupUniqArray.State).

Lemma NoDup_merge_cells A B :
  HashSet.cells (GroupUniqArray.value A) ⊆ U →
  HashSet.cells (GroupUniqArray.value B) ⊆ U →
  NoDup (HashSet.cells (GroupUniqArray.value A)) →
  NoDup (HashSet.cells (GroupUniqArray.value (GroupUniqArray.merge A B))).
Proof.
  intros HsA HsB HA. rewrite (merge_cells U) by done. by apply NoDup_uniq_inserts.
Qed.

Lemma elem_of_merge_cells A B (x : Z) :
  HashSet.cells (GroupUniqArray.value A) ⊆ U →
  HashSet.cells (GroupUniqArray.value B) ⊆ U →
  x ∈ HashSet.cells (GroupUniqArray.value (GroupUniqArray.merge A B))
  ↔ x ∈ HashSet.cells (GroupUniqArray.value A)
    ∨ x ∈ HashSet.cells (GroupUniqArray.value B).
Proof.
  intros HsA HsB.
  by rewrite (merge_cells U), elem_of_uniq_inserts, elem_of_elements_cells.
Qed.


Lemma length_merge_cells A B :
  HashSet.cells (GroupUniqArray.value A) ⊆ U →
  HashSet.cells (GroupUniqArray.value B) ⊆ U →
  (length (HashSet.cells (GroupUniqArray.value (GroupUniqArray.merge A B)))
   ≤ length (HashSet.cells (GroupUniqArray.value A))
     + length (HashSet.cells (GroupUniqArray.value B)))%nat.
Proof.
  intros HsA HsB.
  rewrite (merge_cells U) by done. etrans; [apply length_uniq_inserts |].
  by rewrite length_elements.
Qed.
End fixed_merge_facts.

Section generic_merge_facts.
Context (is_plain_column : bool) {V : Type} `{EqDecision V} `{IColumn V}.
Context `{!IColumnLaws V} `{IterationOrderLaw StringRef}.
Implicit Types (A B : GroupUniqArrayGeneric.State).

(** Every key of a state that holds [vs] is the key of the value it
    decodes to, and that value is one of [vs]. *)
Lemma holds_cells (m : Memory) A (vs : list V) :
  holds is_plain_column m A vs →
  Forall (λ k, valid m k
               ∧ bytes_at m k = key_bytes is_plain_column (decode_key is_plain_column m k)
               ∧ decode_key is_plain_column m k ∈ vs)
         (HashSet.cells (GroupUniqArrayGeneric.value A)).
Proof.
  intros (Hval & Hkeys & _). unfold GroupUniqArrayGeneric.keys in Hkeys.
  revert vs Hkeys.
  induction Hval as [| k ks Hk Hks IH]; intros [| v vs] Hkeys; try done.
  simpl in Hkeys. injection Hkeys as Hb Hrest.
  pose proof (decode_key_bytes is_plain_column m k v Hk Hb) as Hd.
  apply Forall_cons. split.
  - rewrite Hd. split_and!; [done | done | by left].
  - eapply Forall_impl; [by apply IH |].
    intros k' (? & ? & ?). split_and!; [done | done | by right].
Qed.

Lemma merge_holds (a : Region) (m : Memory) A B (vsA vsB : list V) :
  holds is_plain_column m A vsA → holds is_plain_column m B vsB →
  ∃ AB m' vs,
    GroupUniqArrayGeneric.merge A B (Some a) m = Ok (AB, m')
    ∧ mem_le m m'
    ∧ holds is_plain_column m' AB vs
    ∧ ∀ v, v ∈ vs ↔ v ∈ vsA ∨ v ∈ vsB.
Proof.
  intros HA HB.
  pose proof (holds_cells m B vsB HB) as HBc.
  rewrite <- elements_perm in HBc.
  destruct HA as (HvalA & HkeysA & HndA).
  destruct (merge_loop_spec a (HashSet.elements (GroupUniqArrayGeneric.value B))
              (GroupUniqArrayGeneric.value A) m HvalA)
    as (set' & m' & new & Hrun & Hle & _ & Hval' & Hkeys' & _).
  { eapply Forall_impl; [exact HBc |]. by intros k (? & _). }
  set (vsB' := decode_key is_plain_column m
                 <$> HashSet.elements (GroupUniqArrayGeneric.value B)).
  assert (HkB : bytes_at m <$> HashSet.elements (GroupUniqArrayGeneric.value B)
                = key_bytes is_plain_column <$> vsB').
  { unfold vsB'. rewrite <- list_fmap_compose. apply Forall_fmap_ext_1.
    eapply Forall_impl; [exact HBc |]. by intros k (_ & ? & _). }
  exists {| GroupUniqArrayGeneric.value := set' |}, m', (uniq_inserts vsA vsB').
  unfold GroupUniqArrayGeneric.merge. rewrite Hrun. cbn [mbind result_bind].
  split_and!; [done | done | | ].
  - split_and!; [done | | by apply NoDup_uniq_inserts].
    unfold GroupUniqArrayGeneric.keys in *. cbn [GroupUniqArrayGeneric.value].
    rewrite Hkeys', HkeysA, HkB.
    apply uniq_inserts_fmap, key_bytes_inj; done.
  - intros v. rewrite elem_of_uniq_inserts. unfold vsB'.
    destruct HB as (HvalB & HkeysB & HndB).
    assert (Hperm : vsB' ≡ₚ vsB).
    { unfold vsB'. rewrite elements_perm.
      by rewrite (decode_keys_bytes is_plain_column m _ vsB). }
    fold vsB'. by rewrite Hperm.
Qed.

End generic_merge_facts.




(** * Round trip through [serialize] and [deserialize] *)

Section fixed_round_trip.
Context (sizeofT : nat) {T_eq : OperatorEq Z} `{IterationOrderLaw Z}.

Lemma fixed_wf_create : fixed_wf sizeofT GroupUniqArray.create.
Proof.
  refine (conj I (conj _ _)); [apply Forall_nil_2 | by vm_compute].
Qed.

Lemma T_range_mod (x : Z) :
  GroupUniqArray.T_range sizeofT x → x mod 2 ^ (8 * Z.of_nat sizeofT) = x.
Proof. intros Hx. by apply Z.mod_small. Qed.

Lemma deserialize_serialize_fixed (place : GroupUniqArray.State) (rest : list byte) :
  fixed_wf sizeofT place →
  ∃ place',
    GroupUniqArray.deserialize sizeofT GroupUniqArray.create
      (GroupUniqArray.serialize sizeofT place [] ++ rest) = Ok (place', rest)
    ∧ HashSet.cells (GroupUniqArray.value place')
      = HashSet.elements (GroupUniqArray.value place).
Proof.
  intros (Hnd & Hrange & Hlen).
  rewrite serialize_closed, app_nil_l, <- app_assoc.
  unfold GroupUniqArray.deserialize, HashSet.read.
  rewrite size_cells by done.
  rewrite readVarUInt_writeVarUInt by lia. cbn [mbind result_bind].
  rewrite Nat2Z.id, <- length_elements, read_cells_le_bytes.
  cbn [mbind result_bind]. eexists. split; [done |].
  cbn [GroupUniqArray.value].
  replace ((λ x, x mod 2 ^ (8 * Z.of_nat sizeofT))
             <$> HashSet.elements (GroupUniqArray.value place))
    with (HashSet.elements (GroupUniqArray.value place)).
  - rewrite cells_inserts_unequal; [done |]. rewrite app_nil_l.
    apply (unequal_cells_perm _ (HashSet.cells (GroupUniqArray.value place)));
      [symmetry; apply elements_perm | done].
  - rewrite <- (list_fmap_id (HashSet.elements _)) at 1.
    apply Forall_fmap_ext_1. rewrite elements_perm.
    eapply Forall_impl; [exact Hrange |]. intros x Hx. symmetry.
    by apply T_range_mod.
Qed.
End fixed_round_trip.

Section generic_round_trip.
Context (is_plain_column : bool) {V : Type} `{IColumn V}.
Context `{!IColumnLaws V} `{IterationOrderLaw StringRef}.

Lemma generic_wf_create (m : Memory) : generic_wf m GroupUniqArrayGeneric.create.
Proof.
  split_and!; [apply Forall_nil_2 | apply NoDup_nil_2 | apply Forall_nil_2 | by vm_compute].
Qed.

Lemma deserialize_serialize_generic (place : GroupUniqArrayGeneric.State)
    (m : Memory) (a : Region) (rest : list byte) :
  generic_wf m place →
  ∃ place' m',
    GroupUniqArrayGeneric.deserialize GroupUniqArrayGeneric.create
      (GroupUniqArrayGeneric.serialize place m [] ++ rest) (Some a) m
    = Ok (place', rest, m')
    ∧ mem_le m m'
    ∧ Forall (valid m') (HashSet.cells (GroupUniqArrayGeneric.value place'))
    ∧ GroupUniqArrayGeneric.keys place' m'
      = bytes_at m <$> HashSet.elements (GroupUniqArrayGeneric.value place).
Proof.
  intros (Hval & Hnd & Hsizes & Hlen).
  rewrite generic_serialize_closed, app_nil_l, <- app_assoc.
  unfold GroupUniqArrayGeneric.deserialize.
  unfold HashSet.size. rewrite wrap64_small by lia.
  rewrite readVarUInt_writeVarUInt by lia. cbn [mbind result_bind].
  rewrite Nat2Z.id, <- length_elements.
  rewrite <- (length_fmap (bytes_at m)).
  destruct (deserialize_loop_spec a
              (bytes_at m <$> HashSet.elements (GroupUniqArrayGeneric.value place))
              (GroupUniqArrayGeneric.value GroupUniqArrayGeneric.create) m rest)
    as (set' & m' & -> & Hle & _ & Hval' & Hkeys'); [apply Forall_nil_2 | |].
  { apply Forall_fmap. rewrite elements_perm.
    apply Forall_forall. intros k Hk. simpl.
    rewrite Forall_forall in Hval, Hsizes.
    rewrite length_bytes_at by by apply Hval. by apply Hsizes. }
  cbn [mbind result_bind]. eexists _, _. split; [done |].
  split_and!; [done | done |].
  unfold GroupUniqArrayGeneric.keys. cbn [GroupUniqArrayGeneric.value].
  rewrite Hkeys'. apply distinct_NoDup.
  unfold GroupUniqArrayGeneric.keys in Hnd. by rewrite elements_perm.
Qed.

(** The state read back holds the same values. *)
Lemma deserialize_serialize_holds (place : GroupUniqArrayGeneric.State)
    (m : Memory) (a : Region) (rest : list byte) (vs : list V) :
  generic_wf m place → holds is_plain_column m place vs →
  ∃ place' m' vs',
    GroupUniqArrayGeneric.deserialize GroupUniqArrayGeneric.create
      (GroupUniqArrayGeneric.serialize place m [] ++ rest) (Some a) m
    = Ok (place', rest, m')
    ∧ holds is_plain_column m' place' vs' ∧ vs' ≡ₚ vs.
Proof.
  intros Hwf Hholds.
  destruct (deserialize_serialize_generic place m a rest Hwf)
    as (place' & m' & Hrun & Hle & Hval' & Hkeys').
  exists place', m',
    (decode_key is_plain_column m <$> HashSet.elements (GroupUniqArrayGeneric.value place)).
  destruct Hholds as (Hval & Hkeys & Hndvs).
  assert (Hperm : decode_key is_plain_column m
                    <$> HashSet.elements (GroupUniqArrayGeneric.value place) ≡ₚ vs).
  { rewrite elements_perm. by rewrite (decode_keys_bytes is_plain_column m _ vs). }
  split_and!; [done | | done].
  split_and!; [done | | by rewrite Hperm].
  rewrite Hkeys', <- list_fmap_compose. apply Forall_fmap_ext_1.
  rewrite elements_perm.
  eapply Forall_impl;
    [exact (holds_cells is_plain_column m place vs (conj Hval (conj Hkeys Hndvs))) |].
  by intros k (_ & ? & _).
Qed.

End generic_round_trip.

(** Closed side conditions of the examples. *)
Ltac by_computation :=
  lazymatch goal with
  | |- NoDup _ => apply (bool_decide_unpack _); by vm_compute
  | |- Forall _ _ => repeat constructor; vm_compute; (done || lia || (split; congruence))
  | |- _ => vm_compute; (done || lia || (split; congruence))
  end.

Ltac fixed_wf_by_computation :=
  refine (conj _ (conj _ _));
  [apply unequal_cells_integer; by_computation | by_computation | by_computation].

(** C3.  For both aggregators and every state that satisfies the invariants
    of reachable states (the empty state included), deserializing the bytes
    produced by [serialize] into a fresh state gives a state that finalizes
    to the same distinct values. *)
Theorem C3_deserialize_serialize_same_set
    (sizeofT : nat) {T_eq : OperatorEq Z} `{IterationOrderLaw Z}
    (is_plain_column : bool) {V : Type} `{IColumn V}
    `{!IColumnLaws V} `{IterationOrderLaw StringRef}
    (place : GroupUniqArray.State)
    (place' : GroupUniqArrayGeneric.State) (vs : list V) (m : Memory) (a : Region) :
  fixed_wf sizeofT place →
  generic_wf m place' →
  holds is_plain_column m place' vs →
  (∃ back,
     GroupUniqArray.deserialize sizeofT GroupUniqArray.create
       (GroupUniqArray.serialize sizeofT place []) = Ok (back, [])
     ∧ GroupUniqArray.finalize back ≡ₚ GroupUniqArray.finalize place)
  ∧ (∃ back m',
       GroupUniqArrayGeneric.deserialize GroupUniqArrayGeneric.create
         (GroupUniqArrayGeneric.serialize place' m []) (Some a) m = Ok (back, [], m')
       ∧ GroupUniqArrayGeneric.finalize is_plain_column back m'
         ≡ₚ GroupUniqArrayGeneric.finalize is_plain_column place' m)
  ∧ fixed_wf sizeofT GroupUniqArray.create
  ∧ generic_wf m GroupUniqArrayGeneric.create
  ∧ holds is_plain_column m GroupUniqArrayGeneric.create [].
Proof.
  intros Hfixed Hgeneric Hholds. split_and!.
  - destruct (deserialize_serialize_fixed sizeofT place [] Hfixed)
      as (back & Hrun & Hcells).
    rewrite app_nil_r in Hrun. exists back. split; [done |].
    destruct Hfixed as (_ & _ & Hlen).
    rewrite !finalize_elements; [| done |].
    + by rewrite !elements_perm, Hcells, elements_perm.
    + by rewrite Hcells, length_elements.
  - destruct (deserialize_serialize_holds is_plain_column place' m a [] vs
                Hgeneric Hholds) as (back & m' & vs' & Hrun & Hback & Hperm).
    rewrite app_nil_r in Hrun. exists back, m'. split; [done |].
    by rewrite (holds_finalize is_plain_column m' back vs' Hback),
      (holds_finalize is_plain_column m place' vs Hholds).
  - apply fixed_wf_create.
  - apply generic_wf_create.
  - apply holds_create.
Qed.

Lemma C3_witness :
  let _ : OperatorEq Z := integer_eq in
  let _ : IterationOrder Z := reverse_order Z in
  let _ : IColumn (list byte) := framed_column in
  let _ : IterationOrder StringRef := reverse_order StringRef in
  fixed_wf 4 example_fixed_A
  ∧ generic_wf example_memory example_generic_A
  ∧ holds true example_memory example_generic_A [["a"%byte]; ["b"%byte]]
  ∧ (∃ back,
       GroupUniqArray.deserialize 4 GroupUniqArray.create
         (GroupUniqArray.serialize 4 example_fixed_A []) = Ok (back, [])
       ∧ GroupUniqArray.finalize back ≡ₚ GroupUniqArray.finalize example_fixed_A)
  ∧ (∃ back m',
       GroupUniqArrayGeneric.deserialize GroupUniqArrayGeneric.create
         (GroupUniqArrayGeneric.serialize example_generic_A example_memory [])
         (Some 3%nat) example_memory = Ok (back, [], m')
       ∧ GroupUniqArrayGeneric.finalize true back m'
         ≡ₚ GroupUniqArrayGeneric.finalize true example_generic_A example_memory).
Proof.
  intros T_eq oZ col oS.
  assert (Hfixed : fixed_wf 4 example_fixed_A) by fixed_wf_by_computation.
  assert (Hgeneric : generic_wf example_memory example_generic_A)
    by (split_and!; by_computation).
  assert (Hholds : holds true example_memory example_generic_A [["a"%byte]; ["b"%byte]])
    by (split_and!; by_computation).
  refine (conj Hfixed (conj Hgeneric (conj Hholds _))).
  pose proof (@C3_deserialize_serialize_same_set 4 T_eq oZ (reverse_order_law Z) true
                (list byte) col framed_column_laws oS (reverse_order_law StringRef)
                example_fixed_A example_generic_A _ example_memory 3%nat
                Hfixed Hgeneric Hholds) as (Hf & Hg & _).
  exact (conj Hf Hg).
Defined.

(** * The arena budget of the non-plain path *)

Lemma length_concat_sum (l : list (list byte)) :
  length (concat l) = sum_list_with length l.
Proof. induction l as [| x l IH]; simpl; [done |]. by rewrite length_app, IH. Qed.



(** * Copy on write *)

Section cow_facts.
Context {Derived : Type}.
Implicit Types (h : gmap nat (COWPtr.Object Derived)) (this p : nat).

Lemma new_fresh h (v : Derived) : h !! (COWPtr.new v h).2 = None.
Proof. unfold COWPtr.new. simpl. apply not_elem_of_dom, is_fresh. Qed.

Lemma clone_spec h this (o : COWPtr.Object Derived) :
  h !! this = Some o →
  ∃ h' p,
    COWPtr.clone this h = Some (h', p)
    ∧ h !! p = None
    ∧ h' !! p = Some {| COWPtr.members := COWPtr.members o; COWPtr.ref_counter := 1 |}
    ∧ ∀ q, q ≠ p → h' !! q = h !! q.
Proof.
  intros Hthis. unfold COWPtr.clone. rewrite Hthis. cbn [mbind option_bind].
  pose proof (new_fresh h (COWPtr.members o)) as Hfresh.
  unfold COWPtr.new in *. cbn [fst snd] in *.
  set (p := fresh (dom h)) in *.
  eexists _, p. split; [done |]. split_and!; [done | |].
  - unfold COWPtr.add_ref. by rewrite lookup_alter_eq, lookup_insert_eq.
  - intros q Hq. unfold COWPtr.add_ref.
    by rewrite lookup_alter_ne, lookup_insert_ne.
Qed.

Lemma write_lookup h p (v : Derived) (q : nat) :
  q ≠ p → COWPtr.write p v h !! q = h !! q.
Proof. intros Hq. unfold COWPtr.write. by rewrite lookup_alter_ne. Qed.

Lemma write_read h p (v : Derived) :
  is_Some (h !! p) → COWPtr.read p (COWPtr.write p v h) = Some v.
Proof.
  intros [o Ho]. unfold COWPtr.read, COWPtr.write.
  by rewrite lookup_alter_eq, Ho.
Qed.
End cow_facts.

(** C5.  [mutate()] on an object whose reference count is 1 returns a handle
    to the same object, and no object is created; when the count is 2 or
    more it returns a handle to a new object, distinct from every object
    there was, with the same members, and a later write through that handle
    leaves the original object, as every other handle sees it, unchanged. *)
Theorem C5_mutate_aliases_or_clones
    {Derived : Type} (h : gmap nat (COWPtr.Object Derived)) (this : nat)
    (o : COWPtr.Object Derived) :
  h !! this = Some o →
  (COWPtr.ref_counter o = 1%nat →
   ∃ h', COWPtr.mutate this h = Some (h', this)
         ∧ dom h' = dom h
         ∧ COWPtr.read this h' = Some (COWPtr.members o)
         ∧ ∀ q, q ≠ this → h' !! q = h !! q)
  ∧ ((2 ≤ COWPtr.ref_counter o)%nat →
     ∃ h' p, COWPtr.mutate this h = Some (h', p)
             ∧ p ≠ this
             ∧ h !! p = None
             ∧ COWPtr.read p h' = Some (COWPtr.members o)
             ∧ COWPtr.use_count h' p = 1%nat
             ∧ h' !! this = Some o
             ∧ ∀ v, COWPtr.read p (COWPtr.write p v h') = Some v
                    ∧ COWPtr.read this (COWPtr.write p v h') = Some (COWPtr.members o)
                    ∧ ∀ q, q ≠ p → COWPtr.write p v h' !! q = h !! q).
Proof.
  intros Hthis. split; intros Hcount.
  - exists (COWPtr.add_ref this h).
    unfold COWPtr.mutate, COWPtr.use_count. rewrite Hthis, Hcount.
    cbn [Nat.ltb Nat.leb]. unfold COWPtr.assumeMutable, COWPtr.getPtr, COWPtr.add_ref.
    split_and!; [done | | |].
    + apply dom_alter_L.
    + unfold COWPtr.read. by rewrite lookup_alter_eq, Hthis.
    + intros q Hq. by rewrite lookup_alter_ne.
  - destruct (clone_spec h this o Hthis) as (h' & p & Hclone & Hfresh & Hp & Hother).
    exists h', p.
    assert (Hne : p ≠ this) by (intros ->; congruence).
    unfold COWPtr.mutate, COWPtr.use_count. rewrite Hthis.
    destruct (1 <? COWPtr.ref_counter o)%nat eqn:E;
      [| apply Nat.ltb_ge in E; lia].
    split_and!; [done | done | done | | | |].
    + unfold COWPtr.read. by rewrite Hp.
    + by rewrite Hp.
    + by rewrite Hother.
    + intros v. split_and!.
      * apply write_read. by rewrite Hp.
      * unfold COWPtr.read. rewrite write_lookup, Hother, Hthis by done. done.
      * intros q Hq. by rewrite write_lookup, Hother.
Qed.

Lemma C5_witness :
  let o : COWPtr.Object Z := {| COWPtr.members := 1; COWPtr.ref_counter := 2 |} in
  let h : gmap nat (COWPtr.Object Z) := {[ 0%nat := o ]} in
  h !! 0%nat = Some o
  ∧ (2 ≤ COWPtr.ref_counter o)%nat
  ∧ ∃ h' p, COWPtr.mutate 0%nat h = Some (h', p)
            ∧ p ≠ 0%nat
            ∧ COWPtr.read p h' = Some 1
            ∧ COWPtr.read 0%nat (COWPtr.write p 2 h') = Some 1
            ∧ COWPtr.read p (COWPtr.write p 2 h') = Some 2.
Proof.
  intros o h.
  assert (Hthis : h !! 0%nat = Some o) by done.
  assert (Hcount : (2 ≤ COWPtr.ref_counter o)%nat) by (simpl; lia).
  refine (conj Hthis (conj Hcount _)).
  destruct (proj2 (C5_mutate_aliases_or_clones h 0%nat o Hthis) Hcount)
    as (h' & p & Hm & Hne & _ & Hread & _ & _ & Hw).
  exists h', p. destruct (Hw 2) as (Hwp & Hwt & _).
  by split_and!.
Defined.

(** * Calls without an arena *)

Section no_arena_facts.
Lemma merge_loop_no_arena (rhs_elems : list StringRef) (cur : HashSet.t StringRef)
    (m : Memory) :
  Forall (valid m) (HashSet.cells cur) → Forall (valid m) rhs_elems →
  GroupUniqArrayGeneric.merge_loop rhs_elems cur None m
  = if decide (Forall (λ k, bytes_at m k ∈ bytes_at m <$> HashSet.cells cur) rhs_elems)
    then Ok (cur, m) else Fail NullArenaDereference.
Proof.
  intros Hcur Hrhs. induction Hrhs as [| elem rest Helem Hrest IH].
  { by rewrite decide_True by apply Forall_nil_2. }
  cbn [GroupUniqArrayGeneric.merge_loop].
  destruct (emplace_cases (StringRef_eqb m) (bytes_at m) (valid m)
              (StringRef_eqb_key m) elem cur Hcur Helem) as [(Hin & it & ->) | (Hnin & ->)].
  - rewrite IH. destruct (decide (Forall _ rest)) as [Hall | Hnall].
    + by rewrite decide_True by by apply Forall_cons.
    + rewrite decide_False; [done |]. by intros [_ ?]%Forall_cons.
  - cbn [Arena.deref mbind result_bind].
    rewrite decide_False; [done |]. by intros [? _]%Forall_cons.
Qed.
End no_arena_facts.

(** C6, as the code has it.  The generic aggregator (both variants) reports
    [allocatesMemoryInArena() = true] and never tests the arena pointer.
    Called without an arena, [merge] with no new key in [rhs] and
    [deserialize] of a zero count return normally and leave the state as it
    was; [add], a [merge] that meets a new key and a [deserialize] of a
    non-zero count dereference the null pointer. *)
Theorem C6_no_arena_is_not_checked
    (is_plain_column : bool) {V : Type} `{IColumn V} `{IterationOrderLaw StringRef}
    (place rhs : GroupUniqArrayGeneric.State) (column : Column V) (row_num : nat)
    (buf rest : IO.ReadBuffer) (n : Z) (m : Memory) :
  Forall (valid m) (HashSet.cells (GroupUniqArrayGeneric.value place)) →
  Forall (valid m) (HashSet.cells (GroupUniqArrayGeneric.value rhs)) →
  IO.readVarUInt buf = Ok (n, rest) →
  GroupUniqArrayGeneric.allocatesMemoryInArena = true
  ∧ GroupUniqArrayGeneric.addImpl is_plain_column place column row_num None m
    = Fail NullArenaDereference
  ∧ GroupUniqArrayGeneric.merge place rhs None m
    = (if decide (GroupUniqArrayGeneric.keys rhs m ⊆ GroupUniqArrayGeneric.keys place m)
       then Ok (place, m) else Fail NullArenaDereference)
  ∧ GroupUniqArrayGeneric.deserialize place buf None m
    = (if decide (n = 0) then Ok (place, rest, m) else Fail NullArenaDereference).
Proof.
  intros Hplace Hrhs Hread. split_and!; [done | done | |].
  - unfold GroupUniqArrayGeneric.merge. rewrite merge_loop_no_arena; [| done |].
    2: { by rewrite elements_perm. }
    assert (Hiff : Forall (λ k, bytes_at m k
                                ∈ bytes_at m <$> HashSet.cells (GroupUniqArrayGeneric.value place))
                          (HashSet.elements (GroupUniqArrayGeneric.value rhs))
                   ↔ GroupUniqArrayGeneric.keys rhs m ⊆ GroupUniqArrayGeneric.keys place m).
    { rewrite elements_perm, Forall_forall. unfold GroupUniqArrayGeneric.keys. split.
      - intros Hall b (k & -> & Hk)%list_elem_of_fmap. by apply Hall.
      - intros Hsub k Hk. apply Hsub. by apply list_elem_of_fmap_2. }
    destruct (decide (Forall _ _)) as [Hall | Hnall].
    + rewrite decide_True by by apply Hiff. cbn [mbind result_bind]. by destruct place.
    + rewrite decide_False; [done |]. intros Hsub. by apply Hnall, Hiff.
  - unfold GroupUniqArrayGeneric.deserialize. rewrite Hread. cbn [mbind result_bind].
    destruct (decide (n = 0)) as [-> | Hn].
    + cbn. by destruct place.
    + pose proof (wrap64_range 0) as _.
      assert (Hpos : 0 < n).
      { unfold IO.readVarUInt in Hread.
        destruct (IO.readVarUInt_loop 10 0 0 buf) as [[x r] |]; [| done].
        cbn [mbind result_bind] in Hread. injection Hread as <- _.
        pose proof (wrap64_range x). lia. }
      destruct (Z.to_nat n) as [| k] eqn:E; [lia |]. done.
Qed.

Lemma C6_witness :
  let _ : IColumn (list byte) := framed_column in
  let _ : IterationOrder StringRef := insertion_order StringRef in
  let column := {| buffer := 0%nat; rows := [["a"%byte]] |} in
  Forall (valid example_memory)
    (HashSet.cells (GroupUniqArrayGeneric.value example_generic_A))
  ∧ Forall (valid example_memory)
      (HashSet.cells (GroupUniqArrayGeneric.value example_generic_B))
  ∧ IO.readVarUInt [x02; x01; "c"%byte] = Ok (2, [x01; "c"%byte])
  ∧ GroupUniqArrayGeneric.allocatesMemoryInArena = true
  ∧ GroupUniqArrayGeneric.addImpl true example_generic_A column 0 None example_memory
    = Fail NullArenaDereference
  ∧ GroupUniqArrayGeneric.merge example_generic_A example_generic_B None example_memory
    = (if decide (GroupUniqArrayGeneric.keys example_generic_B example_memory
                  ⊆ GroupUniqArrayGeneric.keys example_generic_A example_memory)
       then Ok (example_generic_A, example_memory) else Fail NullArenaDereference)
  ∧ GroupUniqArrayGeneric.deserialize example_generic_A [x02; x01; "c"%byte] None
      example_memory
    = (if decide (2 = 0) then Ok (example_generic_A, [x01; "c"%byte], example_memory)
       else Fail NullArenaDereference).
Proof.
  intros col oS column.
  assert (HA : Forall (valid example_memory)
                 (HashSet.cells (GroupUniqArrayGeneric.value example_generic_A)))
    by by_computation.
  assert (HB : Forall (valid example_memory)
                 (HashSet.cells (GroupUniqArrayGeneric.value example_generic_B)))
    by by_computation.
  assert (Hread : IO.readVarUInt [x02; x01; "c"%byte] = Ok (2, [x01; "c"%byte]))
    by (by vm_compute).
  refine (conj HA (conj HB (conj Hread _))).
  exact (@C6_no_arena_is_not_checked true (list byte) col oS
           (insertion_order_law StringRef) example_generic_A example_generic_B
           column 0 _ _ _ example_memory HA HB Hread).
Defined.

(** C6, as the claim has it, fails: without an arena [deserialize] of a zero
    count and [merge] of an empty state return normally. *)
Lemma C6_counterexample :
  GroupUniqArrayGeneric.deserialize GroupUniqArrayGeneric.create [x00] None ∅
  = Ok (GroupUniqArrayGeneric.create, [], ∅)
  ∧ GroupUniqArrayGeneric.merge (H0 := insertion_order StringRef)
      example_generic_A GroupUniqArrayGeneric.create None example_memory
    = Ok (example_generic_A, example_memory).
Proof. split; by vm_compute. Qed.

(** * Truncated input *)

Lemma length_concat_le_bytes (w : nat) (xs : list Z) :
  length (concat (IO.le_bytes w <$> xs)) = (length xs * w)%nat.
Proof.
  induction xs as [| x xs IH]; [done |].
  rewrite fmap_cons. cbn [concat length].
  rewrite length_app, length_le_bytes, IH. lia.
Qed.

Lemma take_app_cases {A : Type} (k : nat) (l1 l2 : list A) :
  (k < length l1 ∧ take k (l1 ++ l2) = take k l1)%nat
  ∨ (length l1 ≤ k ∧ take k (l1 ++ l2) = l1 ++ take (k - length l1) l2)%nat.
Proof.
  destruct (decide (k < length l1)%nat) as [Hlt | Hge].
  - left. split; [done |]. apply take_app_le. lia.
  - right. split; [lia |]. rewrite take_app. f_equal. apply take_ge. lia.
Qed.

Section fixed_truncated.
Context (sizeofT : nat) {T_eq : OperatorEq Z} `{IterationOrderLaw Z}.

Lemma deserialize_fixed_short (into : GroupUniqArray.State) (buf body : list byte)
    (n : Z) :
  IO.readVarUInt buf = Ok (n, body) →
  (length body < Z.to_nat n * sizeofT)%nat →
  GroupUniqArray.deserialize sizeofT into buf = Fail DecodingError.
Proof.
  intros Hread Hshort. unfold GroupUniqArray.deserialize, HashSet.read.
  rewrite Hread. cbn [mbind result_bind]. by rewrite read_cells_short.
Qed.

Lemma deserialize_fixed_truncated (place into : GroupUniqArray.State) (k : nat) :
  Z.of_nat (length (HashSet.cells (GroupUniqArray.value place))) < UInt64_MAX1 →
  (k < length (GroupUniqArray.serialize sizeofT place []))%nat →
  GroupUniqArray.deserialize sizeofT into (take k (GroupUniqArray.serialize sizeofT place []))
  = Fail DecodingError.
Proof.
  intros Hlen. rewrite serialize_closed, app_nil_l, size_cells by done.
  rewrite length_app, length_concat_le_bytes, length_elements. intros Hk.
  destruct (take_app_cases k
              (IO.writeVarUInt (Z.of_nat (length (HashSet.cells (GroupUniqArray.value place)))) [])
              (concat (IO.le_bytes sizeofT <$> HashSet.elements (GroupUniqArray.value place))))
    as [[Hlt ->] | [Hge ->]].
  - unfold GroupUniqArray.deserialize, HashSet.read.
    by rewrite readVarUInt_truncated.
  - eapply deserialize_fixed_short; [apply readVarUInt_writeVarUInt; lia |].
    rewrite Nat2Z.id, length_take, length_concat_le_bytes, length_elements. lia.
Qed.
End fixed_truncated.

Section generic_truncated.
Context `{IterationOrderLaw StringRef}.

Lemma readStringBinaryInto_truncated (a : Region) (k : list byte) (j : nat) (m : Memory) :
  Z.of_nat (length k) < UInt64_MAX1 →
  (j < length (length_prefixed k))%nat →
  readStringBinaryInto a (take j (length_prefixed k)) m = Fail DecodingError.
Proof.
  intros Hlen Hj. unfold readStringBinaryInto, length_prefixed in *.
  rewrite length_app in Hj.
  destruct (take_app_cases j (IO.writeVarUInt (Z.of_nat (length k)) []) k)
    as [[Hlt ->] | [Hge ->]].
  - by rewrite readVarUInt_truncated.
  - rewrite readVarUInt_writeVarUInt by lia. cbn [mbind result_bind].
    rewrite Nat2Z.id, readStrict_short; [done |]. rewrite length_take. lia.
Qed.

Lemma deserialize_loop_truncated (a : Region) (ks : list (list byte)) :
  ∀ (set : HashSet.t StringRef) (m : Memory) (j : nat),
    Forall (λ k, Z.of_nat (length k) < UInt64_MAX1) ks →
    (j < length (concat (length_prefixed <$> ks)))%nat →
    GroupUniqArrayGeneric.deserialize_loop (length ks) set
      (take j (concat (length_prefixed <$> ks))) (Some a) m = Fail DecodingError.
Proof.
  induction ks as [| k ks IH]; intros set m j Hks Hj; [simpl in Hj; lia |].
  apply Forall_cons in Hks as [Hk Hks].
  cbn [length fmap list_fmap concat GroupUniqArrayGeneric.deserialize_loop
       Arena.deref mbind result_bind] in *.
  rewrite length_app in Hj.
  destruct (take_app_cases j (length_prefixed k) (concat (length_prefixed <$> ks)))
    as [[Hlt ->] | [Hge ->]].
  - by rewrite readStringBinaryInto_truncated.
  - unfold readStringBinaryInto, length_prefixed at 1.
    rewrite <- app_assoc, readVarUInt_writeVarUInt by lia.
    cbn [mbind result_bind]. rewrite Nat2Z.id, readStrict_app.
    cbn [mbind result_bind].
    destruct (Arena.insert a k m) as [m1 p].
    apply IH; [done | lia].
Qed.

Lemma deserialize_generic_truncated (place into : GroupUniqArrayGeneric.State)
    (m : Memory) (a : Region) (j : nat) :
  generic_wf m place →
  (j < length (GroupUniqArrayGeneric.serialize place m []))%nat →
  GroupUniqArrayGeneric.deserialize into
    (take j (GroupUniqArrayGeneric.serialize place m [])) (Some a) m
  = Fail DecodingError.
Proof.
  intros (Hval & Hnd & Hsizes & Hlen).
  rewrite generic_serialize_closed, app_nil_l.
  unfold HashSet.size. rewrite wrap64_small by lia.
  rewrite length_app. intros Hj.
  unfold GroupUniqArrayGeneric.deserialize.
  destruct (take_app_cases j
              (IO.writeVarUInt
                 (Z.of_nat (length (HashSet.cells (GroupUniqArrayGeneric.value place)))) [])
              (concat (length_prefixed
                         <$> (bytes_at m
                                <$> HashSet.elements (GroupUniqArrayGeneric.value place)))))
    as [[Hlt ->] | [Hge ->]].
  - by rewrite readVarUInt_truncated.
  - rewrite readVarUInt_writeVarUInt by lia. cbn [mbind result_bind].
    rewrite Nat2Z.id, <- length_elements, <- (length_fmap (bytes_at m)).
    rewrite deserialize_loop_truncated;
      [done | | rewrite length_fmap, length_elements; lia].
    apply Forall_fmap. rewrite elements_perm.
    apply Forall_forall. intros k Hk. simpl.
    rewrite Forall_forall in Hval, Hsizes.
    rewrite length_bytes_at by by apply Hval. by apply Hsizes.
Qed.
End generic_truncated.

(** C7.  For both aggregators, [deserialize] of a serialized state that was
    cut short anywhere (inside the element count or inside the elements)
    fails with a decoding error and returns no state; so does the
    fixed-width [deserialize] whenever fewer bytes follow the count than the
    count announces, and either [deserialize] on a count varint cut short. *)
Theorem C7_truncated_input_is_a_decoding_error
    (sizeofT : nat) {T_eq : OperatorEq Z}
    `{IterationOrderLaw Z} `{IterationOrderLaw StringRef}
    (place into : GroupUniqArray.State)
    (place' into' : GroupUniqArrayGeneric.State) (m : Memory) (a : Region)
    (k j : nat) :
  Z.of_nat (length (HashSet.cells (GroupUniqArray.value place))) < UInt64_MAX1 →
  generic_wf m place' →
  (k < length (GroupUniqArray.serialize sizeofT place []))%nat →
  (j < length (GroupUniqArrayGeneric.serialize place' m []))%nat →
  GroupUniqArray.deserialize sizeofT into
    (take k (GroupUniqArray.serialize sizeofT place [])) = Fail DecodingError
  ∧ GroupUniqArrayGeneric.deserialize into'
      (take j (GroupUniqArrayGeneric.serialize place' m [])) (Some a) m
    = Fail DecodingError
  ∧ (∀ buf n body,
       IO.readVarUInt buf = Ok (n, body) →
       (length body < Z.to_nat n * sizeofT)%nat →
       GroupUniqArray.deserialize sizeofT into buf = Fail DecodingError)
  ∧ (∀ x i,
       (i < length (IO.writeVarUInt x []))%nat →
       GroupUniqArray.deserialize sizeofT into (take i (IO.writeVarUInt x []))
       = Fail DecodingError
       ∧ GroupUniqArrayGeneric.deserialize into' (take i (IO.writeVarUInt x []))
           (Some a) m = Fail DecodingError).
Proof.
  intros Hlen Hwf Hk Hj. split_and!.
  - by apply deserialize_fixed_truncated.
  - by apply deserialize_generic_truncated.
  - intros buf n body. apply deserialize_fixed_short.
  - intros x i Hi. split.
    + unfold GroupUniqArray.deserialize, HashSet.read.
      by rewrite readVarUInt_truncated.
    + unfold GroupUniqArrayGeneric.deserialize. by rewrite readVarUInt_truncated.
Qed.

Lemma C7_witness :
  let _ : OperatorEq Z := integer_eq in
  let _ : IterationOrder Z := reverse_order Z in
  let _ : IterationOrder StringRef := reverse_order StringRef in
  Z.of_nat (length (HashSet.cells (GroupUniqArray.value example_fixed_A))) < UInt64_MAX1
  ∧ generic_wf example_memory example_generic_A
  ∧ (5 < length (GroupUniqArray.serialize 4 example_fixed_A []))%nat
  ∧ (4 < length (GroupUniqArrayGeneric.serialize example_generic_A example_memory []))%nat
  ∧ GroupUniqArray.deserialize 4 GroupUniqArray.create
      (take 5 (GroupUniqArray.serialize 4 example_fixed_A [])) = Fail DecodingError
  ∧ GroupUniqArrayGeneric.deserialize GroupUniqArrayGeneric.create
      (take 4 (GroupUniqArrayGeneric.serialize example_generic_A example_memory []))
      (Some 3%nat) example_memory
    = Fail DecodingError.
Proof.
  intros T_eq oZ oS.
  assert (Hlen : Z.of_nat (length (HashSet.cells (GroupUniqArray.value example_fixed_A)))
                 < UInt64_MAX1) by by_computation.
  assert (Hwf : generic_wf example_memory example_generic_A)
    by (split_and!; by_computation).
  assert (Hk : (5 < length (GroupUniqArray.serialize 4 example_fixed_A []))%nat)
    by by_computation.
  assert (Hj : (4 < length (GroupUniqArrayGeneric.serialize example_generic_A
                              example_memory []))%nat) by by_computation.
  refine (conj Hlen (conj Hwf (conj Hk (conj Hj _)))).
  pose proof (@C7_truncated_input_is_a_decoding_error 4 T_eq oZ (reverse_order_law Z) oS
                (reverse_order_law StringRef) example_fixed_A GroupUniqArray.create
                example_generic_A GroupUniqArrayGeneric.create example_memory 3%nat
                5%nat 4%nat Hlen Hwf Hk Hj) as (Hf & Hg & _).
  exact (conj Hf Hg).
Defined.

(** * The serialized format *)

Lemma base128_writeVarUInt_loop (n : nat) : ∀ x,
  0 ≤ x < 128 ^ Z.of_nat (S n) →
  base128_value (IO.writeVarUInt_loop (S n) x) = x
  ∧ base128_framed (IO.writeVarUInt_loop (S n) x).
Proof.
  induction n as [| n IH]; intros x Hx;
    rewrite writeVarUInt_loop_S by lia;
    pose proof (Z.mod_pos_bound x 128 ltac:(lia)) as Hm;
    destruct (127 <? x) eqn:E.
  1: { apply Z.ltb_lt in E. change (128 ^ Z.of_nat 1) with 128 in Hx. lia. }
  2: { apply Z.ltb_lt in E.
       destruct (IH (x / 128)) as (Hv & body & last & Hb & Hbody & Hlast).
       { rewrite (Nat2Z.inj_succ (S n)), Z.pow_succ_r in Hx by lia.
         split; [apply Z.div_pos; lia | apply Z.div_lt_upper_bound; lia]. }
       split.
       - cbn [base128_value foldr]. fold (base128_value (IO.writeVarUInt_loop (S n) (x / 128))).
         rewrite Hv, Z_of_byte_of_Z, (Z.mod_small (x mod 128 + 128) 256) by lia.
         replace ((x mod 128 + 128) mod 128) with (x mod 128)
           by (apply (Z.mod_unique _ _ 1); lia).
         pose proof (Z.div_mod x 128 ltac:(lia)). lia.
       - exists (byte_of_Z (x mod 128 + 128) :: body), last.
         split_and!; [by rewrite Hb | | done].
         apply Forall_cons. split; [| done].
         rewrite Z_of_byte_of_Z, Z.mod_small; lia. }
  all: apply Z.ltb_ge in E; split;
    [ cbn [base128_value foldr];
      rewrite Z_of_byte_of_Z, (Z.mod_small x 256), (Z.mod_small x 128) by lia; lia
    | exists [], (byte_of_Z x); split_and!; [done | apply Forall_nil_2 |];
      rewrite Z_of_byte_of_Z, Z.mod_small; lia ].
Qed.

Lemma base128_writeVarUInt (x : Z) :
  0 ≤ x < UInt64_MAX1 →
  base128_value (IO.writeVarUInt x []) = x ∧ base128_framed (IO.writeVarUInt x []).
Proof.
  intros Hx. unfold IO.writeVarUInt. rewrite app_nil_l, wrap64_small by done.
  apply (base128_writeVarUInt_loop 9). split; [apply Hx |].
  eapply Z.lt_le_trans; [apply Hx | apply UInt64_ten_groups].
Qed.

Lemma little_endian_le_value (bs : list byte) : little_endian_value bs = IO.le_value bs.
Proof.
  induction bs as [| b bs IH]; [done |].
  cbn [little_endian_value IO.le_value foldr].
  fold (little_endian_value bs). rewrite IH.
  pose proof (Z_of_byte_range b). pose proof (le_value_nonneg bs).
  by rewrite lor_shiftl8 by lia.
Qed.

(** C8.  The bytes [serialize] appends are the base-128 little-endian varint
    of the element count followed, in the iteration order of the set, by
    every element: as its [sizeof(T)] little-endian bytes with no separators
    (fixed-width aggregator), or as a varint length followed by the bytes of
    the key (generic aggregator). *)
Theorem C8_serialized_format
    (sizeofT : nat) `{IterationOrder Z} `{IterationOrder StringRef}
    (place : GroupUniqArray.State) (place' : GroupUniqArrayGeneric.State)
    (m : Memory) (buf : IO.WriteBuffer) :
  GroupUniqArray.serialize sizeofT place buf
  = buf ++ IO.writeVarUInt (HashSet.size (GroupUniqArray.value place)) []
        ++ concat (IO.le_bytes sizeofT <$> HashSet.elements (GroupUniqArray.value place))
  ∧ GroupUniqArrayGeneric.serialize place' m buf
    = buf ++ IO.writeVarUInt (HashSet.size (GroupUniqArrayGeneric.value place')) []
          ++ concat ((λ key, IO.writeVarUInt (Z.of_nat (length key)) [] ++ key)
                       <$> (bytes_at m
                              <$> HashSet.elements (GroupUniqArrayGeneric.value place')))
  ∧ (∀ x, 0 ≤ x < UInt64_MAX1 →
          base128_value (IO.writeVarUInt x []) = x
          ∧ base128_framed (IO.writeVarUInt x []))
  ∧ (∀ x, length (IO.le_bytes sizeofT x) = sizeofT
          ∧ little_endian_value (IO.le_bytes sizeofT x) = x mod 2 ^ (8 * Z.of_nat sizeofT))
  ∧ (0 ≤ HashSet.size (GroupUniqArray.value place) < UInt64_MAX1
     ∧ 0 ≤ HashSet.size (GroupUniqArrayGeneric.value place') < UInt64_MAX1)
  ∧ (Z.of_nat (length (HashSet.cells (GroupUniqArray.value place))) < UInt64_MAX1 →
     HashSet.size (GroupUniqArray.value place)
     = Z.of_nat (length (HashSet.cells (GroupUniqArray.value place))))
  ∧ (Z.of_nat (length (HashSet.cells (GroupUniqArrayGeneric.value place'))) < UInt64_MAX1 →
     HashSet.size (GroupUniqArrayGeneric.value place')
     = Z.of_nat (length (HashSet.cells (GroupUniqArrayGeneric.value place')))).
Proof.
  split; [apply serialize_closed |].
  split; [apply generic_serialize_closed |].
  split; [apply base128_writeVarUInt |].
  split.
  { intros x. split; [apply length_le_bytes |].
    by rewrite little_endian_le_value, le_value_le_bytes. }
  split; [split; apply wrap64_range |].
  split; intros Hlt; unfold HashSet.size; apply wrap64_small; lia.
Qed.

(** * The plain and the non-plain path *)

Section generic_add_holds.
Context (is_plain_column : bool) {V : Type} `{EqDecision V} `{IColumn V}.
Context `{!IColumnLaws V}.

Lemma add_each_holds (column : Column V) (a : Region) (m : Memory) :
  column_ready is_plain_column m column a →
  ∃ place' m',
    GroupUniqArrayGeneric.add_each is_plain_column GroupUniqArrayGeneric.create
      column (Some a) m = Ok (place', m')
    ∧ mem_le m m'
    ∧ holds is_plain_column m' place' (distinct (rows column)).
Proof.
  intros Hready.
  destruct (add_each_spec is_plain_column a GroupUniqArrayGeneric.create column m)
    as (place' & m' & new & Hadd & Hle & _ & Hval & Hkeys & _);
    [apply Forall_nil_2 | done |].
  exists place', m'. split_and!; [done | done |].
  split_and!; [done | | apply NoDup_distinct].
  rewrite Hkeys. unfold distinct.
  change (GroupUniqArrayGeneric.keys GroupUniqArrayGeneric.create m)
    with (key_bytes is_plain_column <$> []).
  apply uniq_inserts_fmap, key_bytes_inj; done.
Qed.
End generic_add_holds.

(** C9.  For every column of a type that has both encodings, the plain-path
    and the non-plain-path generic aggregator, each decoding its keys its
    own way in [insertResultInto], finalize to rearrangements of the same
    values, the distinct values of the column. *)
Theorem C9_plain_and_non_plain_agree
    {V : Type} `{EqDecision V} `{IColumn V} `{!IColumnLaws V}
    `{IterationOrderLaw StringRef}
    (column : Column V) (a_plain a_non_plain : Region) (m : Memory) :
  column_stored m column →
  buffer column ≠ a_plain →
  ∃ plain m_plain non_plain m_non_plain,
    GroupUniqArrayGeneric.add_each true GroupUniqArrayGeneric.create column
      (Some a_plain) m = Ok (plain, m_plain)
    ∧ GroupUniqArrayGeneric.add_each false GroupUniqArrayGeneric.create column
        (Some a_non_plain) m = Ok (non_plain, m_non_plain)
    ∧ GroupUniqArrayGeneric.finalize true plain m_plain
      ≡ₚ GroupUniqArrayGeneric.finalize false non_plain m_non_plain
    ∧ GroupUniqArrayGeneric.finalize true plain m_plain ≡ₚ distinct (rows column)
    ∧ GroupUniqArrayGeneric.keys plain m_plain = distinct (raw_bytes <$> rows column)
    ∧ GroupUniqArrayGeneric.keys non_plain m_non_plain
      = distinct (serialized_bytes <$> rows column).
Proof.
  intros Hstored Hbuf.
  destruct (add_each_holds true column a_plain m) as (p & mp & Hp & _ & Hhp);
    [by intros _ |].
  destruct (add_each_holds false column a_non_plain m) as (q & mq & Hq & _ & Hhq);
    [by intros ? |].
  exists p, mp, q, mq.
  rewrite (holds_finalize true mp p _ Hhp), (holds_finalize false mq q _ Hhq).
  split_and!; [done | done | done | done | |].
  - destruct Hhp as (_ & -> & _). symmetry. unfold distinct.
    apply (uniq_inserts_fmap raw_bytes (rows column) (key_bytes_inj true) []).
  - destruct Hhq as (_ & -> & _). symmetry. unfold distinct.
    apply (uniq_inserts_fmap serialized_bytes (rows column) (key_bytes_inj false) []).
Qed.

Lemma C9_witness :
  let _ : IColumn (list byte) := framed_column in
  let _ : IterationOrder StringRef := reverse_order StringRef in
  let column := {| buffer := 0%nat;
                   rows := [["a"%byte]; ["b"%byte; "c"%byte]; ["a"%byte]] |} in
  let m : Memory := {[ 0%nat := ["a"%byte; "b"%byte; "c"%byte; "a"%byte] ]} in
  column_stored m column
  ∧ buffer column ≠ 1%nat
  ∧ ∃ plain m_plain non_plain m_non_plain,
      GroupUniqArrayGeneric.add_each true GroupUniqArrayGeneric.create column
        (Some 1%nat) m = Ok (plain, m_plain)
      ∧ GroupUniqArrayGeneric.add_each false GroupUniqArrayGeneric.create column
          (Some 2%nat) m = Ok (non_plain, m_non_plain)
      ∧ GroupUniqArrayGeneric.finalize true plain m_plain
        ≡ₚ GroupUniqArrayGeneric.finalize false non_plain m_non_plain
      ∧ GroupUniqArrayGeneric.finalize true plain m_plain ≡ₚ distinct (rows column)
      ∧ GroupUniqArrayGeneric.keys plain m_plain = distinct (raw_bytes <$> rows column)
      ∧ GroupUniqArrayGeneric.keys non_plain m_non_plain
        = distinct (serialized_bytes <$> rows column).
Proof.
  intros col oS column m.
  assert (Hstored : column_stored m column) by done.
  assert (Hbuf : buffer column ≠ 1%nat) by done.
  refine (conj Hstored (conj Hbuf _)).
  exact (@C9_plain_and_non_plain_agree (list byte) _ col framed_column_laws oS
           (reverse_order_law StringRef) column 1%nat 2%nat m Hstored Hbuf).
Defined.

(** * [insertResultInto] appends one array *)

(** C10.  For both aggregators and every state, [insertResultInto] appends
    exactly one offset, the previous last offset (0 for an empty column)
    plus the size of the set, and appends the elements of the set, as many
    as its size, to the nested column; the offsets and values that were
    there stay as they were.  For the empty state the offset appended is the
    previous one and no value is appended. *)
Theorem C10_insertResultInto_appends_one_array
    `{IterationOrderLaw Z}
    (is_plain_column : bool) {V : Type} `{IColumn V} `{IterationOrderLaw StringRef}
    (place : GroupUniqArray.State) (to : ColumnArray Z)
    (place' : GroupUniqArrayGeneric.State) (m : Memory) (to' : ColumnArray V) :
  0 ≤ back_or_zero (offsets to) →
  back_or_zero (offsets to)
    + Z.of_nat (length (HashSet.cells (GroupUniqArray.value place))) < UInt64_MAX1 →
  Z.of_nat (length (nested to))
    + Z.of_nat (length (HashSet.cells (GroupUniqArray.value place))) < UInt64_MAX1 →
  0 ≤ back_or_zero (offsets to') →
  back_or_zero (offsets to')
    + Z.of_nat (length (HashSet.cells (GroupUniqArrayGeneric.value place'))) < UInt64_MAX1 →
  (offsets (GroupUniqArray.insertResultInto place to)
   = offsets to ++ [back_or_zero (offsets to)
                    + Z.of_nat (length (HashSet.cells (GroupUniqArray.value place)))]
   ∧ nested (GroupUniqArray.insertResultInto place to)
     = nested to ++ HashSet.elements (GroupUniqArray.value place)
   ∧ length (HashSet.elements (GroupUniqArray.value place))
     = length (HashSet.cells (GroupUniqArray.value place)))
  ∧ (offsets (GroupUniqArrayGeneric.insertResultInto is_plain_column place' m to')
     = offsets to' ++ [back_or_zero (offsets to')
                       + Z.of_nat (length (HashSet.cells
                                             (GroupUniqArrayGeneric.value place')))]
     ∧ nested (GroupUniqArrayGeneric.insertResultInto is_plain_column place' m to')
       = nested to'
         ++ (decode_key is_plain_column m
               <$> HashSet.elements (GroupUniqArrayGeneric.value place'))
     ∧ length (decode_key is_plain_column m
                 <$> HashSet.elements (GroupUniqArrayGeneric.value place'))
       = length (HashSet.cells (GroupUniqArrayGeneric.value place')))
  ∧ (offsets (GroupUniqArray.insertResultInto GroupUniqArray.create to)
     = offsets to ++ [back_or_zero (offsets to)]
     ∧ nested (GroupUniqArray.insertResultInto GroupUniqArray.create to) = nested to
     ∧ offsets (GroupUniqArrayGeneric.insertResultInto is_plain_column
                  GroupUniqArrayGeneric.create m to')
       = offsets to' ++ [back_or_zero (offsets to')]
     ∧ nested (GroupUniqArrayGeneric.insertResultInto is_plain_column
                 GroupUniqArrayGeneric.create m to') = nested to').
Proof.
  intros Hback Hoff Hdata Hback' Hoff'. split; [| split].
  - rewrite insertResultInto_closed by done. cbn [offsets nested].
    rewrite wrap64_small by lia. by rewrite length_elements.
  - rewrite generic_insertResultInto_closed. cbn [offsets nested].
    unfold HashSet.size. rewrite (wrap64_small (Z.of_nat _)) by lia.
    rewrite wrap64_small by lia. by rewrite length_fmap, length_elements.
  - rewrite insertResultInto_closed by (simpl; lia).
    rewrite generic_insertResultInto_closed. cbn [offsets nested].
    assert (He : ∀ K (o : IterationOrder K), IterationOrderLaw K →
                 HashSet.elements (@HashSet.empty K) = []).
    { intros K o Hlaw. apply Permutation_nil_r.
      apply (iteration_order_perm (K := K) []). }
    unfold GroupUniqArray.create, GroupUniqArrayGeneric.create.
    cbn [GroupUniqArray.value GroupUniqArrayGeneric.value].
    rewrite !He by done. cbn [HashSet.empty HashSet.cells length fmap list_fmap].
    change (HashSet.size (HashSet.Build [])) with 0.
    rewrite !Z.add_0_r, !app_nil_r.
    rewrite !wrap64_small; [done | lia | lia].
Qed.

Lemma C10_witness :
  let _ : IterationOrder Z := reverse_order Z in
  let _ : IColumn (list byte) := framed_column in
  let _ : IterationOrder StringRef := reverse_order StringRef in
  let to : ColumnArray Z := {| offsets := [2]; nested := [7; 8] |} in
  let to' : ColumnArray (list byte) := {| offsets := []; nested := [] |} in
  0 ≤ back_or_zero (offsets to)
  ∧ back_or_zero (offsets to)
      + Z.of_nat (length (HashSet.cells (GroupUniqArray.value example_fixed_A)))
    < UInt64_MAX1
  ∧ Z.of_nat (length (nested to))
      + Z.of_nat (length (HashSet.cells (GroupUniqArray.value example_fixed_A)))
    < UInt64_MAX1
  ∧ 0 ≤ back_or_zero (offsets to')
  ∧ back_or_zero (offsets to')
      + Z.of_nat (length (HashSet.cells (GroupUniqArrayGeneric.value example_generic_A)))
    < UInt64_MAX1
  ∧ offsets (GroupUniqArray.insertResultInto example_fixed_A to) = [2; 5]
  ∧ nested (GroupUniqArray.insertResultInto example_fixed_A to) = [7; 8; 3; 2; 1]
  ∧ offsets (GroupUniqArrayGeneric.insertResultInto true example_generic_A
               example_memory to') = [2]
  ∧ nested (GroupUniqArrayGeneric.insertResultInto true example_generic_A
              example_memory to') = [["b"%byte]; ["a"%byte]].
Proof.
  intros oZ col oS to to'.
  assert (H1 : 0 ≤ back_or_zero (offsets to)) by by_computation.
  assert (H2 : back_or_zero (offsets to)
               + Z.of_nat (length (HashSet.cells (GroupUniqArray.value example_fixed_A)))
               < UInt64_MAX1) by by_computation.
  assert (H3 : Z.of_nat (length (nested to))
               + Z.of_nat (length (HashSet.cells (GroupUniqArray.value example_fixed_A)))
               < UInt64_MAX1) by by_computation.
  assert (H4 : 0 ≤ back_or_zero (offsets to')) by by_computation.
  assert (H5 : back_or_zero (offsets to')
               + Z.of_nat (length (HashSet.cells
                                     (GroupUniqArrayGeneric.value example_generic_A)))
               < UInt64_MAX1) by by_computation.
  refine (conj H1 (conj H2 (conj H3 (conj H4 (conj H5 _))))).
  pose proof (@C10_insertResultInto_appends_one_array oZ (reverse_order_law Z) true
                (list byte) col oS (reverse_order_law StringRef)
                example_fixed_A to example_generic_A example_memory to'
                H1 H2 H3 H4 H5) as ((Ho & Hn & _) & (Ho' & Hn' & _) & _).
  rewrite Ho, Hn, Ho', Hn'. by vm_compute.
Defined.


(** * Further properties *)

(** ** Reference counting of the copy-on-write handles *)

Section cow_handle_facts.
Context {Derived : Type}.
Implicit Types (h : gmap nat (COWPtr.Object Derived)) (handles : list nat).

Lemma references_cons_eq (a : nat) handles :
  COWHandles.references a (a :: handles) = S (COWHandles.references a handles).
Proof. unfold COWHandles.references. by rewrite filter_cons_True. Qed.

Lemma references_cons_ne (a p : nat) handles :
  p ≠ a → COWHandles.references a (p :: handles) = COWHandles.references a handles.
Proof. intros Hne. unfold COWHandles.references. by rewrite filter_cons_False. Qed.

Lemma references_app (a : nat) (l1 l2 : list nat) :
  COWHandles.references a (l1 ++ l2)
  = (COWHandles.references a l1 + COWHandles.references a l2)%nat.
Proof. unfold COWHandles.references. by rewrite filter_app, length_app. Qed.

Lemma references_not_elem (a : nat) handles :
  a ∉ handles ↔ COWHandles.references a handles = 0%nat.
Proof.
  unfold COWHandles.references. induction handles as [| p l IH].
  - split; [done | intros _; apply not_elem_of_nil].
  - rewrite not_elem_of_cons. destruct (decide (p = a)) as [-> | Hne].
    + rewrite filter_cons_True by done. simpl. split; [by intros [? _] | lia].
    + rewrite filter_cons_False by done. rewrite <- IH. split; [by intros [_ ?] | done].
Qed.

Lemma counted_lookup h handles (p : nat) :
  COWHandles.counted h handles → p ∈ handles →
  ∃ o, h !! p = Some o ∧ COWPtr.ref_counter o = COWHandles.references p handles
       ∧ (0 < COWPtr.ref_counter o)%nat.
Proof.
  intros Hc Hp. specialize (Hc p). destruct (h !! p) as [o|]; [| done].
  exists o. by destruct Hc.
Qed.

Lemma counted_add_ref h handles (p : nat) :
  COWHandles.counted h handles → p ∈ handles →
  COWHandles.counted (COWPtr.add_ref p h) (p :: handles).
Proof.
  intros Hc Hp a. unfold COWPtr.add_ref.
  destruct (decide (a = p)) as [-> | Hne].
  - destruct (counted_lookup h handles p Hc Hp) as (o & Ho & Hcount & Hpos).
    rewrite lookup_alter_eq, Ho. simpl. rewrite references_cons_eq. lia.
  - rewrite lookup_alter_ne by done. specialize (Hc a).
    destruct (h !! a) as [o|].
    + by rewrite references_cons_ne.
    + rewrite not_elem_of_cons. by split.
Qed.

Lemma counted_new h handles (v : Derived) :
  COWHandles.counted h handles →
  COWHandles.counted (COWPtr.add_ref (COWPtr.new v h).2 (COWPtr.new v h).1)
    ((COWPtr.new v h).2 :: handles).
Proof.
  intros Hc a. pose proof (new_fresh h v) as Hfresh.
  unfold COWPtr.new in *. cbn [fst snd] in *. set (p := fresh (dom h)) in *.
  assert (Hp : p ∉ handles) by (specialize (Hc p); by rewrite Hfresh in Hc).
  unfold COWPtr.add_ref. destruct (decide (a = p)) as [-> | Hne].
  - rewrite lookup_alter_eq, lookup_insert_eq. simpl.
    rewrite references_cons_eq. apply references_not_elem in Hp. lia.
  - rewrite lookup_alter_ne, lookup_insert_ne by done. specialize (Hc a).
    destruct (h !! a) as [o|].
    + by rewrite references_cons_ne.
    + rewrite not_elem_of_cons. by split.
Qed.

Lemma counted_release h (l1 l2 : list nat) (p : nat) :
  COWHandles.counted h (l1 ++ p :: l2) →
  COWHandles.counted (COWHandles.release p h) (l1 ++ l2).
Proof.
  intros Hc a.
  destruct (counted_lookup h _ p Hc) as (o & Ho & Hcount & Hpos).
  { apply elem_of_app. right. by left. }
  rewrite references_app, references_cons_eq in Hcount.
  unfold COWHandles.release. rewrite Ho.
  assert (Hother : ∀ q, q ≠ p →
            COWHandles.references q (l1 ++ p :: l2) = COWHandles.references q (l1 ++ l2)).
  { intros q Hq. by rewrite !references_app, references_cons_ne. }
  assert (Hmem : ∀ q, q ≠ p → q ∉ l1 ++ p :: l2 → q ∉ l1 ++ l2).
  { intros q Hq. rewrite !elem_of_app, elem_of_cons. tauto. }
  destruct (COWPtr.ref_counter o <=? 1)%nat eqn:E.
  - apply Nat.leb_le in E. destruct (decide (a = p)) as [-> | Hne].
    + rewrite lookup_delete_eq. apply references_not_elem.
      rewrite references_app. lia.
    + rewrite lookup_delete_ne by done. specialize (Hc a).
      destruct (h !! a) as [o'|]; [by rewrite <- Hother | by apply Hmem].
  - apply Nat.leb_gt in E. destruct (decide (a = p)) as [-> | Hne].
    + rewrite lookup_insert_eq. simpl. rewrite references_app. lia.
    + rewrite lookup_insert_ne by done. specialize (Hc a).
      destruct (h !! a) as [o'|]; [by rewrite <- Hother | by apply Hmem].
Qed.

End cow_handle_facts.

(** X1.  The counters agree with the live handles after every operation
    that makes or destroys a handle: [create], the copy of a handle,
    [mutate] (on either of its branches) and the destruction of a handle. *)
Theorem X1_counters_agree_with_handles
    {Derived : Type} (h : gmap nat (COWPtr.Object Derived)) (handles : list nat) :
  COWHandles.counted h handles →
  (∀ v, COWHandles.counted (COWPtr.create v h).1 ((COWPtr.create v h).2 :: handles))
  ∧ (∀ p, p ∈ handles →
          COWHandles.counted (COWHandles.copy p h).1 ((COWHandles.copy p h).2 :: handles))
  ∧ (∀ this, this ∈ handles →
       ∃ h' p, COWPtr.mutate this h = Some (h', p)
               ∧ COWHandles.counted h' (p :: handles))
  ∧ (∀ l1 p l2, handles = l1 ++ p :: l2 →
       COWHandles.counted (COWHandles.release p h) (l1 ++ l2)).
Proof.
  intros Hc. split_and!.
  - intros v. apply (counted_new h handles v Hc).
  - intros p Hp. by apply counted_add_ref.
  - intros this Hthis.
    destruct (counted_lookup h handles this Hc Hthis) as (o & Ho & Hcount & Hpos).
    unfold COWPtr.mutate, COWPtr.use_count. rewrite Ho.
    destruct (1 <? COWPtr.ref_counter o)%nat.
    + unfold COWPtr.clone. rewrite Ho. cbn [mbind option_bind].
      eexists _, _. split; [done |]. apply (counted_new h handles _ Hc).
    + eexists _, _. split; [done |]. by apply counted_add_ref.
  - intros l1 p l2 ->. by apply counted_release.
Qed.

Lemma X1_witness :
  let h : gmap nat (COWPtr.Object Z) :=
    {[ 0%nat := {| COWPtr.members := 7; COWPtr.ref_counter := 2 |} ]} in
  COWHandles.counted h [0%nat; 0%nat]
  ∧ (∃ h' p, COWPtr.mutate 0%nat h = Some (h', p)
             ∧ COWHandles.counted h' [p; 0%nat; 0%nat])
  ∧ COWHandles.counted (COWHandles.release 0%nat h) [0%nat].
Proof.
  intros h.
  assert (Hc : COWHandles.counted h [0%nat; 0%nat]).
  { intros a. destruct (decide (a = 0%nat)) as [-> | Hne].
    - vm_compute. split; [done | lia].
    - unfold h. rewrite lookup_singleton_ne by done.
      rewrite !not_elem_of_cons. split_and!; [done | done | apply not_elem_of_nil]. }
  split; [exact Hc |].
  destruct (X1_counters_agree_with_handles h [0%nat; 0%nat] Hc) as (_ & _ & Hm & Hr).
  split; [apply Hm; by left | apply (Hr [] 0%nat [0%nat] eq_refl)].
Defined.


Section cow_usage_facts.
Context {Derived : Type}.
Implicit Types (h : gmap nat (COWPtr.Object Derived)).

Lemma create_spec h (v : Derived) :
  ∃ h' p,
    COWPtr.create v h = (h', p)
    ∧ h !! p = None
    ∧ h' !! p = Some {| COWPtr.members := v; COWPtr.ref_counter := 1 |}
    ∧ ∀ q, q ≠ p → h' !! q = h !! q.
Proof.
  unfold COWPtr.create. pose proof (new_fresh h v) as Hfresh.
  unfold COWPtr.new in *. cbn [fst snd] in *. set (p := fresh (dom h)) in *.
  eexists _, p. split; [done |]. split_and!; [done | |].
  - unfold COWPtr.add_ref. by rewrite lookup_alter_eq, lookup_insert_eq.
  - intros q Hq. unfold COWPtr.add_ref. by rewrite lookup_alter_ne, lookup_insert_ne.
Qed.
End cow_usage_facts.

(** X2.  The example of the header's comment, for any heap and any two
    values: after [x = create(v1); y = x; mutate_x = x->mutate();
    mutate_x->set(v2); x = std::move(mutate_x)] the handles [x] and [y]
    reference different objects, [x] sees [v2], [y] still sees [v1], each
    object is referenced once, and the objects that were there before are
    as they were. *)
Theorem X2_usage_example_unshares
    {Derived : Type} (h : gmap nat (COWPtr.Object Derived)) (v1 v2 : Derived) :
  ∃ h' x y,
    COWHandles.usage_example v1 v2 h = Some (h', x, y)
    ∧ x ≠ y
    ∧ COWPtr.read x h' = Some v2
    ∧ COWPtr.read y h' = Some v1
    ∧ COWPtr.use_count h' x = 1%nat
    ∧ COWPtr.use_count h' y = 1%nat
    ∧ ∀ q, is_Some (h !! q) → h' !! q = h !! q.
Proof.
  unfold COWHandles.usage_example.
  destruct (create_spec h v1) as (h1 & x & -> & Hfresh & Hx1 & Hother1).
  cbn [COWHandles.move COWHandles.copy].
  assert (Hx2 : COWPtr.add_ref x h1 !! x
                = Some {| COWPtr.members := v1; COWPtr.ref_counter := 2 |}).
  { unfold COWPtr.add_ref. by rewrite lookup_alter_eq, Hx1. }
  assert (Hother2 : ∀ q, q ≠ x → COWPtr.add_ref x h1 !! q = h !! q).
  { intros q Hq. unfold COWPtr.add_ref. by rewrite lookup_alter_ne, Hother1. }
  destruct (clone_spec (COWPtr.add_ref x h1) x _ Hx2)
    as (h3 & mx & Hclone & Hmx2 & Hmx3 & Hother3).
  unfold COWPtr.mutate, COWPtr.use_count. rewrite Hx2. cbn [Nat.ltb Nat.leb COWPtr.ref_counter].
  rewrite Hclone. cbn [mbind option_bind COWHandles.move_assign].
  assert (Hne : mx ≠ x) by (intros ->; congruence).
  assert (Hx4 : COWPtr.write mx v2 h3 !! x
                = Some {| COWPtr.members := v1; COWPtr.ref_counter := 2 |}).
  { by rewrite write_lookup, Hother3. }
  assert (Hmx4 : COWPtr.write mx v2 h3 !! mx
                 = Some {| COWPtr.members := v2; COWPtr.ref_counter := 1 |}).
  { unfold COWPtr.write. by rewrite lookup_alter_eq, Hmx3. }
  eexists _, mx, x. split; [done |].
  unfold COWHandles.release. rewrite Hx4. cbn [Nat.leb COWPtr.ref_counter COWPtr.members pred].
  unfold COWPtr.read, COWPtr.use_count.
  rewrite lookup_insert_eq, lookup_insert_ne, Hmx4 by done.
  split_and!; try done.
  intros q [o Hq].
  assert (q ≠ x) by (intros ->; congruence).
  assert (q ≠ mx) by (intros ->; rewrite Hother2 in Hmx2 by done; congruence).
  by rewrite lookup_insert_ne, write_lookup, Hother3, Hother2.
Qed.

(** X3.  [mutate()] on an object that only one handle references returns a
    handle to that very object and raises its counter to two, for the
    original handle is still there.  While both handles live the object
    counts as shared: a second [mutate()] clones it.  Once the mutable
    handle is destroyed the heap is as it was before. *)
Theorem X3_mutate_of_unshared_object
    {Derived : Type} (h : gmap nat (COWPtr.Object Derived)) (this : nat)
    (o : COWPtr.Object Derived) :
  h !! this = Some o →
  COWPtr.ref_counter o = 1%nat →
  ∃ h1,
    COWPtr.mutate this h = Some (h1, this)
    ∧ COWPtr.use_count h1 this = 2%nat
    ∧ (∃ h2 p, COWPtr.mutate this h1 = Some (h2, p)
               ∧ p ≠ this ∧ h1 !! p = None
               ∧ COWPtr.read p h2 = Some (COWPtr.members o))
    ∧ COWHandles.release this h1 = h.
Proof.
  intros Hthis Hcount.
  assert (Ho : o = {| COWPtr.members := COWPtr.members o; COWPtr.ref_counter := 1 |})
    by (destruct o; simpl in *; by subst).
  exists (COWPtr.add_ref this h).
  assert (H1 : COWPtr.add_ref this h !! this
               = Some {| COWPtr.members := COWPtr.members o; COWPtr.ref_counter := 2 |}).
  { unfold COWPtr.add_ref. rewrite lookup_alter_eq, Hthis. simpl. by rewrite Hcount. }
  split_and!.
  - unfold COWPtr.mutate, COWPtr.use_count. by rewrite Hthis, Hcount.
  - unfold COWPtr.use_count. by rewrite H1.
  - destruct (clone_spec _ this _ H1) as (h2 & p & Hclone & Hfresh & Hp & _).
    exists h2, p. unfold COWPtr.mutate, COWPtr.use_count. rewrite H1.
    cbn [Nat.ltb Nat.leb COWPtr.ref_counter].
    split_and!; [done | intros ->; congruence | done |].
    unfold COWPtr.read. by rewrite Hp.
  - unfold COWHandles.release. rewrite H1.
    cbn [Nat.leb COWPtr.ref_counter COWPtr.members pred].
    unfold COWPtr.add_ref. apply map_eq. intros q.
    destruct (decide (q = this)) as [-> | Hne].
    + by rewrite lookup_insert_eq, Hthis, Ho.
    + by rewrite lookup_insert_ne, lookup_alter_ne.
Qed.

Lemma X3_witness :
  let o : COWPtr.Object Z := {| COWPtr.members := 5; COWPtr.ref_counter := 1 |} in
  let h : gmap nat (COWPtr.Object Z) := {[ 3%nat := o ]} in
  h !! 3%nat = Some o
  ∧ COWPtr.ref_counter o = 1%nat
  ∧ ∃ h1,
      COWPtr.mutate 3%nat h = Some (h1, 3%nat)
      ∧ COWPtr.use_count h1 3%nat = 2%nat
      ∧ (∃ h2 p, COWPtr.mutate 3%nat h1 = Some (h2, p)
                 ∧ p ≠ 3%nat ∧ h1 !! p = None
                 ∧ COWPtr.read p h2 = Some (COWPtr.members o))
      ∧ COWHandles.release 3%nat h1 = h.
Proof.
  intros o h.
  assert (Hthis : h !! 3%nat = Some o) by done.
  assert (Hcount : COWPtr.ref_counter o = 1%nat) by done.
  refine (conj Hthis (conj Hcount _)).
  exact (X3_mutate_of_unshared_object h 3%nat o Hthis Hcount).
Defined.

(** X4.  [create] returns a handle to an object at an address no object had,
    with the members it was given and referenced once; the objects that
    were there are untouched; and [mutate()] through that handle returns the
    same object: an object just created is never cloned. *)
Theorem X4_create_makes_an_unshared_object
    {Derived : Type} (h : gmap nat (COWPtr.Object Derived)) (v : Derived) :
  ∃ h1 p,
    COWPtr.create v h = (h1, p)
    ∧ h !! p = None
    ∧ COWPtr.read p h1 = Some v
    ∧ COWPtr.use_count h1 p = 1%nat
    ∧ (∀ q, q ≠ p → h1 !! q = h !! q)
    ∧ ∃ h2, COWPtr.mutate p h1 = Some (h2, p) ∧ dom h2 = dom h1.
Proof.
  destruct (create_spec h v) as (h1 & p & Hcreate & Hfresh & Hp & Hother).
  exists h1, p. unfold COWPtr.read, COWPtr.use_count. rewrite Hp.
  split_and!; try done.
  exists (COWPtr.add_ref p h1). unfold COWPtr.mutate, COWPtr.use_count. rewrite Hp.
  split; [done |]. apply dom_alter_L.
Qed.

(** ** Serialized states in a stream *)

Section stream_facts.
Context `{IterationOrderLaw StringRef}.

Lemma generic_wf_mem_le (m m' : Memory) (place : GroupUniqArrayGeneric.State) :
  mem_le m m' → generic_wf m place → generic_wf m' place.
Proof.
  intros Hle (Hval & Hnd & Hsizes & Hlen).
  split_and!; [by eapply Forall_valid_mem_le | | done | done].
  unfold GroupUniqArrayGeneric.keys in *. by rewrite (fmap_bytes_at_mem_le m m').
Qed.

Lemma generic_serialize_mem_le (m m' : Memory) (place : GroupUniqArrayGeneric.State)
    (buf : IO.WriteBuffer) :
  mem_le m m' → Forall (valid m) (HashSet.cells (GroupUniqArrayGeneric.value place)) →
  GroupUniqArrayGeneric.serialize place m' buf = GroupUniqArrayGeneric.serialize place m buf.
Proof.
  intros Hle Hval. rewrite !generic_serialize_closed.
  rewrite (fmap_bytes_at_mem_le m m'); [done | done |]. by rewrite elements_perm.
Qed.
End stream_facts.

(** X6.  [serialize] writes after what the buffer holds and [deserialize]
    reads one state and leaves what follows it: two states serialized one
    after the other into one buffer are read back one after the other, each
    with the values it had, by either aggregator. *)
Theorem X6_states_are_read_back_in_sequence
    (sizeofT : nat) {T_eq : OperatorEq Z} `{IterationOrderLaw Z}
    (is_plain_column : bool) {V : Type} `{IColumn V}
    `{!IColumnLaws V} `{IterationOrderLaw StringRef}
    (A B : GroupUniqArray.State)
    (A' B' : GroupUniqArrayGeneric.State) (vsA vsB : list V) (m : Memory) (a : Region) :
  fixed_wf sizeofT A → fixed_wf sizeofT B →
  generic_wf m A' → generic_wf m B' →
  holds is_plain_column m A' vsA → holds is_plain_column m B' vsB →
  (∃ A1 B1,
     GroupUniqArray.deserialize sizeofT GroupUniqArray.create
       (GroupUniqArray.serialize sizeofT B (GroupUniqArray.serialize sizeofT A []))
     = Ok (A1, GroupUniqArray.serialize sizeofT B [])
     ∧ GroupUniqArray.deserialize sizeofT GroupUniqArray.create
         (GroupUniqArray.serialize sizeofT B []) = Ok (B1, [])
     ∧ GroupUniqArray.finalize A1 ≡ₚ GroupUniqArray.finalize A
     ∧ GroupUniqArray.finalize B1 ≡ₚ GroupUniqArray.finalize B)
  ∧ (∃ A1 m1 B1 m2,
       GroupUniqArrayGeneric.deserialize GroupUniqArrayGeneric.create
         (GroupUniqArrayGeneric.serialize B' m (GroupUniqArrayGeneric.serialize A' m []))
         (Some a) m
       = Ok (A1, GroupUniqArrayGeneric.serialize B' m [], m1)
       ∧ GroupUniqArrayGeneric.deserialize GroupUniqArrayGeneric.create
           (GroupUniqArrayGeneric.serialize B' m []) (Some a) m1 = Ok (B1, [], m2)
       ∧ GroupUniqArrayGeneric.finalize is_plain_column A1 m2
         ≡ₚ GroupUniqArrayGeneric.finalize is_plain_column A' m
       ∧ GroupUniqArrayGeneric.finalize is_plain_column B1 m2
         ≡ₚ GroupUniqArrayGeneric.finalize is_plain_column B' m).
Proof.
  intros HA HB HA' HB' HhA HhB. split.
  - assert (Hcat : GroupUniqArray.serialize sizeofT B (GroupUniqArray.serialize sizeofT A [])
                   = GroupUniqArray.serialize sizeofT A []
                     ++ GroupUniqArray.serialize sizeofT B []).
    { by rewrite (serialize_closed sizeofT B (GroupUniqArray.serialize sizeofT A [])),
        (serialize_closed sizeofT B []). }
    destruct (deserialize_serialize_fixed sizeofT A (GroupUniqArray.serialize sizeofT B []) HA)
      as (A1 & HrA & HcA).
    destruct (deserialize_serialize_fixed sizeofT B [] HB) as (B1 & HrB & HcB).
    rewrite app_nil_r in HrB. exists A1, B1. rewrite Hcat.
    destruct HA as (_ & _ & HlA), HB as (_ & _ & HlB).
    split_and!; [done | done | |].
    + rewrite !finalize_elements; [| done | by rewrite HcA, length_elements].
      by rewrite !elements_perm, HcA, elements_perm.
    + rewrite !finalize_elements; [| done | by rewrite HcB, length_elements].
      by rewrite !elements_perm, HcB, elements_perm.
  - assert (Hcat : GroupUniqArrayGeneric.serialize B' m (GroupUniqArrayGeneric.serialize A' m [])
                   = GroupUniqArrayGeneric.serialize A' m []
                     ++ GroupUniqArrayGeneric.serialize B' m []).
    { by rewrite (generic_serialize_closed B' m (GroupUniqArrayGeneric.serialize A' m [])),
        (generic_serialize_closed B' m []). }
    destruct (deserialize_serialize_generic A' m a
                (GroupUniqArrayGeneric.serialize B' m []) HA')
      as (A1 & m1 & HrA & Hle1 & _ & _).
    destruct (deserialize_serialize_holds is_plain_column A' m a
                (GroupUniqArrayGeneric.serialize B' m []) vsA HA' HhA)
      as (A1' & m1' & vsA1 & HrA' & HhA1 & HpA).
    rewrite HrA in HrA'. injection HrA' as <- <-.
    destruct (deserialize_serialize_holds is_plain_column B' m1 a [] vsB
                (generic_wf_mem_le m m1 B' Hle1 HB')
                (holds_mem_le is_plain_column m m1 B' vsB Hle1 HhB))
      as (B1 & m2 & vsB1 & HrB & HhB1 & HpB).
    rewrite app_nil_r in HrB.
    rewrite (generic_serialize_mem_le m m1 B' []) in HrB by (done || apply HB').
    destruct (deserialize_serialize_generic B' m1 a [] (generic_wf_mem_le m m1 B' Hle1 HB'))
      as (B1' & m2' & HrB' & Hle2 & _ & _).
    rewrite app_nil_r in HrB'.
    rewrite (generic_serialize_mem_le m m1 B' []) in HrB' by (done || apply HB').
    rewrite HrB in HrB'. injection HrB' as <- <-.
    exists A1, m1, B1, m2. rewrite Hcat.
    split_and!; [done | done | |].
    + rewrite (holds_finalize is_plain_column m2 A1 vsA1
                 (holds_mem_le is_plain_column m1 m2 A1 vsA1 Hle2 HhA1)).
      by rewrite (holds_finalize is_plain_column m A' vsA HhA).
    + rewrite (holds_finalize is_plain_column m2 B1 vsB1 HhB1).
      by rewrite (holds_finalize is_plain_column m B' vsB HhB).
Qed.

Lemma X6_witness :
  let _ : OperatorEq Z := integer_eq in
  let _ : IterationOrder Z := reverse_order Z in
  let _ : IColumn (list byte) := framed_column in
  let _ : IterationOrder StringRef := reverse_order StringRef in
  fixed_wf 2 example_fixed_A ∧ fixed_wf 2 example_fixed_B
  ∧ generic_wf example_memory example_generic_A
  ∧ generic_wf example_memory example_generic_B
  ∧ holds true example_memory example_generic_A [["a"%byte]; ["b"%byte]]
  ∧ holds true example_memory example_generic_B [["b"%byte]; ["c"%byte]]
  ∧ (∃ A1 B1,
       GroupUniqArray.deserialize 2 GroupUniqArray.create
         (GroupUniqArray.serialize 2 example_fixed_B
            (GroupUniqArray.serialize 2 example_fixed_A []))
       = Ok (A1, GroupUniqArray.serialize 2 example_fixed_B [])
       ∧ GroupUniqArray.deserialize 2 GroupUniqArray.create
           (GroupUniqArray.serialize 2 example_fixed_B []) = Ok (B1, [])
       ∧ GroupUniqArray.finalize A1 ≡ₚ GroupUniqArray.finalize example_fixed_A
       ∧ GroupUniqArray.finalize B1 ≡ₚ GroupUniqArray.finalize example_fixed_B)
  ∧ (∃ A1 m1 B1 m2,
       GroupUniqArrayGeneric.deserialize GroupUniqArrayGeneric.create
         (GroupUniqArrayGeneric.serialize example_generic_B example_memory
            (GroupUniqArrayGeneric.serialize example_generic_A example_memory []))
         (Some 3%nat) example_memory
       = Ok (A1, GroupUniqArrayGeneric.serialize example_generic_B example_memory [], m1)
       ∧ GroupUniqArrayGeneric.deserialize GroupUniqArrayGeneric.create
           (GroupUniqArrayGeneric.serialize example_generic_B example_memory [])
           (Some 3%nat) m1 = Ok (B1, [], m2)
       ∧ GroupUniqArrayGeneric.finalize true A1 m2
         ≡ₚ GroupUniqArrayGeneric.finalize true example_generic_A example_memory
       ∧ GroupUniqArrayGeneric.finalize true B1 m2
         ≡ₚ GroupUniqArrayGeneric.finalize true example_generic_B example_memory).
Proof.
  intros T_eq oZ col oS.
  assert (HA : fixed_wf 2 example_fixed_A) by fixed_wf_by_computation.
  assert (HB : fixed_wf 2 example_fixed_B) by fixed_wf_by_computation.
  assert (HA' : generic_wf example_memory example_generic_A)
    by (split_and!; by_computation).
  assert (HB' : generic_wf example_memory example_generic_B)
    by (split_and!; by_computation).
  assert (HhA : holds true example_memory example_generic_A [["a"%byte]; ["b"%byte]])
    by (split_and!; by_computation).
  assert (HhB : holds true example_memory example_generic_B [["b"%byte]; ["c"%byte]])
    by (split_and!; by_computation).
  refine (conj HA (conj HB (conj HA' (conj HB' (conj HhA (conj HhB _)))))).
  exact (@X6_states_are_read_back_in_sequence 2 T_eq oZ (reverse_order_law Z) true
           (list byte) col framed_column_laws oS (reverse_order_law StringRef)
           example_fixed_A example_fixed_B example_generic_A example_generic_B
           _ _ example_memory 3%nat HA HB HA' HB' HhA HhB).
Defined.

(** ** Arrays appended one after the other *)

Lemma back_or_zero_snoc (l : list Z) (x : Z) : back_or_zero (l ++ [x]) = x.
Proof.
  unfold back_or_zero. rewrite length_app, last_snoc. simpl.
  destruct (length l + 1 =? 0)%nat eqn:E; [apply Nat.eqb_eq in E; lia | done].
Qed.

(** X7.  [insertResultInto] keeps the shape of an array column: when the
    last offset is the number of nested values before the call, it is so
    after it.  Two states appended one after the other give two offsets,
    each the running total, and the nested values of the first followed by
    those of the second; the values between the last two offsets are those
    of the second state. *)
Theorem X7_insertResultInto_keeps_the_array_shape
    `{IterationOrderLaw Z}
    (is_plain_column : bool) {V : Type} `{IColumn V} `{IterationOrderLaw StringRef}
    (A B : GroupUniqArray.State) (to : ColumnArray Z)
    (A' B' : GroupUniqArrayGeneric.State) (m : Memory) (to' : ColumnArray V) :
  back_or_zero (offsets to) = Z.of_nat (length (nested to)) →
  Z.of_nat (length (nested to)
            + length (HashSet.cells (GroupUniqArray.value A))
            + length (HashSet.cells (GroupUniqArray.value B))) < UInt64_MAX1 →
  back_or_zero (offsets to') = Z.of_nat (length (nested to')) →
  Z.of_nat (length (nested to')
            + length (HashSet.cells (GroupUniqArrayGeneric.value A'))
            + length (HashSet.cells (GroupUniqArrayGeneric.value B'))) < UInt64_MAX1 →
  (let to1 := GroupUniqArray.insertResultInto A to in
   let to2 := GroupUniqArray.insertResultInto B to1 in
   back_or_zero (offsets to1) = Z.of_nat (length (nested to1))
   ∧ back_or_zero (offsets to2) = Z.of_nat (length (nested to2))
   ∧ offsets to2
     = offsets to
       ++ [Z.of_nat (length (nested to) + length (HashSet.cells (GroupUniqArray.value A)));
           Z.of_nat (length (nested to) + length (HashSet.cells (GroupUniqArray.value A))
                     + length (HashSet.cells (GroupUniqArray.value B)))]
   ∧ nested to2
     = nested to ++ HashSet.elements (GroupUniqArray.value A)
                 ++ HashSet.elements (GroupUniqArray.value B)
   ∧ drop (length (nested to1)) (nested to2) = HashSet.elements (GroupUniqArray.value B))
  ∧ (let to1 := GroupUniqArrayGeneric.insertResultInto is_plain_column A' m to' in
     let to2 := GroupUniqArrayGeneric.insertResultInto is_plain_column B' m to1 in
     back_or_zero (offsets to1) = Z.of_nat (length (nested to1))
     ∧ back_or_zero (offsets to2) = Z.of_nat (length (nested to2))
     ∧ offsets to2
       = offsets to'
         ++ [Z.of_nat (length (nested to')
                       + length (HashSet.cells (GroupUniqArrayGeneric.value A')));
             Z.of_nat (length (nested to')
                       + length (HashSet.cells (GroupUniqArrayGeneric.value A'))
                       + length (HashSet.cells (GroupUniqArrayGeneric.value B')))]
     ∧ nested to2
       = nested to'
         ++ (decode_key is_plain_column m
               <$> HashSet.elements (GroupUniqArrayGeneric.value A'))
         ++ (decode_key is_plain_column m
               <$> HashSet.elements (GroupUniqArrayGeneric.value B'))
     ∧ drop (length (nested to1)) (nested to2)
       = decode_key is_plain_column m
           <$> HashSet.elements (GroupUniqArrayGeneric.value B')).
Proof.
  intros Hshape Hlen Hshape' Hlen'. split; cbv zeta.
  - rewrite (insertResultInto_closed A to) by lia. cbn [offsets nested].
    rewrite insertResultInto_closed
      by (cbn [nested]; rewrite length_app, length_elements; lia).
    cbn [offsets nested].
    rewrite !back_or_zero_snoc, Hshape.
    rewrite !length_app, !length_elements.
    rewrite !wrap64_small by lia.
    split_and!; [lia | lia | | by rewrite <- app_assoc |].
    + rewrite <- app_assoc. simpl. do 3 f_equal; lia.
    + rewrite <- (length_elements (GroupUniqArray.value A)), <- length_app.
      by rewrite drop_app_length.
  - rewrite !generic_insertResultInto_closed. cbn [offsets nested].
    rewrite !back_or_zero_snoc, Hshape'. unfold HashSet.size.
    rewrite !length_app, !length_fmap, !length_elements.
    rewrite !(wrap64_small (Z.of_nat _)) by lia.
    rewrite !wrap64_small by lia.
    split_and!; [lia | lia | | by rewrite <- app_assoc |].
    + rewrite <- app_assoc. simpl. do 3 f_equal; lia.
    + rewrite <- (length_elements (GroupUniqArrayGeneric.value A')),
        <- (length_fmap (decode_key is_plain_column m)), <- length_app.
      by rewrite drop_app_length.
Qed.

Lemma X7_witness :
  let _ : IterationOrder Z := reverse_order Z in
  let _ : IColumn (list byte) := framed_column in
  let _ : IterationOrder StringRef := reverse_order StringRef in
  let to : ColumnArray Z := {| offsets := [2]; nested := [7; 8] |} in
  let to' : ColumnArray (list byte) := {| offsets := []; nested := [] |} in
  back_or_zero (offsets to) = Z.of_nat (length (nested to))
  ∧ Z.of_nat (length (nested to)
              + length (HashSet.cells (GroupUniqArray.value example_fixed_A))
              + length (HashSet.cells (GroupUniqArray.value example_fixed_B)))
    < UInt64_MAX1
  ∧ back_or_zero (offsets to') = Z.of_nat (length (nested to'))
  ∧ Z.of_nat (length (nested to')
              + length (HashSet.cells (GroupUniqArrayGeneric.value example_generic_A))
              + length (HashSet.cells (GroupUniqArrayGeneric.value example_generic_B)))
    < UInt64_MAX1
  ∧ offsets (GroupUniqArray.insertResultInto example_fixed_B
               (GroupUniqArray.insertResultInto example_fixed_A to)) = [2; 5; 7]
  ∧ nested (GroupUniqArray.insertResultInto example_fixed_B
              (GroupUniqArray.insertResultInto example_fixed_A to))
    = [7; 8; 3; 2; 1; 4; 3].
Proof.
  intros oZ col oS to to'.
  assert (H1 : back_or_zero (offsets to) = Z.of_nat (length (nested to))) by by_computation.
  assert (H2 : Z.of_nat (length (nested to)
                 + length (HashSet.cells (GroupUniqArray.value example_fixed_A))
                 + length (HashSet.cells (GroupUniqArray.value example_fixed_B)))
               < UInt64_MAX1) by by_computation.
  assert (H3 : back_or_zero (offsets to') = Z.of_nat (length (nested to')))
    by by_computation.
  assert (H4 : Z.of_nat (length (nested to')
                 + length (HashSet.cells (GroupUniqArrayGeneric.value example_generic_A))
                 + length (HashSet.cells (GroupUniqArrayGeneric.value example_generic_B)))
               < UInt64_MAX1) by by_computation.
  refine (conj H1 (conj H2 (conj H3 (conj H4 _)))).
  pose proof (@X7_insertResultInto_keeps_the_array_shape oZ (reverse_order_law Z) true
                (list byte) col oS (reverse_order_law StringRef)
                example_fixed_A example_fixed_B to
                example_generic_A example_generic_B example_memory to'
                H1 H2 H3 H4) as ((_ & _ & Ho & Hn & _) & _).
  cbv zeta in Ho, Hn. rewrite Ho, Hn. by vm_compute.
Defined.

(** ** The arena on the plain path *)

(** X8.  On the plain path an [add] whose key is already present writes
    nothing, anywhere, and returns the state it was given.  After [add] for
    every row of a column, starting from the empty state, the arena has
    grown by exactly the raw bytes of the keys kept, once each, and no other
    region, the column's buffer among them, was written. *)
Theorem X8_plain_path_copies_new_keys_only
    {V : Type} `{IColumn V}
    (place : GroupUniqArrayGeneric.State) (column : Column V)
    (row_num : nat) (v : V) (a : Region) (m : Memory) :
  Forall (valid m) (HashSet.cells (GroupUniqArrayGeneric.value place)) →
  column_stored m column →
  buffer column ≠ a →
  rows column !! row_num = Some v →
  raw_bytes v ∈ GroupUniqArrayGeneric.keys place m →
  GroupUniqArrayGeneric.addImpl true place column row_num (Some a) m = Ok (place, m)
  ∧ ∃ place' m',
      GroupUniqArrayGeneric.add_each true GroupUniqArrayGeneric.create column
        (Some a) m = Ok (place', m')
      ∧ GroupUniqArrayGeneric.keys place' m' = distinct (raw_bytes <$> rows column)
      ∧ m' !!! a = m !!! a ++ concat (GroupUniqArrayGeneric.keys place' m')
      ∧ (∀ r, r ≠ a → m' !! r = m !! r)
      ∧ column_stored m' column.
Proof.
  intros Hval Hstored Hbuf Hrow Hdup. split.
  - destruct (getDataAt_spec m column row_num v Hstored Hrow)
      as (str & Hget & _ & Hstr & Hb).
    unfold GroupUniqArrayGeneric.addImpl, GroupUniqArrayGeneric.getSerialization.
    rewrite Hget. cbn [Arena.deref mbind result_bind negb].
    destruct (emplace_cases (StringRef_eqb m) (bytes_at m) (valid m)
                (StringRef_eqb_key m) str _ Hval Hstr) as [(Hin & it & ->) | (Hnin & _)].
    + by destruct place.
    + rewrite Hb in Hnin. done.
  - destruct (add_each_spec true a GroupUniqArrayGeneric.create column m)
      as (place' & m' & new & Hadd & _ & Hne & _ & Hkeys & Hnew & Harena);
      [apply Forall_nil_2 | by intros _ |].
    exists place', m'. simpl in Hnew. subst new.
    split_and!; [done | done | done | done |].
    unfold column_stored in *. by rewrite Hne.
Qed.

Lemma X8_witness :
  let _ : IColumn (list byte) := framed_column in
  let column := {| buffer := 0%nat;
                   rows := [["a"%byte]; ["b"%byte; "c"%byte]; ["a"%byte]] |} in
  let m : Memory := {[ 0%nat := ["a"%byte; "b"%byte; "c"%byte; "a"%byte];
                       1%nat := ["a"%byte] ]} in
  let place := {| GroupUniqArrayGeneric.value := HashSet.Build [example_key 1 0] |} in
  Forall (valid m) (HashSet.cells (GroupUniqArrayGeneric.value place))
  ∧ column_stored m column
  ∧ buffer column ≠ 1%nat
  ∧ rows column !! 2%nat = Some ["a"%byte]
  ∧ raw_bytes ["a"%byte] ∈ GroupUniqArrayGeneric.keys place m
  ∧ GroupUniqArrayGeneric.addImpl true place column 2 (Some 1%nat) m = Ok (place, m)
  ∧ ∃ place' m',
      GroupUniqArrayGeneric.add_each true GroupUniqArrayGeneric.create column
        (Some 1%nat) m = Ok (place', m')
      ∧ GroupUniqArrayGeneric.keys place' m' = distinct (raw_bytes <$> rows column)
      ∧ m' !!! 1%nat = m !!! 1%nat ++ concat (GroupUniqArrayGeneric.keys place' m')
      ∧ (∀ r, r ≠ 1%nat → m' !! r = m !! r)
      ∧ column_stored m' column.
Proof.
  intros col column m place.
  assert (Hval : Forall (valid m) (HashSet.cells (GroupUniqArrayGeneric.value place)))
    by by_computation.
  assert (Hstored : column_stored m column) by done.
  assert (Hbuf : buffer column ≠ 1%nat) by done.
  assert (Hrow : rows column !! 2%nat = Some ["a"%byte]) by done.
  assert (Hdup : raw_bytes ["a"%byte] ∈ GroupUniqArrayGeneric.keys place m)
    by (apply (bool_decide_unpack _); by vm_compute).
  refine (conj Hval (conj Hstored (conj Hbuf (conj Hrow (conj Hdup _))))).
  exact (@X8_plain_path_copies_new_keys_only (list byte) col place column 2
           ["a"%byte] 1%nat m Hval Hstored Hbuf Hrow Hdup).
Defined.


(** ** Where the keys of the generic aggregator live *)

Lemma extends_in_refl (a : Region) (set : HashSet.t StringRef) : extends_in a set set.
Proof. exists []. by rewrite app_nil_r. Qed.

Lemma extends_in_trans (a : Region) (s1 s2 s3 : HashSet.t StringRef) :
  extends_in a s1 s2 → extends_in a s2 s3 → extends_in a s1 s3.
Proof.
  intros (n1 & E1 & F1) (n2 & E2 & F2). exists (n1 ++ n2).
  rewrite E2, E1, app_assoc. split; [done | by apply Forall_app].
Qed.

Lemma extends_in_snoc (a : Region) (set : HashSet.t StringRef) (k : StringRef) :
  region (data k) = a → extends_in a set (HashSet.Build (HashSet.cells set ++ [k])).
Proof. intros Hk. exists [k]. split; [done | by apply Forall_singleton]. Qed.

Lemma emplace_shape (eqb : StringRef → StringRef → bool) (x : StringRef)
    (set : HashSet.t StringRef) :
  (∃ it, HashSet.emplace eqb x set = (set, it, false))
  ∨ HashSet.emplace eqb x set
    = (HashSet.Build (HashSet.cells set ++ [x]), length (HashSet.cells set), true).
Proof.
  unfold HashSet.emplace. destruct (HashSet.find_cell eqb x (HashSet.cells set)) as [it|].
  - left. by exists it.
  - by right.
Qed.

Lemma addImpl_extends_in (is_plain_column : bool) {V : Type} `{IColumn V}
    (place : GroupUniqArrayGeneric.State) (column : Column V) (row_num : nat)
    (a : Region) (m : Memory) :
  match GroupUniqArrayGeneric.addImpl is_plain_column place column row_num (Some a) m with
  | Ok (place', _) =>
      extends_in a (GroupUniqArrayGeneric.value place) (GroupUniqArrayGeneric.value place')
  | Fail _ => True
  end.
Proof.
  unfold GroupUniqArrayGeneric.addImpl, GroupUniqArrayGeneric.getSerialization.
  cbn [Arena.deref mbind result_bind]. destruct is_plain_column; cbn [negb].
  - destruct (getDataAt column row_num) as [str |]; cbn [mbind result_bind]; [| done].
    destruct (emplace_shape (StringRef_eqb m) str (GroupUniqArrayGeneric.value place))
      as [[it ->] | ->].
    + apply extends_in_refl.
    + unfold Arena.insert. rewrite set_data_last. cbn [GroupUniqArrayGeneric.value].
      by apply extends_in_snoc.
  - unfold serializeValueIntoArena, Arena.insert.
    destruct (rows column !! row_num) as [v |]; cbn [mbind result_bind]; [| done].
    match goal with
    | |- context [HashSet.emplace ?e ?x ?s] =>
        destruct (emplace_shape e x s) as [[it ->] | ->]
    end; cbn [negb GroupUniqArrayGeneric.value].
    + apply extends_in_refl.
    + by apply extends_in_snoc.
Qed.

Lemma merge_loop_extends_in (a : Region) (rhs_elems : list StringRef) :
  ∀ (cur : HashSet.t StringRef) (m : Memory),
    match GroupUniqArrayGeneric.merge_loop rhs_elems cur (Some a) m with
    | Ok (set', _) => extends_in a cur set'
    | Fail _ => True
    end.
Proof.
  induction rhs_elems as [| elem rest IH]; intros cur m.
  { apply extends_in_refl. }
  cbn [GroupUniqArrayGeneric.merge_loop].
  destruct (emplace_shape (StringRef_eqb m) elem cur) as [[it ->] | ->].
  - apply IH.
  - cbn [Arena.deref mbind result_bind]. unfold HashSet.at_it. cbn [HashSet.cells].
    rewrite list_lookup_middle by done. cbn [default from_option]. unfold id, Arena.insert.
    rewrite set_data_last.
    match goal with
    | |- match GroupUniqArrayGeneric.merge_loop rest ?c (Some a) ?m1 with _ => _ end =>
        specialize (IH c m1);
        destruct (GroupUniqArrayGeneric.merge_loop rest c (Some a) m1) as [[set' m'] |];
        [| done]
    end.
    eapply extends_in_trans; [| exact IH]. by apply extends_in_snoc.
Qed.

Lemma deserialize_loop_extends_in (a : Region) (n : nat) :
  ∀ (set : HashSet.t StringRef) (buf : IO.ReadBuffer) (m : Memory),
    match GroupUniqArrayGeneric.deserialize_loop n set buf (Some a) m with
    | Ok (set', _, _) => extends_in a set set'
    | Fail _ => True
    end.
Proof.
  induction n as [| n IH]; intros set buf m.
  { apply extends_in_refl. }
  cbn [GroupUniqArrayGeneric.deserialize_loop Arena.deref mbind result_bind].
  unfold readStringBinaryInto.
  destruct (IO.readVarUInt buf) as [[sz buf1] |]; cbn [mbind result_bind]; [| done].
  destruct (IO.readStrict (Z.to_nat sz) buf1) as [[bytes buf2] |];
    cbn [mbind result_bind]; [| done].
  unfold Arena.insert. cbn [mbind result_bind].
  match goal with
  | |- match GroupUniqArrayGeneric.deserialize_loop n ?s ?b (Some a) ?m1 with _ => _ end =>
      specialize (IH s b m1);
      destruct (GroupUniqArrayGeneric.deserialize_loop n s b (Some a) m1)
        as [[[set' buf'] m'] |]; [| done]
  end.
  eapply extends_in_trans; [| exact IH].
  unfold HashSet.insert.
  match goal with
  | |- context [HashSet.emplace ?e ?x ?s] =>
      destruct (emplace_shape e x s) as [[it ->] | ->]
  end; cbn [fst].
  - apply extends_in_refl.
  - by apply extends_in_snoc.
Qed.

(** X9.  Whatever [add] (on either path), [merge] and [deserialize] of the
    generic aggregator return, the cells the state had are still there,
    unchanged and in place, and every cell that was added has its key in
    the arena passed to the call: no key is left pointing into the column's
    buffer or into the memory of the other state. *)
Theorem X9_new_keys_live_in_the_arena
    (is_plain_column : bool) {V : Type} `{IColumn V} `{IterationOrder StringRef}
    (place rhs : GroupUniqArrayGeneric.State) (column : Column V) (row_num : nat)
    (buf : IO.ReadBuffer) (a : Region) (m : Memory) :
  match GroupUniqArrayGeneric.addImpl is_plain_column place column row_num (Some a) m with
  | Ok (place', _) =>
      extends_in a (GroupUniqArrayGeneric.value place) (GroupUniqArrayGeneric.value place')
  | Fail _ => True
  end
  ∧ match GroupUniqArrayGeneric.merge place rhs (Some a) m with
    | Ok (place', _) =>
        extends_in a (GroupUniqArrayGeneric.value place) (GroupUniqArrayGeneric.value place')
    | Fail _ => True
    end
  ∧ match GroupUniqArrayGeneric.deserialize place buf (Some a) m with
    | Ok (place', _, _) =>
        extends_in a (GroupUniqArrayGeneric.value place) (GroupUniqArrayGeneric.value place')
    | Fail _ => True
    end.
Proof.
  split_and!.
  - apply addImpl_extends_in.
  - unfold GroupUniqArrayGeneric.merge.
    pose proof (merge_loop_extends_in a
                  (HashSet.elements (GroupUniqArrayGeneric.value rhs))
                  (GroupUniqArrayGeneric.value place) m) as Hm.
    destruct (GroupUniqArrayGeneric.merge_loop _ _ _ _) as [[set' m'] |]; done.
  - unfold GroupUniqArrayGeneric.deserialize.
    destruct (IO.readVarUInt buf) as [[n buf1] |]; cbn [mbind result_bind]; [| done].
    pose proof (deserialize_loop_extends_in a (Z.to_nat n)
                  (GroupUniqArrayGeneric.value place) buf1 m) as Hd.
    destruct (GroupUniqArrayGeneric.deserialize_loop _ _ _ _ _) as [[[set' buf'] m'] |];
      done.
Qed.

(** ** What [merge] of the generic aggregator writes *)

Lemma merge_loop_nothing_new (arena : option Region) (rhs_elems : list StringRef)
    (cur : HashSet.t StringRef) (m : Memory) :
  Forall (valid m) (HashSet.cells cur) → Forall (valid m) rhs_elems →
  Forall (λ k, bytes_at m k ∈ bytes_at m <$> HashSet.cells cur) rhs_elems →
  GroupUniqArrayGeneric.merge_loop rhs_elems cur arena m = Ok (cur, m).
Proof.
  intros Hcur Hrhs Hall. induction Hrhs as [| elem rest Helem Hrest IH]; [done |].
  apply Forall_cons in Hall as [Hin Hall].
  cbn [GroupUniqArrayGeneric.merge_loop].
  destruct (emplace_cases (StringRef_eqb m) (bytes_at m) (valid m)
              (StringRef_eqb_key m) elem cur Hcur Helem) as [(_ & it & ->) | (Hnin & _)].
  - by apply IH.
  - done.
Qed.

(** X10.  [merge] of the generic aggregator copies into the arena of the
    destination one key for every key of [rhs] that the destination does
    not have, and nothing else: the arena grows by exactly those bytes, the
    other regions are not written, and the keys of the destination are
    those it had followed by the new ones.  When [rhs] has no new key (the
    empty state, or the destination itself) nothing is written and the
    state is returned as it was, with or without an arena. *)
Theorem X10_merge_copies_new_keys_only
    `{IterationOrderLaw StringRef}
    (place rhs : GroupUniqArrayGeneric.State) (a : Region) (m : Memory) :
  Forall (valid m) (HashSet.cells (GroupUniqArrayGeneric.value place)) →
  Forall (valid m) (HashSet.cells (GroupUniqArrayGeneric.value rhs)) →
  NoDup (GroupUniqArrayGeneric.keys place m) →
  (∃ place' m' new_keys,
     GroupUniqArrayGeneric.merge place rhs (Some a) m = Ok (place', m')
     ∧ GroupUniqArrayGeneric.keys place' m' = GroupUniqArrayGeneric.keys place m ++ new_keys
     ∧ m' !!! a = m !!! a ++ concat new_keys
     ∧ (∀ r, r ≠ a → m' !! r = m !! r)
     ∧ NoDup new_keys
     ∧ ∀ k, k ∈ new_keys
            ↔ k ∈ GroupUniqArrayGeneric.keys rhs m
              ∧ k ∉ GroupUniqArrayGeneric.keys place m)
  ∧ (GroupUniqArrayGeneric.keys rhs m ⊆ GroupUniqArrayGeneric.keys place m →
     ∀ arena, GroupUniqArrayGeneric.merge place rhs arena m = Ok (place, m))
  ∧ (∀ arena, GroupUniqArrayGeneric.merge place place arena m = Ok (place, m))
  ∧ (∀ arena,
       GroupUniqArrayGeneric.merge place GroupUniqArrayGeneric.create arena m
       = Ok (place, m)).
Proof.
  intros Hplace Hrhs Hnd.
  assert (Hrhs' : Forall (valid m) (HashSet.elements (GroupUniqArrayGeneric.value rhs)))
    by (by rewrite elements_perm).
  assert (Hnothing : ∀ other arena,
            Forall (valid m) (HashSet.cells (GroupUniqArrayGeneric.value other)) →
            GroupUniqArrayGeneric.keys other m ⊆ GroupUniqArrayGeneric.keys place m →
            GroupUniqArrayGeneric.merge place other arena m = Ok (place, m)).
  { intros other arena Hother Hsub. unfold GroupUniqArrayGeneric.merge.
    rewrite merge_loop_nothing_new; [by destruct place | done | by rewrite elements_perm |].
    rewrite elements_perm. apply Forall_forall. intros k Hk. apply Hsub.
    unfold GroupUniqArrayGeneric.keys. by apply list_elem_of_fmap_2. }
  split_and!.
  - destruct (merge_loop_spec a _ _ m Hplace Hrhs')
      as (set' & m' & new & Hrun & _ & Hne & _ & Hkeys & Hnew & Harena).
    exists {| GroupUniqArrayGeneric.value := set' |}, m', new.
    unfold GroupUniqArrayGeneric.merge. rewrite Hrun. cbn [mbind result_bind].
    unfold GroupUniqArrayGeneric.keys in *. cbn [GroupUniqArrayGeneric.value].
    assert (Hnd' : NoDup (bytes_at m' <$> HashSet.cells set'))
      by (rewrite Hkeys; by apply NoDup_uniq_inserts).
    rewrite Hnew in Hnd'. apply NoDup_app in Hnd' as (_ & Hdisj & Hndnew).
    split_and!; try done.
    intros k. split.
    + intros Hk. split; [| intros Hin; by apply (Hdisj k Hin)].
      assert (Hk' : k ∈ bytes_at m' <$> HashSet.cells set')
        by (rewrite Hnew, elem_of_app; by right).
      rewrite Hkeys, elem_of_uniq_inserts in Hk'. destruct Hk' as [Hin | Hin].
      * by destruct (Hdisj k Hin).
      * by rewrite elements_perm in Hin.
    + intros [Hin Hnin].
      assert (Hk' : k ∈ bytes_at m' <$> HashSet.cells set').
      { rewrite Hkeys, elem_of_uniq_inserts. right. by rewrite elements_perm. }
      rewrite Hnew, elem_of_app in Hk'. by destruct Hk'.
  - intros Hsub arena. by apply Hnothing.
  - intros arena. by apply Hnothing.
  - intros arena. apply Hnothing; [apply Forall_nil_2 |].
    intros k Hk. by apply elem_of_nil in Hk.
Qed.

Lemma X10_witness :
  let _ : IterationOrder StringRef := reverse_order StringRef in
  Forall (valid example_memory)
    (HashSet.cells (GroupUniqArrayGeneric.value example_generic_A))
  ∧ Forall (valid example_memory)
      (HashSet.cells (GroupUniqArrayGeneric.value example_generic_B))
  ∧ NoDup (GroupUniqArrayGeneric.keys example_generic_A example_memory)
  ∧ ∃ place' m' new_keys,
      GroupUniqArrayGeneric.merge example_generic_A example_generic_B (Some 1%nat)
        example_memory = Ok (place', m')
      ∧ GroupUniqArrayGeneric.keys place' m'
        = GroupUniqArrayGeneric.keys example_generic_A example_memory ++ new_keys
      ∧ m' !!! 1%nat = example_memory !!! 1%nat ++ concat new_keys
      ∧ (∀ r, r ≠ 1%nat → m' !! r = example_memory !! r)
      ∧ NoDup new_keys
      ∧ ∀ k, k ∈ new_keys
             ↔ k ∈ GroupUniqArrayGeneric.keys example_generic_B example_memory
               ∧ k ∉ GroupUniqArrayGeneric.keys example_generic_A example_memory.
Proof.
  intros oS.
  assert (HA : Forall (valid example_memory)
                 (HashSet.cells (GroupUniqArrayGeneric.value example_generic_A)))
    by by_computation.
  assert (HB : Forall (valid example_memory)
                 (HashSet.cells (GroupUniqArrayGeneric.value example_generic_B)))
    by by_computation.
  assert (Hnd : NoDup (GroupUniqArrayGeneric.keys example_generic_A example_memory))
    by by_computation.
  refine (conj HA (conj HB (conj Hnd _))).
  exact (proj1 (@X10_merge_copies_new_keys_only oS (reverse_order_law StringRef)
                  example_generic_A example_generic_B 1%nat example_memory HA HB Hnd)).
Defined.

(** ** What [deserialize] of the generic aggregator writes *)

Lemma deserialize_loop_arena (a : Region) (ks : list (list byte)) :
  ∀ (set : HashSet.t StringRef) (m : Memory) (rest : list byte),
    Forall (λ k, Z.of_nat (length k) < UInt64_MAX1) ks →
    ∃ set' m',
      GroupUniqArrayGeneric.deserialize_loop (length ks) set
        (concat (length_prefixed <$> ks) ++ rest) (Some a) m = Ok (set', rest, m')
      ∧ m' !!! a = m !!! a ++ concat ks
      ∧ ∀ r, r ≠ a → m' !! r = m !! r.
Proof.
  induction ks as [| k ks IH]; intros set m rest Hks.
  { exists set, m. simpl. by rewrite app_nil_r. }
  apply Forall_cons in Hks as [Hk Hks].
  cbn [length GroupUniqArrayGeneric.deserialize_loop fmap list_fmap concat
       Arena.deref mbind result_bind].
  unfold readStringBinaryInto, length_prefixed at 1.
  rewrite <- !app_assoc, readVarUInt_writeVarUInt by lia.
  cbn [mbind result_bind]. rewrite Nat2Z.id, readStrict_app. cbn [mbind result_bind].
  pose proof (arena_insert_lookup_total a k m a) as Hgrow.
  pose proof (arena_insert_lookup_ne a k m) as Hne1.
  destruct (Arena.insert a k m) as [m1 p]. cbn [fst snd mbind result_bind] in *.
  rewrite decide_True in Hgrow by done.
  match goal with
  | |- context [GroupUniqArrayGeneric.deserialize_loop _ ?s _ _ _] =>
      destruct (IH s m1 rest Hks) as (set' & m' & Hrun & Harena & Hne)
  end.
  exists set', m'. rewrite Hrun. split_and!; [done | |].
  - by rewrite Harena, Hgrow, <- app_assoc.
  - intros r Hr. by rewrite Hne, Hne1.
Qed.

(** X11.  [deserialize] of the generic aggregator copies every string it
    reads into the arena before it looks the string up, and gives nothing
    back: for a count followed by that many length-prefixed strings the
    arena grows by all of them, those that were already in the set, or are
    repeated in the input, included, while the set gains each new key
    once.  The bytes after the last string are left in the buffer. *)
Theorem X11_deserialize_keeps_every_string_in_the_arena
    (place : GroupUniqArrayGeneric.State) (ks : list (list byte))
    (rest : list byte) (a : Region) (m : Memory) :
  Forall (valid m) (HashSet.cells (GroupUniqArrayGeneric.value place)) →
  Forall (λ k, Z.of_nat (length k) < UInt64_MAX1) ks →
  Z.of_nat (length ks) < UInt64_MAX1 →
  ∃ place' m',
    GroupUniqArrayGeneric.deserialize place
      (IO.writeVarUInt (Z.of_nat (length ks)) []
       ++ concat (length_prefixed <$> ks) ++ rest) (Some a) m
    = Ok (place', rest, m')
    ∧ GroupUniqArrayGeneric.keys place' m'
      = uniq_inserts (GroupUniqArrayGeneric.keys place m) ks
    ∧ m' !!! a = m !!! a ++ concat ks
    ∧ Arena.used a m' = (Arena.used a m + sum_list_with length ks)%nat
    ∧ ∀ r, r ≠ a → m' !! r = m !! r.
Proof.
  intros Hval Hks Hlen.
  destruct (deserialize_loop_spec a ks (GroupUniqArrayGeneric.value place) m rest Hval Hks)
    as (set' & m' & Hrun & _ & _ & _ & Hkeys).
  destruct (deserialize_loop_arena a ks (GroupUniqArrayGeneric.value place) m rest Hks)
    as (set'' & m'' & Hrun' & Harena & Hne).
  rewrite Hrun in Hrun'. injection Hrun' as <- <-.
  exists {| GroupUniqArrayGeneric.value := set' |}, m'.
  unfold GroupUniqArrayGeneric.deserialize.
  rewrite readVarUInt_writeVarUInt by lia. cbn [mbind result_bind].
  rewrite Nat2Z.id, Hrun. cbn [mbind result_bind].
  split_and!; [done | done | done | | done].
  unfold Arena.used. by rewrite Harena, length_app, length_concat_sum.
Qed.

Lemma X11_witness :
  let ks := [["b"%byte]; ["z"%byte]; ["z"%byte]] in
  Forall (valid example_memory)
    (HashSet.cells (GroupUniqArrayGeneric.value example_generic_A))
  ∧ Forall (λ k, Z.of_nat (length k) < UInt64_MAX1) ks
  ∧ Z.of_nat (length ks) < UInt64_MAX1
  ∧ ∃ place' m',
      GroupUniqArrayGeneric.deserialize example_generic_A
        (IO.writeVarUInt (Z.of_nat (length ks)) []
         ++ concat (length_prefixed <$> ks) ++ [x07]) (Some 1%nat) example_memory
      = Ok (place', [x07], m')
      ∧ GroupUniqArrayGeneric.keys place' m'
        = [["a"%byte]; ["b"%byte]; ["z"%byte]]
      ∧ m' !!! 1%nat = ["a"%byte; "b"%byte; "b"%byte; "z"%byte; "z"%byte].
Proof.
  intros ks.
  assert (HA : Forall (valid example_memory)
                 (HashSet.cells (GroupUniqArrayGeneric.value example_generic_A)))
    by by_computation.
  assert (Hks : Forall (λ k, Z.of_nat (length k) < UInt64_MAX1) ks) by by_computation.
  assert (Hlen : Z.of_nat (length ks) < UInt64_MAX1) by by_computation.
  refine (conj HA (conj Hks (conj Hlen _))).
  destruct (X11_deserialize_keeps_every_string_in_the_arena example_generic_A ks [x07]
              1%nat example_memory HA Hks Hlen)
    as (place' & m' & Hrun & Hkeys & Harena & _).
  exists place', m'. rewrite Hkeys, Harena. split_and!; [done | | ]; by vm_compute.
Defined.

(** ** Partial aggregation *)

Section partial_aggregation_facts.
Context (is_plain_column : bool) {V : Type} `{EqDecision V} `{IColumn V}.
Context `{!IColumnLaws V}.

Lemma add_each_holds_frame (column : Column V) (a : Region) (m : Memory) :
  column_ready is_plain_column m column a →
  ∃ place' m',
    GroupUniqArrayGeneric.add_each is_plain_column GroupUniqArrayGeneric.create
      column (Some a) m = Ok (place', m')
    ∧ mem_le m m'
    ∧ (∀ r, r ≠ a → m' !! r = m !! r)
    ∧ holds is_plain_column m' place' (distinct (rows column)).
Proof.
  intros Hready.
  destruct (add_each_holds is_plain_column column a m Hready)
    as (place' & m' & Hadd & Hle & Hholds).
  destruct (add_each_spec is_plain_column a GroupUniqArrayGeneric.create column m)
    as (place'' & m'' & new & Hadd' & _ & Hne & _); [apply Forall_nil_2 | done |].
  rewrite Hadd in Hadd'. injection Hadd' as <- <-.
  by exists place', m'.
Qed.
End partial_aggregation_facts.

(** X12.  Aggregating in parts gives what aggregating at once gives.  For
    the fixed-width aggregator and any [==] of [T], [add] for the rows of a
    second block on the state of the first is the state of [add] for all
    the rows; where [==] tells the values of the two blocks apart exactly
    as identity does, merging the states of the two blocks finalizes to a
    rearrangement of it.  For the generic aggregator, the states of two
    columns built in different arenas and then merged finalize to the
    distinct values of the two columns together. *)
Theorem X12_aggregating_in_parts
    {T_eq : OperatorEq Z} `{IterationOrderLaw Z}
    (is_plain_column : bool) {V : Type} `{EqDecision V} `{IColumn V}
    `{!IColumnLaws V} `{IterationOrderLaw StringRef}
    (block1 block2 : list Z) (column1 column2 : Column V) (a b : Region) (m : Memory) :
  Z.of_nat (length block1 + length block2) < UInt64_MAX1 →
  (is_plain_column = true →
   column_stored m column1 ∧ column_stored m column2
   ∧ buffer column1 ≠ a ∧ buffer column2 ≠ a ∧ buffer column2 ≠ b) →
  (∃ s1 s2 s12,
     GroupUniqArray.add_each GroupUniqArray.create block1 = Ok s1
     ∧ GroupUniqArray.add_each GroupUniqArray.create block2 = Ok s2
     ∧ GroupUniqArray.add_each GroupUniqArray.create (block1 ++ block2) = Ok s12
     ∧ GroupUniqArray.add_each s1 block2 = Ok s12
     ∧ (eq_is_identity_on (block1 ++ block2) →
        GroupUniqArray.finalize (GroupUniqArray.merge s1 s2)
        ≡ₚ GroupUniqArray.finalize s12))
  ∧ (∃ s1 m1 s2 m2 s m3,
       GroupUniqArrayGeneric.add_each is_plain_column GroupUniqArrayGeneric.create
         column1 (Some a) m = Ok (s1, m1)
       ∧ GroupUniqArrayGeneric.add_each is_plain_column GroupUniqArrayGeneric.create
           column2 (Some b) m1 = Ok (s2, m2)
       ∧ GroupUniqArrayGeneric.merge s1 s2 (Some a) m2 = Ok (s, m3)
       ∧ GroupUniqArrayGeneric.finalize is_plain_column s m3
         ≡ₚ distinct (rows column1 ++ rows column2)).
Proof.
  intros Hlen Hready. split.
  - pose proof (add_each_inserts GroupUniqArray.create block1) as Hadd1.
    pose proof (add_each_inserts GroupUniqArray.create block2) as Hadd2.
    pose proof (add_each_inserts GroupUniqArray.create (block1 ++ block2)) as Hadd12.
    set (s1 := GroupUniqArray.Build_State _) in Hadd1.
    set (s2 := GroupUniqArray.Build_State _) in Hadd2.
    set (s12 := GroupUniqArray.Build_State _) in Hadd12.
    exists s1, s2, s12.
    split; [exact Hadd1 |]. split; [exact Hadd2 |]. split; [exact Hadd12 |].
    split.
    { rewrite add_each_inserts. unfold s1, s12. cbn [GroupUniqArray.value].
      by rewrite foldl_app. }
    clearbody s1 s2 s12. intros Hid.
    assert (Hs0 : HashSet.cells (GroupUniqArray.value GroupUniqArray.create)
                  ⊆ block1 ++ block2)
      by (intros x Hx; by apply elem_of_nil in Hx).
    assert (Hb1 : block1 ⊆ block1 ++ block2)
      by (intros x Hx; apply elem_of_app; by left).
    assert (Hb2 : block2 ⊆ block1 ++ block2)
      by (intros x Hx; apply elem_of_app; by right).
    destruct (add_each_cells (block1 ++ block2) GroupUniqArray.create block1 Hid Hs0 Hb1)
      as (s1' & Hadd1' & Hc1).
    destruct (add_each_cells (block1 ++ block2) GroupUniqArray.create block2 Hid Hs0 Hb2)
      as (s2' & Hadd2' & Hc2).
    destruct (add_each_cells (block1 ++ block2) GroupUniqArray.create (block1 ++ block2)
                Hid Hs0) as (s12' & Hadd12' & Hc12); [done |].
    rewrite Hadd1 in Hadd1'. rewrite Hadd2 in Hadd2'. rewrite Hadd12 in Hadd12'.
    injection Hadd1' as <-. injection Hadd2' as <-. injection Hadd12' as <-.
    simpl in Hc1, Hc2, Hc12.
    assert (Hs1 : HashSet.cells (GroupUniqArray.value s1) ⊆ block1 ++ block2).
    { intros x. rewrite Hc1, elem_of_uniq_inserts, elem_of_nil. intros [[] | Hx]. auto. }
    assert (Hs2 : HashSet.cells (GroupUniqArray.value s2) ⊆ block1 ++ block2).
    { intros x. rewrite Hc2, elem_of_uniq_inserts, elem_of_nil. intros [[] | Hx]. auto. }
    pose proof (length_uniq_inserts block1 []) as Hl1.
    pose proof (length_uniq_inserts block2 []) as Hl2.
    pose proof (length_uniq_inserts (block1 ++ block2) []) as Hl12.
    rewrite length_app in Hl12. simpl in Hl1, Hl2, Hl12.
    pose proof (length_merge_cells (block1 ++ block2) Hid s1 s2 Hs1 Hs2) as Hlm.
    rewrite !finalize_elements by (rewrite ?Hc12; rewrite ?Hc1, ?Hc2 in Hlm; lia).
    rewrite !elements_perm.
    apply same_elements_Permutation.
    + apply (NoDup_merge_cells (block1 ++ block2)); [done | done | done |].
      rewrite Hc1. apply NoDup_uniq_inserts, NoDup_nil_2.
    + rewrite Hc12. apply NoDup_uniq_inserts, NoDup_nil_2.
    + intros x. rewrite (elem_of_merge_cells (block1 ++ block2)), Hc1, Hc2, Hc12 by done.
      rewrite !elem_of_uniq_inserts, elem_of_app, elem_of_nil. tauto.
  - destruct (add_each_holds_frame is_plain_column column1 a m)
      as (s1 & m1 & Hadd1 & Hle1 & Hne1 & Hh1).
    { intros Hp. destruct (Hready Hp) as (? & ? & ? & ? & ?). by split. }
    destruct (add_each_holds_frame is_plain_column column2 b m1)
      as (s2 & m2 & Hadd2 & Hle2 & Hne2 & Hh2).
    { intros Hp. destruct (Hready Hp) as (? & Hst2 & ? & ? & ?). split; [| done].
      unfold column_stored in *. by rewrite Hne1. }
    destruct (merge_holds is_plain_column a m2 s1 s2 _ _
                (holds_mem_le is_plain_column m1 m2 s1 _ Hle2 Hh1) Hh2)
      as (s & m3 & vs & Hmerge & _ & Hh & Hin).
    exists s1, m1, s2, m2, s, m3. split_and!; try done.
    rewrite (holds_finalize is_plain_column m3 s vs Hh).
    apply same_elements_Permutation; [by destruct Hh as (_ & _ & ?) | apply NoDup_distinct |].
    intros v. rewrite Hin, !elem_of_distinct, elem_of_app. tauto.
Qed.

Lemma X12_witness :
  let _ : OperatorEq Z := integer_eq in
  let _ : IterationOrder Z := reverse_order Z in
  let _ : IColumn (list byte) := framed_column in
  let _ : IterationOrder StringRef := reverse_order StringRef in
  let column1 := {| buffer := 0%nat; rows := [["a"%byte]; ["b"%byte]] |} in
  let column2 := {| buffer := 5%nat; rows := [["b"%byte]; ["c"%byte]] |} in
  let m : Memory := {[ 0%nat := ["a"%byte; "b"%byte]; 5%nat := ["b"%byte; "c"%byte] ]} in
  Z.of_nat (length [1; 2; 2] + length [3; 1]) < UInt64_MAX1
  ∧ (true = true →
     column_stored m column1 ∧ column_stored m column2
     ∧ buffer column1 ≠ 1%nat ∧ buffer column2 ≠ 1%nat ∧ buffer column2 ≠ 2%nat)
  ∧ eq_is_identity_on ([1; 2; 2] ++ [3; 1])
  ∧ (∃ s1 s2 s12,
       GroupUniqArray.add_each GroupUniqArray.create [1; 2; 2] = Ok s1
       ∧ GroupUniqArray.add_each GroupUniqArray.create [3; 1] = Ok s2
       ∧ GroupUniqArray.add_each GroupUniqArray.create ([1; 2; 2] ++ [3; 1]) = Ok s12
       ∧ GroupUniqArray.add_each s1 [3; 1] = Ok s12
       ∧ (eq_is_identity_on ([1; 2; 2] ++ [3; 1]) →
          GroupUniqArray.finalize (GroupUniqArray.merge s1 s2)
          ≡ₚ GroupUniqArray.finalize s12))
  ∧ (∃ s1 m1 s2 m2 s m3,
       GroupUniqArrayGeneric.add_each true GroupUniqArrayGeneric.create
         column1 (Some 1%nat) m = Ok (s1, m1)
       ∧ GroupUniqArrayGeneric.add_each true GroupUniqArrayGeneric.create
           column2 (Some 2%nat) m1 = Ok (s2, m2)
       ∧ GroupUniqArrayGeneric.merge s1 s2 (Some 1%nat) m2 = Ok (s, m3)
       ∧ GroupUniqArrayGeneric.finalize true s m3
         ≡ₚ distinct (rows column1 ++ rows column2)).
Proof.
  intros T_eq oZ col oS column1 column2 m.
  assert (Hlen : Z.of_nat (length [1; 2; 2] + length [3; 1]) < UInt64_MAX1)
    by by_computation.
  assert (Hready : true = true →
            column_stored m column1 ∧ column_stored m column2
            ∧ buffer column1 ≠ 1%nat ∧ buffer column2 ≠ 1%nat ∧ buffer column2 ≠ 2%nat)
    by (intros _; split_and!; done).
  refine (conj Hlen (conj Hready (conj (integer_eq_is_identity _) _))).
  exact (@X12_aggregating_in_parts T_eq oZ (reverse_order_law Z) true (list byte) _ col
           framed_column_laws oS (reverse_order_law StringRef)
           [1; 2; 2] [3; 1] column1 column2 1%nat 2%nat m Hlen Hready).
Defined.
